(** * TGA image codec: a shallow embedding of [src/src/tgaimage.cpp]

    The development follows the C++ translation unit function by function:
    [TGAImage::TGAImage], [get], [set], [flip_horizontally],
    [flip_vertically], [load_rle_data], [unload_rle_data], [read_tga_file]
    and [write_tga_file].  It ends with [line] of [src/apps/line/main.cpp],
    which draws into an image through [set].

    Conventions.
    - [int], [size_t], [std::uint16_t] and [std::uint8_t] values are integers
      of [Z]; every conversion between them is written out ([to_int],
      [to_size_t], [to_u16], [to_u8]).  Signed overflow is undefined in C++;
      [to_int] uses the two's complement result.  Every theorem stated for
      all images or files of a kind assumes the product [w*h*bpp] fits an
      [int]; the counterexamples of C5 and C9 show what the two's complement
      result gives for a header whose product does not.
    - The pixel buffer [std::vector<std::uint8_t>] is a [list byte], read with
      [vec_get] and written with [vec_set].
    - [std::ifstream] is the list of bytes not yet consumed; [std::ofstream]
      is the list of bytes written.  The file system maps a path to the
      content of the file.
    - What a failing function prints on [std::cerr] is recorded as a
      [diag]; the line a successful read prints is not.
    - Indexing the buffer out of bounds is undefined behaviour.  Under the
      buffer-length invariant it cannot happen in [get], [set], the flips and
      the encoder, where [vec_get] and [vec_set] are used as they are; in
      [load_rle_data] it can, and is an outcome of its own ([Undefined]).
    - Loops whose number of iterations is not a loop bound of the source
      take fuel; each is shown to return with the fuel it is given. *)

From Stdlib Require Import ZArith Lia.
From Stdlib Require Import Strings.Byte.
From stdpp Require Import base list list_numbers gmap strings.

Open Scope Z_scope.

(** ** Machine integers *)

Definition to_u8 (z : Z) : Z := z mod 2 ^ 8.
Definition to_u16 (z : Z) : Z := z mod 2 ^ 16.
Definition to_size_t (z : Z) : Z := z mod 2 ^ 64.
Definition to_int (z : Z) : Z := (z + 2 ^ 31) mod 2 ^ 32 - 2 ^ 31.

Definition INT_MAX : Z := 2 ^ 31 - 1.

(** ** Bytes *)

#[global] Instance byte_eq_dec : EqDecision byte := Byte.byte_eq_dec.
#[global] Instance byte_inhabited : Inhabited byte := populate x00.

Definition Z_of_byte (b : byte) : Z := Z.of_N (Byte.to_N b).
Definition byte_of_Z (z : Z) : byte :=
  default x00 (Byte.of_N (Z.to_N (to_u8 z))).

(** ** The pixel buffer: [std::vector<std::uint8_t>] *)

Definition vec_get (d : list byte) (i : Z) : byte := d !!! Z.to_nat i.
Definition vec_set (d : list byte) (i : Z) (v : byte) : list byte :=
  <[Z.to_nat i := v]> d.

(** [memcpy(dst + off, src, n)] *)
Definition memcpy (dst : list byte) (off : Z) (src : list byte) (n : Z)
  : list byte :=
  list_inserts (Z.to_nat off) (take (Z.to_nat n) src) dst.

(** [std::swap(d[a], d[b])] *)
Definition swap (d : list byte) (a b : Z) : list byte :=
  let va := vec_get d a in
  let vb := vec_get d b in
  vec_set (vec_set d a vb) b va.

(** ** [struct TGAColor] *)

Record TGAColor := mkColor { bgra : list byte; bytespp : Z }.

(** The value of [TGAColor{}]: [bgra = {0,0,0,0}], [bytespp = 4]. *)
Definition TGAColor_default : TGAColor :=
  {| bgra := [x00; x00; x00; x00]; bytespp := 4 |}.

(** ** [struct TGAImage] *)

Record TGAImage := mkImage { w : Z; h : Z; bpp : Z; data : list byte }.

Definition GRAYSCALE : Z := 1.
Definition RGB : Z := 3.
Definition RGBA : Z := 4.

(** The default constructed image. *)
Definition TGAImage_empty : TGAImage :=
  {| w := 0; h := 0; bpp := 0; data := [] |}.

(** The guard shared by [get] and [set]:
    [!data.size() || x<0 || y<0 || x>=w || y>=h]. *)
Definition out_of_range (x y : Z) (img : TGAImage) : bool :=
  (length (data img) =? 0)%nat || (x <? 0) || (y <? 0)
  || (w img <=? x) || (h img <=? y).

Definition get (x y : Z) (img : TGAImage) : TGAColor :=
  if out_of_range x y img then TGAColor_default
  else
    let ret := {| bgra := [x00; x00; x00; x00]; bytespp := bpp img |} in
    let p := to_int ((x + y * w img) * bpp img) in
    (* for (int i=bpp; i--; ret.bgra[i] = p[i]); *)
    fold_left
      (fun r i => {| bgra := vec_set (bgra r) i (vec_get (data img) (p + i));
                     bytespp := bytespp r |})
      (reverse (seqZ 0 (bpp img))) ret.

Definition set (x y : Z) (c : TGAColor) (img : TGAImage) : TGAImage :=
  if out_of_range x y img then img
  else
    {| w := w img; h := h img; bpp := bpp img;
       data := memcpy (data img) (to_int ((x + y * w img) * bpp img))
                      (bgra c) (bpp img) |}.

(** [TGAImage::TGAImage(w, h, bpp, c)]: the member [bpp] is a
    [std::uint8_t], the buffer is value-initialised with [w*h*bpp] bytes and
    then filled pixel by pixel through [set]. *)
Definition TGAImage_new (w0 h0 bpp0 : Z) (c : TGAColor) : TGAImage :=
  let img0 :=
    {| w := w0; h := h0; bpp := to_u8 bpp0;
       data := replicate (Z.to_nat (to_size_t (to_int (w0 * h0 * bpp0)))) x00 |}
  in
  fold_left
    (fun img j => fold_left (fun img i => set i j c img) (seqZ 0 w0) img)
    (seqZ 0 h0) img0.

(** *** Flips

    Each flip is a triple loop of [std::swap]s.  [flip_h_swaps] and
    [flip_v_swaps] list the index pairs in the order the loops visit them. *)

Definition apply_swaps (l : list (Z * Z)) (d : list byte) : list byte :=
  fold_left (fun d p => swap d p.1 p.2) l d.

Definition flip_h_swaps (img : TGAImage) : list (Z * Z) :=
  i ← seqZ 0 (w img ÷ 2);
  j ← seqZ 0 (h img);
  b ← seqZ 0 (bpp img);
  [(to_int ((i + j * w img) * bpp img + b),
    to_int ((w img - 1 - i + j * w img) * bpp img + b))].

Definition flip_v_swaps (img : TGAImage) : list (Z * Z) :=
  i ← seqZ 0 (w img);
  j ← seqZ 0 (h img ÷ 2);
  b ← seqZ 0 (bpp img);
  [(to_int ((i + j * w img) * bpp img + b),
    to_int ((i + (h img - 1 - j) * w img) * bpp img + b))].

Definition with_data (img : TGAImage) (d : list byte) : TGAImage :=
  {| w := w img; h := h img; bpp := bpp img; data := d |}.

Definition flip_horizontally (img : TGAImage) : TGAImage :=
  with_data img (apply_swaps (flip_h_swaps img) (data img)).

Definition flip_vertically (img : TGAImage) : TGAImage :=
  with_data img (apply_swaps (flip_v_swaps img) (data img)).

Definition width (img : TGAImage) : Z := w img.
Definition height (img : TGAImage) : Z := h img.

(** The buffer-length invariant of the data model. *)
Definition buffer_inv (img : TGAImage) : Prop :=
  Z.of_nat (length (data img)) = w img * h img * bpp img.

Definition valid_bpp (b : Z) : Prop := b = GRAYSCALE \/ b = RGB \/ b = RGBA.

(** ** Outcomes of the codec functions

    [Done a]: the function completes (a [bool] function returns [true]).
    [Failed msgs]: it returns [false], having printed [msgs] on [std::cerr].
    [Undefined i]: it indexes the pixel buffer at [i], outside its bounds;
    the behaviour of the program is undefined from there on.
    [NoFuel]: the loop bound given to the model was too small (shown below
    not to happen for the bounds used). *)

Inductive diag : Type :=
| cant_open_file            (* "can't open file <filename>" *)
| error_reading_header      (* "an error occured while reading the header" *)
| bad_bpp_or_size           (* "bad bpp (or width/height) value" *)
| error_reading_data        (* "an error occured while reading the data" *)
| too_many_pixels           (* "Too many pixels read" *)
| unknown_file_format (code : Z). (* "unknown file format <code>" *)

Inductive outcome (A : Type) : Type :=
| Done (a : A)
| Failed (msgs : list diag)
| Undefined (i : Z)
| NoFuel.
Arguments Done {A} a.
Arguments Failed {A} msgs.
Arguments Undefined {A} i.
Arguments NoFuel {A}.

#[global] Instance outcome_ret : MRet outcome := fun A a => Done a.
#[global] Instance outcome_bind : MBind outcome := fun A B f m =>
  match m with
  | Done a => f a
  | Failed msgs => Failed msgs
  | Undefined i => Undefined i
  | NoFuel => NoFuel
  end.

(** ** [std::ifstream]: the bytes not yet consumed *)

(** [in.get()] followed by [in.good()] *)
Definition stream_get (s : list byte) : option (byte * list byte) :=
  match s with
  | [] => None
  | b :: rest => Some (b, rest)
  end.

(** [in.read(buf, n)] followed by [in.good()] *)
Definition stream_read (n : Z) (s : list byte) : option (list byte * list byte) :=
  if Z.of_nat (length s) <? n then None
  else Some (take (Z.to_nat n) s, drop (Z.to_nat n) s).

(** ** [struct TGAHeader] (packed, 18 bytes, little endian) *)

Module TGAHeader.

Record t := mk {
  idlength : Z;
  colormaptype : Z;
  datatypecode : Z;
  colormaporigin : Z;
  colormaplength : Z;
  colormapdepth : Z;
  x_origin : Z;
  y_origin : Z;
  width : Z;
  height : Z;
  bitsperpixel : Z;
  imagedescriptor : Z
}.

(** [TGAHeader header = {}] *)
Definition zero : t := mk 0 0 0 0 0 0 0 0 0 0 0 0.

Definition sizeof : Z := 18.

Definition le16 (z : Z) : list byte := [byte_of_Z z; byte_of_Z (z / 256)].
Definition of_le16 (lo hi : byte) : Z := Z_of_byte lo + 256 * Z_of_byte hi.

(** The object representation written by
    [out.write(reinterpret_cast<const char *>(&header), sizeof(header))]. *)
Definition to_bytes (hd : t) : list byte :=
  [byte_of_Z (idlength hd); byte_of_Z (colormaptype hd);
   byte_of_Z (datatypecode hd)]
  ++ le16 (colormaporigin hd) ++ le16 (colormaplength hd)
  ++ [byte_of_Z (colormapdepth hd)]
  ++ le16 (x_origin hd) ++ le16 (y_origin hd)
  ++ le16 (width hd) ++ le16 (height hd)
  ++ [byte_of_Z (bitsperpixel hd); byte_of_Z (imagedescriptor hd)].

(** The header read by
    [in.read(reinterpret_cast<char *>(&header), sizeof(header))]. *)
Definition of_bytes (bs : list byte) : t :=
  match bs with
  | [b0; b1; b2; b3; b4; b5; b6; b7; b8; b9; b10; b11; b12; b13; b14; b15;
     b16; b17] =>
      mk (Z_of_byte b0) (Z_of_byte b1) (Z_of_byte b2)
         (of_le16 b3 b4) (of_le16 b5 b6) (Z_of_byte b7)
         (of_le16 b8 b9) (of_le16 b10 b11)
         (of_le16 b12 b13) (of_le16 b14 b15)
         (Z_of_byte b16) (Z_of_byte b17)
  | _ => zero
  end.

(** Every field holds a value of its type. *)
Definition wf (hd : t) : Prop :=
  0 <= idlength hd < 256 /\ 0 <= colormaptype hd < 256
  /\ 0 <= datatypecode hd < 256
  /\ 0 <= colormaporigin hd < 65536 /\ 0 <= colormaplength hd < 65536
  /\ 0 <= colormapdepth hd < 256
  /\ 0 <= x_origin hd < 65536 /\ 0 <= y_origin hd < 65536
  /\ 0 <= width hd < 65536 /\ 0 <= height hd < 65536
  /\ 0 <= bitsperpixel hd < 256 /\ 0 <= imagedescriptor hd < 256.

End TGAHeader.

(** ** [TGAImage::load_rle_data] *)

Record rle_state := mkRle {
  rs_in : list byte;       (* std::ifstream &in *)
  rs_data : list byte;     (* data *)
  currentpixel : Z;
  currentbyte : Z
}.

(** [data[currentbyte++] = v] *)
Definition store_byte (v : byte) (st : rle_state) : outcome rle_state :=
  if (0 <=? currentbyte st) && (currentbyte st <? Z.of_nat (length (rs_data st)))
  then Done {| rs_in := rs_in st;
               rs_data := vec_set (rs_data st) (currentbyte st) v;
               currentpixel := currentpixel st;
               currentbyte := currentbyte st + 1 |}
  else Undefined (currentbyte st).

(** [for (int t=0; t<bpp; t++) data[currentbyte++] = colorbuffer.bgra[t];]
    where [colorbuffer] lists the [bpp] bytes read into [colorbuffer.bgra]. *)
Fixpoint store_pixel (colorbuffer : list byte) (st : rle_state)
  : outcome rle_state :=
  match colorbuffer with
  | [] => Done st
  | v :: colorbuffer' => st' ← store_byte v st; store_pixel colorbuffer' st'
  end.

(** [currentpixel++; if (currentpixel>pixelcount) return false;] *)
Definition count_pixel (pixelcount : Z) (st : rle_state) : outcome rle_state :=
  let st' := {| rs_in := rs_in st; rs_data := rs_data st;
                currentpixel := currentpixel st + 1;
                currentbyte := currentbyte st |} in
  if pixelcount <? currentpixel st' then Failed [too_many_pixels]
  else Done st'.

(** The body of the branch [chunkheader<128], [n] iterations to go. *)
Fixpoint raw_packet (n : nat) (pixelcount bpp : Z) (st : rle_state)
  : outcome rle_state :=
  match n with
  | O => Done st
  | S n' =>
      match stream_read bpp (rs_in st) with
      | None => Failed [error_reading_header]
      | Some (colorbuffer, rest) =>
          st1 ← store_pixel colorbuffer
                  {| rs_in := rest; rs_data := rs_data st;
                     currentpixel := currentpixel st;
                     currentbyte := currentbyte st |};
          st2 ← count_pixel pixelcount st1;
          raw_packet n' pixelcount bpp st2
      end
  end.

(** The replication loop of the other branch, [n] iterations to go. *)
Fixpoint run_packet (n : nat) (pixelcount : Z) (colorbuffer : list byte)
    (st : rle_state) : outcome rle_state :=
  match n with
  | O => Done st
  | S n' =>
      st1 ← store_pixel colorbuffer st;
      st2 ← count_pixel pixelcount st1;
      run_packet n' pixelcount colorbuffer st2
  end.

(** One packet: the body of the [do ... while]. *)
Definition load_rle_packet (pixelcount bpp : Z) (st : rle_state)
  : outcome rle_state :=
  match stream_get (rs_in st) with
  | None => Failed [error_reading_data]
  | Some (b, rest) =>
      let chunkheader := Z_of_byte b in
      let st := {| rs_in := rest; rs_data := rs_data st;
                   currentpixel := currentpixel st;
                   currentbyte := currentbyte st |} in
      if chunkheader <? 128 then
        let chunkheader := to_u8 (chunkheader + 1) in
        raw_packet (Z.to_nat chunkheader) pixelcount bpp st
      else
        let chunkheader := to_u8 (chunkheader - 127) in
        match stream_read bpp (rs_in st) with
        | None => Failed [error_reading_header]
        | Some (colorbuffer, rest') =>
            run_packet (Z.to_nat chunkheader) pixelcount colorbuffer
              {| rs_in := rest'; rs_data := rs_data st;
                 currentpixel := currentpixel st;
                 currentbyte := currentbyte st |}
        end
  end.

Fixpoint load_rle_loop (fuel : nat) (pixelcount bpp : Z) (st : rle_state)
  : outcome rle_state :=
  match fuel with
  | O => NoFuel
  | S fuel' =>
      st' ← load_rle_packet pixelcount bpp st;
      if currentpixel st' <? pixelcount
      then load_rle_loop fuel' pixelcount bpp st'
      else Done st'
  end.

(** [load_rle_data(in)] on the image [img]: the stream left and the image
    with the decoded buffer.  Every packet consumes its header byte, so
    [length s] iterations exhaust any stream. *)
Definition load_rle_data (s : list byte) (img : TGAImage)
  : outcome (list byte * TGAImage) :=
  let pixelcount := to_size_t (to_int (w img * h img)) in
  st ← load_rle_loop (S (length s)) pixelcount (bpp img)
         {| rs_in := s; rs_data := data img;
            currentpixel := 0; currentbyte := 0 |};
  Done (rs_in st, with_data img (rs_data st)).

(** ** [TGAImage::unload_rle_data] *)

Definition max_chunk_length : Z := 128.

(** [for (int t=0; succ_eq && t<bpp; t++)
       succ_eq = (data[curbyte+t]==data[curbyte+t+bpp]);] *)
Definition succ_eq (img : TGAImage) (curbyte : Z) : bool :=
  forallb
    (fun t => bool_decide (vec_get (data img) (curbyte + t)
                           = vec_get (data img) (curbyte + t + bpp img)))
    (seqZ 0 (bpp img)).

(** The inner [while]: returns [raw] and [run_length] at its exit. *)
Fixpoint scan_run (fuel : nat) (img : TGAImage)
    (npixels curpix curbyte run_length : Z) (raw : bool) : outcome (bool * Z) :=
  match fuel with
  | O => NoFuel
  | S fuel' =>
      if (curpix + run_length <? npixels) && (run_length <? max_chunk_length)
      then
        let se := succ_eq img curbyte in
        let curbyte := curbyte + bpp img in
        let raw := if run_length =? 1 then negb se else raw in
        if raw && se then Done (raw, to_u8 (run_length - 1))
        else if negb raw && negb se then Done (raw, run_length)
        else scan_run fuel' img npixels curpix curbyte
               (to_u8 (run_length + 1)) raw
      else Done (raw, run_length)
  end.

(** What one iteration of the outer loop writes: [raw], [run_length] and
    [chunkstart]. *)
Record chunk := mkChunk { ch_raw : bool; ch_len : Z; ch_start : Z }.

(** [out.put(raw ? run_length-1 : run_length+127)] *)
Definition chunk_header (c : chunk) : byte :=
  byte_of_Z (if ch_raw c then ch_len c - 1 else ch_len c + 127).

(** [out.write(data.data()+chunkstart, (raw?run_length*bpp:bpp))] *)
Definition chunk_payload (img : TGAImage) (c : chunk) : list byte :=
  take (Z.to_nat (if ch_raw c then ch_len c * bpp img else bpp img))
       (drop (Z.to_nat (ch_start c)) (data img)).

Definition chunk_bytes (img : TGAImage) (c : chunk) : list byte :=
  chunk_header c :: chunk_payload img c.

Fixpoint unload_rle_loop (fuel : nat) (img : TGAImage) (npixels curpix : Z)
  : outcome (list chunk) :=
  match fuel with
  | O => NoFuel
  | S fuel' =>
      if curpix <? npixels then
        let chunkstart := to_size_t (curpix * bpp img) in
        let curbyte := to_size_t (curpix * bpp img) in
        '(raw, run_length) ←
          scan_run (Z.to_nat max_chunk_length) img npixels curpix curbyte 1 true;
        rest ← unload_rle_loop fuel' img npixels (curpix + run_length);
        Done ({| ch_raw := raw; ch_len := run_length; ch_start := chunkstart |}
              :: rest)
      else Done []
  end.

(** The packets [unload_rle_data] emits.  Every packet covers at least one
    pixel, so [npixels] iterations and the final test suffice. *)
Definition unload_rle_chunks (img : TGAImage) : outcome (list chunk) :=
  let npixels := to_size_t (to_int (w img * h img)) in
  unload_rle_loop (S (Z.to_nat npixels)) img npixels 0.

(** The bytes [unload_rle_data(out)] appends to [out]. *)
Definition unload_rle_data (img : TGAImage) : outcome (list byte) :=
  cs ← unload_rle_chunks img;
  Done (concat (chunk_bytes img <$> cs)).

(** ** [TGAImage::write_tga_file]

    The output stream never fails in this model: opening the file and
    every write succeed. *)

Definition developer_area_ref : list byte := [x00; x00; x00; x00].
Definition extension_area_ref : list byte := [x00; x00; x00; x00].
(** ['T','R','U','E','V','I','S','I','O','N','-','X','F','I','L','E','.','\0'] *)
Definition footer : list byte :=
  [x54; x52; x55; x45; x56; x49; x53; x49; x4f; x4e; x2d; x58; x46; x49;
   x4c; x45; x2e; x00].

Definition write_header (vflip rle : bool) (img : TGAImage) : TGAHeader.t :=
  {| TGAHeader.idlength := 0;
     TGAHeader.colormaptype := 0;
     TGAHeader.datatypecode :=
       if bpp img =? GRAYSCALE then (if rle then 11 else 3)
       else (if rle then 10 else 2);
     TGAHeader.colormaporigin := 0;
     TGAHeader.colormaplength := 0;
     TGAHeader.colormapdepth := 0;
     TGAHeader.x_origin := 0;
     TGAHeader.y_origin := 0;
     TGAHeader.width := to_u16 (w img);
     TGAHeader.height := to_u16 (h img);
     TGAHeader.bitsperpixel := to_u8 (Z.shiftl (bpp img) 3);
     TGAHeader.imagedescriptor := if vflip then 0x00 else 0x20 |}.

(** The content of the file written. *)
Definition tga_file_bytes (vflip rle : bool) (img : TGAImage)
  : outcome (list byte) :=
  pixels ←
    (if negb rle
     then Done (take (Z.to_nat (to_int (w img * h img * bpp img))) (data img))
     else unload_rle_data img);
  Done (TGAHeader.to_bytes (write_header vflip rle img)
        ++ pixels ++ developer_area_ref ++ extension_area_ref ++ footer).

Definition write_tga_file (filename : string) (vflip rle : bool)
    (img : TGAImage) (fs : gmap string (list byte))
  : outcome (gmap string (list byte)) :=
  file ← tga_file_bytes vflip rle img;
  Done (<[filename := file]> fs).

(** ** [TGAImage::read_tga_file]

    [Done img'] is the state of the object after a call that returns
    [true].  The state a failed call leaves behind is not tracked. *)

Definition read_pixels (hd : TGAHeader.t) (s : list byte) (img : TGAImage)
  : outcome TGAImage :=
  let nbytes := to_size_t (to_int (w img * h img * bpp img)) in
  let code := TGAHeader.datatypecode hd in
  if (code =? 3) || (code =? 2) then
    match stream_read nbytes s with
    | None => Failed [error_reading_data]
    | Some (bytes, _) => Done (with_data img (memcpy (data img) 0 bytes nbytes))
    end
  else if (code =? 10) || (code =? 11) then
    match load_rle_data s img with
    | Done (_, img') => Done img'
    | Failed msgs => Failed (msgs ++ [error_reading_data])
    | Undefined i => Undefined i
    | NoFuel => NoFuel
    end
  else Failed [unknown_file_format code].

Definition read_tga_stream (file : list byte) : outcome TGAImage :=
  match stream_read TGAHeader.sizeof file with
  | None => Failed [error_reading_header]
  | Some (hbytes, s) =>
      let header := TGAHeader.of_bytes hbytes in
      let w0 := TGAHeader.width header in
      let h0 := TGAHeader.height header in
      let bpp0 := to_u8 (Z.shiftr (TGAHeader.bitsperpixel header) 3) in
      if (w0 <=? 0) || (h0 <=? 0)
         || (negb (bpp0 =? GRAYSCALE) && negb (bpp0 =? RGB)
             && negb (bpp0 =? RGBA))
      then Failed [bad_bpp_or_size]
      else
        let nbytes := to_size_t (to_int (w0 * h0 * bpp0)) in
        let img := {| w := w0; h := h0; bpp := bpp0;
                      data := replicate (Z.to_nat nbytes) x00 |} in
        img ← read_pixels header s img;
        let img :=
          if Z.land (TGAHeader.imagedescriptor header) 0x20 =? 0
          then flip_vertically img else img in
        let img :=
          if negb (Z.land (TGAHeader.imagedescriptor header) 0x10 =? 0)
          then flip_horizontally img else img in
        Done img
  end.

(** [img.read_tga_file(filename)]: the whole state of [img] is replaced. *)
Definition read_tga_file (filename : string) (fs : gmap string (list byte))
    (img : TGAImage) : outcome TGAImage :=
  match fs !! filename with
  | None => Failed [cant_open_file]
  | Some file => read_tga_stream file
  end.

(** ** Notions used to state the properties *)

(** A valid image state: positive dimensions, a supported pixel size, the
    buffer-length invariant, and a byte count an [int] can hold. *)
Definition valid_image (img : TGAImage) : Prop :=
  0 < w img /\ 0 < h img /\ valid_bpp (bpp img) /\ buffer_inv img
  /\ w img * h img * bpp img <= INT_MAX.

(** [same_shape img img']: [img'] has the dimensions, the pixel size and
    the buffer length of [img]. *)
Definition same_shape (img img' : TGAImage) : Prop :=
  w img' = w img /\ h img' = h img /\ bpp img' = bpp img
  /\ length (data img') = length (data img).

(** The byte index of channel [b] of the cell in column [c], row [r]. *)
Definition cell_index (img : TGAImage) (c r b : Z) : Z :=
  (c + r * w img) * bpp img + b.

(** [rows_reversed img img']: [img'] has the shape of [img] and holds row
    [h-1-r] of [img] in its row [r]. *)
Definition rows_reversed (img img' : TGAImage) : Prop :=
  same_shape img img'
  /\ forall c r b,
       0 <= c < w img -> 0 <= r < h img -> 0 <= b < bpp img ->
       data img' !! Z.to_nat (cell_index img c r b)
       = data img !! Z.to_nat (cell_index img c (h img - 1 - r) b).

(** A swap list is well formed for a buffer of [n] bytes when every index
    is in bounds and no index occurs in two swaps. *)
Definition in_bounds (n : Z) (p : Z * Z) : Prop :=
  0 <= p.1 < n /\ 0 <= p.2 < n.

Definition disjoint_pair (p q : Z * Z) : Prop :=
  p.1 <> q.1 /\ p.1 <> q.2 /\ p.2 <> q.1 /\ p.2 <> q.2.

Fixpoint disjoint_swaps (l : list (Z * Z)) : Prop :=
  match l with
  | [] => True
  | p :: l' => Forall (disjoint_pair p) l' /\ disjoint_swaps l'
  end.

(** The initial state of [load_rle_data]. *)
Definition rle_init (s d : list byte) : rle_state :=
  {| rs_in := s; rs_data := d; currentpixel := 0; currentbyte := 0 |}.

(** The number of whole pixels the packets of a stream describe before the
    stream ends, in the packet format of the decoder: a header byte [hd < 128]
    announces [hd + 1] pixels stored one after the other, a header byte
    [hd >= 128] announces one stored pixel replicated [hd - 127] times.  A
    packet cut short contributes the whole pixels it still holds; nothing is
    counted after it. *)
Fixpoint packets_pixels (fuel : nat) (bpp : Z) (s : list byte) : Z :=
  match fuel, s with
  | S fuel', hd :: rest =>
      let avail := Z.of_nat (length rest) / bpp in
      if Z_of_byte hd <? 128 then
        let n := Z_of_byte hd + 1 in
        if avail <? n then avail
        else n + packets_pixels fuel' bpp (drop (Z.to_nat (n * bpp)) rest)
      else
        if avail <? 1 then 0
        else Z_of_byte hd - 127
             + packets_pixels fuel' bpp (drop (Z.to_nat bpp) rest)
  | _, _ => 0
  end.

Definition stream_pixels (bpp : Z) (s : list byte) : Z :=
  packets_pixels (length s) bpp s.

(** The bytes of the [k]-th pixel of the buffer, in row-major order. *)
Definition pixel (img : TGAImage) (k : Z) : list byte :=
  take (Z.to_nat (bpp img)) (drop (Z.to_nat (k * bpp img)) (data img)).

(** What the format asks of a packet: a raw packet covers 1 to 128 pixels
    and has a header byte in [0,127]; a repeated packet replicates 2 to 128
    pixels and has a header byte in [129,255]. *)
Definition chunk_ok (c : chunk) : Prop :=
  if ch_raw c
  then 1 <= ch_len c <= 128 /\ 0 <= Z_of_byte (chunk_header c) <= 127
  else 2 <= ch_len c <= 128 /\ 129 <= Z_of_byte (chunk_header c) <= 255.

(** ** Example states and files *)

Definition ex_rgb_1x1 : TGAImage :=
  {| w := 1; h := 1; bpp := 3; data := [x01; x02; x03] |}.

Definition ex_rgb_2x1 : TGAImage :=
  {| w := 2; h := 1; bpp := 3; data := [x01; x02; x03; x04; x05; x06] |}.

Definition ex_gray_1x2 : TGAImage :=
  {| w := 1; h := 2; bpp := 1; data := [x01; x02] |}.

Definition ex_gray_2x3 : TGAImage :=
  {| w := 2; h := 3; bpp := 1; data := [x01; x02; x03; x04; x05; x06] |}.

Definition ex_color : TGAColor :=
  {| bgra := [x0a; x0b; x0c; x0d]; bytespp := 4 |}.

(** A grayscale 2x3 file with raw pixel data and a bottom-left origin. *)
Definition ex_file_raw : list byte :=
  [x00; x00; x03; x00; x00; x00; x00; x00; x00; x00; x00; x00;
   x02; x00; x03; x00; x08; x00;
   x01; x02; x03; x04; x05; x06;
   x00; x00; x00; x00; x00; x00; x00; x00;
   x54; x52; x55; x45; x56; x49; x53; x49; x4f; x4e; x2d; x58; x46; x49;
   x4c; x45; x2e; x00].

Definition ex_gray_1x1 : TGAImage :=
  {| w := 1; h := 1; bpp := 1; data := [x00] |}.

Definition ex_gray_2x1_blank : TGAImage :=
  {| w := 2; h := 1; bpp := 1; data := [x00; x00] |}.

(** The header of a grayscale RLE file (type 11) of 2x1 pixels. *)
Definition ex_header_rle_2x1 : list byte :=
  [x00; x00; x0b; x00; x00; x00; x00; x00; x00; x00; x00; x00;
   x02; x00; x01; x00; x08; x00].

(** A grayscale RLE file (type 11) that declares 1x1 pixels and whose only
    packet replicates a pixel twice. *)
Definition ex_file_overrun : list byte :=
  [x00; x00; x0b; x00; x00; x00; x00; x00; x00; x00; x00; x00;
   x01; x00; x01; x00; x08; x00;
   x81; x0a;
   x00; x00; x00; x00; x00; x00; x00; x00;
   x54; x52; x55; x45; x56; x49; x53; x49; x4f; x4e; x2d; x58; x46; x49;
   x4c; x45; x2e; x00].

(** 128 equal grayscale pixels followed by a different one. *)
Definition ex_boundary : TGAImage :=
  {| w := 129; h := 1; bpp := 1;
     data := concat (replicate 128 [x07]) ++ [x09] |}.

(** ** Notions used to state further properties *)

(** The pixel [get] returns for an in-range cell holding [bytes]: the bytes
    of the cell, zero-padded to four channels, tagged with the [bpp] of the
    image. *)
Definition stored_color (img : TGAImage) (bytes : list byte) : TGAColor :=
  {| bgra := bytes ++ replicate (4 - length bytes) x00; bytespp := bpp img |}.

(** [(x,y)] is a cell of the image. *)
Definition in_image (x y : Z) (img : TGAImage) : Prop :=
  0 <= x < w img /\ 0 <= y < h img.

(** An image state with positive dimensions and pixel size that satisfies
    the buffer-length invariant, with a byte count an [int] can hold (the
    pixel size need not be one of the three of a TGA file). *)
Definition sound_image (img : TGAImage) : Prop :=
  0 < w img /\ 0 < h img /\ 0 < bpp img <= 4 /\ buffer_inv img
  /\ w img * h img * bpp img <= INT_MAX.

(** The fields [read_tga_file] takes from a header. *)
Definition header_bpp (hd : TGAHeader.t) : Z :=
  to_u8 (Z.shiftr (TGAHeader.bitsperpixel hd) 3).

(** The image a raw file describes before its orientation is normalised:
    the pixel data in file order. *)
Definition file_image (hd : TGAHeader.t) (pixels : list byte) : TGAImage :=
  {| w := TGAHeader.width hd; h := TGAHeader.height hd; bpp := header_bpp hd;
     data := pixels |}.

(** The header of a raw grayscale file of 2x3 pixels: the first 18 bytes of
    [ex_file_raw]. *)
Definition ex_header_raw_2x3 : list byte := take 18 ex_file_raw.

(** [adjacent_equal img k]: pixels [k] and [k+1] of the buffer are equal. *)
Definition adjacent_equal (img : TGAImage) (k : Z) : Prop :=
  pixel img k = pixel img (k + 1).

(** What the greedy scan of the encoder guarantees of the packet it forms
    for the [n] pixels from [curpix] on, [npixels] being the pixel count of
    the image.  In a raw packet no two neighbours are equal; a raw packet
    that is not full and does not end the image stops in front of a pair of
    equal pixels, which its last pixel differs from.  In a repeated packet
    all pixels are equal; a repeated packet that is not full and does not
    end the image is followed by a different pixel. *)
Definition run_greedy (img : TGAImage) (npixels curpix : Z) (raw : bool)
    (n : Z) : Prop :=
  1 <= n <= 128 /\ curpix + n <= npixels
  /\ if raw
     then (forall k, 0 <= k < n - 1 -> ~ adjacent_equal img (curpix + k))
          /\ (n < 128 -> curpix + n < npixels ->
              ~ adjacent_equal img (curpix + n - 1)
              /\ curpix + n + 1 < npixels
              /\ adjacent_equal img (curpix + n))
     else 2 <= n
          /\ (forall k, 0 <= k < n - 1 -> adjacent_equal img (curpix + k))
          /\ (n < 128 -> curpix + n < npixels ->
              ~ adjacent_equal img (curpix + n - 1)).

(** The packets [cs] take the pixels from [curpix] to the end of the image,
    one packet after the other, each formed by the greedy scan. *)
Fixpoint chunks_greedy (img : TGAImage) (npixels curpix : Z) (cs : list chunk)
  : Prop :=
  match cs with
  | [] => curpix = npixels
  | c :: cs' =>
      ch_start c = curpix * bpp img
      /\ run_greedy img npixels curpix (ch_raw c) (ch_len c)
      /\ chunks_greedy img npixels (curpix + ch_len c) cs'
  end.

(** ** [line] of [src/apps/line/main.cpp] (Bresenham)

    The function draws through [framebuffer.set].  [line_with] is its body
    with the call to [set] as a parameter [plot]; [line] is [line_with] for
    [set] with the colour, [line_points] records the coordinate pairs the
    calls receive, in order. *)

(** [std::abs] on [int] *)
Definition int_abs (z : Z) : Z := to_int (Z.abs z).

Record line_state (S : Type) := mkLine { ls_y : Z; ls_ierror : Z; ls_out : S }.
Arguments mkLine {S} ls_y ls_ierror ls_out.
Arguments ls_y {S} l.
Arguments ls_ierror {S} l.
Arguments ls_out {S} l.

(** One iteration of the [for] loop, for the column [x]. *)
Definition line_step {S : Type} (plot : Z -> Z -> S -> S) (isSteep : bool)
    (ax ay bx by_ : Z) (st : line_state S) (x : Z) : line_state S :=
  let out := if isSteep then plot (ls_y st) x (ls_out st)
             else plot x (ls_y st) (ls_out st) in
  let ierror := to_int (ls_ierror st + to_int (2 * int_abs (to_int (by_ - ay)))) in
  if to_int (bx - ax) <? ierror
  then {| ls_y := to_int (ls_y st + (if ay <? by_ then 1 else -1));
          ls_ierror := to_int (ierror - to_int (2 * to_int (bx - ax)));
          ls_out := out |}
  else {| ls_y := ls_y st; ls_ierror := ierror; ls_out := out |}.

(** The loop [for(int x = ax; x <= bx; x ++)] with [y = ay], [ierror = 0],
    as the list of its columns [ax..bx].  This is the loop of the source for
    [bx < INT_MAX]; for [bx = INT_MAX] the increment of [x] overflows and the
    loop of the source does not end.  Every theorem about [line] below
    assumes coordinates of at most 2^28 in absolute value ([coord]), for
    which no [int] operation of [line] overflows. *)
Definition line_loop {S : Type} (plot : Z -> Z -> S -> S) (isSteep : bool)
    (ax ay bx by_ : Z) (out : S) : line_state S :=
  fold_left (line_step plot isSteep ax ay bx by_) (seqZ ax (bx - ax + 1))
    {| ls_y := ay; ls_ierror := 0; ls_out := out |}.

Definition line_with {S : Type} (plot : Z -> Z -> S -> S)
    (ax ay bx by_ : Z) (out : S) : S :=
  let isSteep := int_abs (to_int (ax - bx)) <? int_abs (to_int (ay - by_)) in
  (* if(isSteep) { std::swap(ax, ay); std::swap(bx, by); } *)
  let '(ax, ay, bx, by_) :=
    if isSteep then (ay, ax, by_, bx) else (ax, ay, bx, by_) in
  (* if(ax > bx) { std::swap(ax, bx); std::swap(ay, by); } *)
  let '(ax, ay, bx, by_) :=
    if bx <? ax then (bx, by_, ax, ay) else (ax, ay, bx, by_) in
  ls_out (line_loop plot isSteep ax ay bx by_ out).

Definition line (ax ay bx by_ : Z) (framebuffer : TGAImage) (color : TGAColor)
  : TGAImage :=
  line_with (fun x y fb => set x y color fb) ax ay bx by_ framebuffer.

Definition line_points (ax ay bx by_ : Z) : list (Z * Z) :=
  line_with (fun x y pts => pts ++ [(x, y)]) ax ay bx by_ [].

(** Coordinates for which the [int] arithmetic of [line] does not overflow. *)
Definition coord (z : Z) : Prop := - 2 ^ 28 <= z <= 2 ^ 28.

(** Twice the area of the triangle [a], [b], [p]: zero when [p] lies on the
    line through [a] and [b]. *)
Definition cross (ax ay bx by_ x y : Z) : Z :=
  (x - ax) * (by_ - ay) - (y - ay) * (bx - ax).

(** The pair [set] receives for the column [x] and the row [y] of the
    loop. *)
Definition plotted (isSteep : bool) (x y : Z) : Z * Z :=
  if isSteep then (y, x) else (x, y).

Definition ex_rgb_8x8 : TGAImage :=
  {| w := 8; h := 8; bpp := 3; data := replicate 192 x00 |}.

(** The ways a run of [load_rle_data] can go on a buffer of [len] bytes
    (shown below for a buffer of the declared size): success, one of the two
    read errors, or a first store outside the buffer at the index [len], one
    past its last byte. *)
Definition decoder_outcome {A : Type} (len : Z) (o : outcome A) : Prop :=
  match o with
  | Done _ => True
  | Failed msgs => msgs = [error_reading_data] \/ msgs = [error_reading_header]
  | Undefined i => i = len
  | NoFuel => False
  end.

(** Two states of the decoder that differ at most in the bytes of the buffer
    not yet written, those from [currentbyte] on. *)
Definition decoded_alike (st st' : rle_state) : Prop :=
  rs_in st' = rs_in st /\ currentpixel st' = currentpixel st
  /\ currentbyte st' = currentbyte st
  /\ length (rs_data st') = length (rs_data st)
  /\ take (Z.to_nat (currentbyte st)) (rs_data st')
     = take (Z.to_nat (currentbyte st)) (rs_data st).

(** ** Notions used to state what a decoded buffer holds *)

(** The pixel bytes the packets of a stream describe, in the packet format
    of the decoder ([packets_pixels] counts their pixels): a raw packet
    contributes the [hd + 1] pixels stored after its header byte, a repeated
    packet contributes its one stored pixel [hd - 127] times.  A packet cut
    short contributes the whole pixels it still holds; nothing follows it. *)
Fixpoint packets_bytes (fuel : nat) (bpp : Z) (s : list byte) : list byte :=
  match fuel, s with
  | S fuel', hd :: rest =>
      let avail := Z.of_nat (length rest) / bpp in
      if Z_of_byte hd <? 128 then
        let n := Z_of_byte hd + 1 in
        if avail <? n then take (Z.to_nat (avail * bpp)) rest
        else take (Z.to_nat (n * bpp)) rest
             ++ packets_bytes fuel' bpp (drop (Z.to_nat (n * bpp)) rest)
      else
        if avail <? 1 then []
        else concat (replicate (Z.to_nat (Z_of_byte hd - 127))
                       (take (Z.to_nat bpp) rest))
             ++ packets_bytes fuel' bpp (drop (Z.to_nat bpp) rest)
  | _, _ => []
  end.

Definition stream_bytes (bpp : Z) (s : list byte) : list byte :=
  packets_bytes (length s) bpp s.

(** The header of an uncompressed file (type 2) of 32768x32768 pixels of 32
    bits with a top-left origin: [w*h*bpp] is [2^32]. *)
Definition ex_header_big : list byte :=
  [x00; x00; x02; x00; x00; x00; x00; x00; x00; x00; x00; x00;
   x00; x80; x00; x80; x20; x20].

(** The same header for an RLE file (type 10). *)
Definition ex_header_big_rle : list byte :=
  [x00; x00; x0a; x00; x00; x00; x00; x00; x00; x00; x00; x00;
   x00; x80; x00; x80; x20; x20].

(** * Properties *)

(** ** Machine integers and bytes *)

Lemma to_int_id z : - 2 ^ 31 <= z <= INT_MAX -> to_int z = z.
Proof.
  unfold to_int, INT_MAX. intros Hz.
  rewrite Z.mod_small by lia. lia.
Qed.

Lemma to_size_t_id z : 0 <= z <= INT_MAX -> to_size_t z = z.
Proof. unfold to_size_t, INT_MAX. intros Hz. apply Z.mod_small. lia. Qed.

Lemma to_u8_id z : 0 <= z < 256 -> to_u8 z = z.
Proof. unfold to_u8. intros Hz. apply Z.mod_small. lia. Qed.

Lemma to_u16_id z : 0 <= z < 65536 -> to_u16 z = z.
Proof. unfold to_u16. intros Hz. apply Z.mod_small. lia. Qed.

Lemma Z_of_byte_range b : 0 <= Z_of_byte b < 256.
Proof. unfold Z_of_byte. pose proof (Byte.to_N_bounded b). lia. Qed.

Lemma Z_of_byte_of_Z z : Z_of_byte (byte_of_Z z) = to_u8 z.
Proof.
  unfold Z_of_byte, byte_of_Z.
  assert (Hr : 0 <= to_u8 z < 256) by (unfold to_u8; apply Z.mod_pos_bound; lia).
  destruct (Byte.of_N (Z.to_N (to_u8 z))) as [b|] eqn:Hb.
  - apply Byte.to_of_N in Hb. simpl. rewrite Hb. lia.
  - apply Byte.of_N_None_iff in Hb. lia.
Qed.

Lemma byte_of_Z_of_byte b : byte_of_Z (Z_of_byte b) = b.
Proof.
  unfold byte_of_Z. rewrite to_u8_id by apply Z_of_byte_range.
  unfold Z_of_byte. rewrite N2Z.id, Byte.of_to_N. reflexivity.
Qed.

(** ** [get] and [set] *)

Lemma out_of_range_true x y img :
  x < 0 \/ y < 0 \/ w img <= x \/ h img <= y \/ data img = [] ->
  out_of_range x y img = true.
Proof.
  unfold out_of_range. intros Hc.
  destruct (data img) as [|b d] eqn:Hd; [reflexivity|]. simpl.
  destruct (Z.ltb_spec x 0), (Z.ltb_spec y 0), (Z.leb_spec (w img) x),
    (Z.leb_spec (h img) y); simpl; try reflexivity.
  destruct Hc as [?|[?|[?|[?|?]]]]; try discriminate; lia.
Qed.

Lemma out_of_range_false x y img :
  0 <= x < w img -> 0 <= y < h img -> data img <> [] ->
  out_of_range x y img = false.
Proof.
  unfold out_of_range. intros Hx Hy Hd.
  destruct (data img) as [|b d]; [done|]. simpl.
  destruct (Z.ltb_spec x 0), (Z.ltb_spec y 0), (Z.leb_spec (w img) x),
    (Z.leb_spec (h img) y); simpl; try reflexivity; lia.
Qed.

Lemma pixel_offset_bounds x y img :
  buffer_inv img -> 0 < bpp img ->
  0 <= x < w img -> 0 <= y < h img ->
  0 <= (x + y * w img) * bpp img
  /\ (x + y * w img) * bpp img + bpp img <= Z.of_nat (length (data img)).
Proof.
  unfold buffer_inv. intros -> Hb Hx Hy.
  assert (0 <= y * w img) by (apply Z.mul_nonneg_nonneg; lia).
  assert (y * w img <= (h img - 1) * w img)
    by (apply Z.mul_le_mono_nonneg_r; lia).
  split; [apply Z.mul_nonneg_nonneg; lia|].
  replace ((x + y * w img) * bpp img + bpp img)
    with ((x + y * w img + 1) * bpp img) by ring.
  apply Z.mul_le_mono_nonneg_r; lia.
Qed.

Lemma set_out_of_range x y c img :
  x < 0 \/ y < 0 \/ w img <= x \/ h img <= y \/ data img = [] ->
  set x y c img = img.
Proof. intros Hc. unfold set. rewrite out_of_range_true; done. Qed.

Lemma set_dims x y c img :
  w (set x y c img) = w img /\ h (set x y c img) = h img
  /\ bpp (set x y c img) = bpp img
  /\ length (data (set x y c img)) = length (data img).
Proof.
  unfold set. destruct (out_of_range x y img); simpl; [done|].
  unfold memcpy. rewrite length_inserts. done.
Qed.

Lemma set_in_range x y c img :
  buffer_inv img -> w img * h img * bpp img <= INT_MAX -> 0 < bpp img ->
  0 <= x < w img -> 0 <= y < h img ->
  data (set x y c img)
  = list_inserts (Z.to_nat ((x + y * w img) * bpp img))
      (take (Z.to_nat (bpp img)) (bgra c)) (data img).
Proof.
  intros Hinv Hfit Hb Hx Hy.
  destruct (pixel_offset_bounds x y img Hinv Hb Hx Hy) as [Hlo Hhi].
  unfold set. rewrite out_of_range_false; [|done|done|].
  - simpl. unfold memcpy. rewrite to_int_id; [done|].
    unfold buffer_inv in Hinv. unfold INT_MAX in *. lia.
  - intros Hd. rewrite Hd in Hhi. simpl in Hhi. lia.
Qed.

(** C6, as the code has it: for every image state and every coordinate
    pair that is out of range ([x<0], [y<0], [x>=w] or [y>=h]), or when the
    buffer is empty, [get] returns the default pixel [TGAColor{}]: the four
    channel bytes are 0 and the bytes-per-pixel tag is 4, whatever the
    [bpp] of the image.  [get] is a total function: it never fails. *)
Theorem get_out_of_range x y img :
  x < 0 \/ y < 0 \/ w img <= x \/ h img <= y \/ data img = [] ->
  get x y img = TGAColor_default
  /\ bgra (get x y img) = [x00; x00; x00; x00]
  /\ bytespp (get x y img) = 4.
Proof.
  intros Hc. unfold get. rewrite out_of_range_true by done. done.
Qed.

Lemma get_out_of_range_witness :
  get (-1) 0 ex_rgb_1x1
  = TGAColor_default
  /\ bgra (get (-1) 0 ex_rgb_1x1)
     = [x00; x00; x00; x00]
  /\ bytespp (get (-1) 0 ex_rgb_1x1)
     = 4.
Proof. apply get_out_of_range. left. reflexivity. Defined.

(** C6 as stated does not hold: on an RGB image ([bpp = 3]) the pixel
    returned for an out-of-range coordinate carries the tag 4, not 3. *)
Lemma get_out_of_range_tag_counterexample :
  bytespp (get (-1) 0 ex_rgb_1x1)
  <> bpp ex_rgb_1x1.
Proof. vm_compute. discriminate. Qed.

(** C7: for in-range [(x,y)] on a non-empty buffer, [set x y c] overwrites
    exactly the [bpp] bytes of cell [(x,y)] with the first [bpp] bytes of
    [c], and leaves every other byte of the buffer and the fields [w], [h],
    [bpp] unchanged; for an out-of-range [(x,y)] or an empty buffer it leaves
    the whole state unchanged. *)
Theorem set_spec x y c img :
  (buffer_inv img -> w img * h img * bpp img <= INT_MAX ->
   0 < bpp img <= 4 -> length (bgra c) = 4%nat ->
   0 <= x < w img -> 0 <= y < h img -> data img <> [] ->
   let img' := set x y c img in
   let off := Z.to_nat ((x + y * w img) * bpp img) in
   w img' = w img /\ h img' = h img /\ bpp img' = bpp img
   /\ length (data img') = length (data img)
   /\ (forall k : nat, (k < Z.to_nat (bpp img))%nat ->
         is_Some (bgra c !! k)
         /\ data img' !! (off + k)%nat = bgra c !! k)
   /\ (forall i : nat, (i < off \/ off + Z.to_nat (bpp img) <= i)%nat ->
         data img' !! i = data img !! i))
  /\ (x < 0 \/ y < 0 \/ w img <= x \/ h img <= y \/ data img = [] ->
      set x y c img = img).
Proof.
  split; [|apply set_out_of_range].
  intros Hinv Hfit Hb Hc Hx Hy _ img' off.
  destruct (set_dims x y c img) as (Hw & Hh & Hbpp & Hlen).
  destruct (pixel_offset_bounds x y img Hinv ltac:(lia) Hx Hy) as [Hlo Hhi].
  assert (Htake : length (take (Z.to_nat (bpp img)) (bgra c))
                  = Z.to_nat (bpp img)) by (rewrite length_take; lia).
  repeat split; try done.
  - apply lookup_lt_is_Some. lia.
  - subst img'. rewrite set_in_range by (done || lia).
    rewrite list_lookup_inserts by (subst off; lia).
    replace (off + k - Z.to_nat ((x + y * w img) * bpp img))%nat with k
      by (subst off; lia).
    apply lookup_take_lt. lia.
  - intros i Hi. subst img'. rewrite set_in_range by (done || lia).
    destruct Hi as [Hi|Hi].
    + apply list_lookup_inserts_lt. subst off. lia.
    + apply list_lookup_inserts_ge. subst off. lia.
Qed.

Lemma set_spec_witness :
  data (set 1 0 ex_color ex_rgb_2x1) !! 4%nat = bgra ex_color !! 1%nat
  /\ data (set 1 0 ex_color ex_rgb_2x1) !! 0%nat = data ex_rgb_2x1 !! 0%nat
  /\ set 2 0 ex_color ex_rgb_2x1 = ex_rgb_2x1.
Proof.
  pose (img := ex_rgb_2x1). pose (c := ex_color).
  destruct (set_spec 1 0 c img) as [Hin Hout].
  destruct Hin as (_ & _ & _ & _ & Hcell & Hother);
    [reflexivity | vm_compute; discriminate | cbn; lia | reflexivity
    | cbn; lia | cbn; lia | discriminate |].
  split; [|split].
  - apply (Hcell 1%nat). cbn. lia.
  - apply (Hother 0%nat). left. cbn. lia.
  - apply (proj2 (set_spec 2 0 c img)). right. right. left. cbn. lia.
Defined.

(** ** Flips *)

Lemma length_swap d a b : length (swap d a b) = length d.
Proof. unfold swap, vec_set. by rewrite !length_insert. Qed.

Lemma lookup_swap d a b i :
  0 <= a < Z.of_nat (length d) -> 0 <= b < Z.of_nat (length d) ->
  swap d a b !! i
  = if decide (i = Z.to_nat b) then d !! Z.to_nat a
    else if decide (i = Z.to_nat a) then d !! Z.to_nat b
    else d !! i.
Proof.
  intros Ha Hb. unfold swap, vec_set, vec_get.
  destruct (decide (i = Z.to_nat b)) as [->|Hib].
  { rewrite list_lookup_insert_eq by (rewrite length_insert; lia).
    symmetry. apply list_lookup_lookup_total_lt. lia. }
  rewrite list_lookup_insert_ne by done.
  destruct (decide (i = Z.to_nat a)) as [->|Hia].
  { rewrite list_lookup_insert_eq by lia.
    symmetry. apply list_lookup_lookup_total_lt. lia. }
  by rewrite list_lookup_insert_ne.
Qed.

Lemma swap_swap d a b :
  0 <= a < Z.of_nat (length d) -> 0 <= b < Z.of_nat (length d) ->
  swap (swap d a b) a b = d.
Proof.
  intros Ha Hb. apply list_eq. intros i.
  rewrite !lookup_swap by (rewrite ?length_swap; lia).
  repeat case_decide; subst; congruence.
Qed.

Lemma swap_comm d p q :
  in_bounds (Z.of_nat (length d)) p -> in_bounds (Z.of_nat (length d)) q ->
  disjoint_pair p q ->
  swap (swap d p.1 p.2) q.1 q.2 = swap (swap d q.1 q.2) p.1 p.2.
Proof.
  intros [Hp1 Hp2] [Hq1 Hq2] (H1 & H2 & H3 & H4). apply list_eq. intros i.
  rewrite !lookup_swap by (rewrite ?length_swap; lia).
  repeat case_decide; subst; try congruence; lia.
Qed.

Lemma apply_swaps_cons p l d :
  apply_swaps (p :: l) d = apply_swaps l (swap d p.1 p.2).
Proof. reflexivity. Qed.

Lemma length_apply_swaps l d : length (apply_swaps l d) = length d.
Proof.
  revert d. induction l as [|p l IH]; intros d; [done|].
  rewrite apply_swaps_cons, IH. apply length_swap.
Qed.

Lemma apply_swaps_comm l d p :
  in_bounds (Z.of_nat (length d)) p ->
  Forall (in_bounds (Z.of_nat (length d))) l ->
  Forall (disjoint_pair p) l ->
  apply_swaps l (swap d p.1 p.2) = swap (apply_swaps l d) p.1 p.2.
Proof.
  revert d. induction l as [|q l IH]; intros d Hp Hl Hd; [done|].
  inversion_clear Hl as [|? ? Hq Hl']. inversion_clear Hd as [|? ? Hpq Hd'].
  rewrite !apply_swaps_cons, swap_comm by done.
  apply IH; rewrite ?length_swap; done.
Qed.

Lemma apply_swaps_involutive l d :
  Forall (in_bounds (Z.of_nat (length d))) l -> disjoint_swaps l ->
  apply_swaps l (apply_swaps l d) = d.
Proof.
  revert d. induction l as [|p l IH]; intros d Hl Hd; [done|].
  inversion_clear Hl as [|? ? Hp Hl']. destruct Hd as [Hpl Hd].
  rewrite !apply_swaps_cons, (apply_swaps_comm l d p) by done.
  rewrite swap_swap by (rewrite length_apply_swaps; apply Hp).
  apply IH; done.
Qed.

(** What a well-formed swap list does to each index. *)
Lemma apply_swaps_untouched l d x :
  Forall (in_bounds (Z.of_nat (length d))) l -> 0 <= x ->
  Forall (fun p => p.1 <> x /\ p.2 <> x) l ->
  apply_swaps l d !! Z.to_nat x = d !! Z.to_nat x.
Proof.
  revert d. induction l as [|p l IH]; intros d Hl Hx Hne; [done|].
  inversion_clear Hl as [|? ? [Hp1 Hp2] Hl'].
  inversion_clear Hne as [|? ? [Hn1 Hn2] Hne'].
  rewrite apply_swaps_cons, IH by (rewrite ?length_swap; done).
  rewrite lookup_swap by lia. repeat case_decide; try done; lia.
Qed.

Lemma apply_swaps_swapped l d a b :
  Forall (in_bounds (Z.of_nat (length d))) l -> disjoint_swaps l ->
  (a, b) ∈ l ->
  apply_swaps l d !! Z.to_nat a = d !! Z.to_nat b
  /\ apply_swaps l d !! Z.to_nat b = d !! Z.to_nat a.
Proof.
  revert d. induction l as [|p l IH]; intros d Hl Hdis Hin.
  { by apply elem_of_nil in Hin. }
  inversion_clear Hl as [|? ? [Hp1 Hp2] Hl']. destruct Hdis as [Hpl Hdis].
  rewrite apply_swaps_cons.
  apply elem_of_cons in Hin as [Heq | Hin]; [subst p|]; cbn [fst snd] in *.
  - rewrite !apply_swaps_untouched; rewrite ?length_swap; try done; try lia.
    + rewrite !lookup_swap by lia.
      split; repeat case_decide; try done; congruence.
    + eapply Forall_impl; [exact Hpl|]. intros q (? & ? & ? & ?). done.
    + eapply Forall_impl; [exact Hpl|]. intros q (? & ? & ? & ?). done.
  - rewrite Forall_forall in Hpl. destruct (Hpl _ Hin) as (H1 & H2 & H3 & H4).
    cbn [fst snd] in *.
    rewrite Forall_forall in Hl'. destruct (Hl' _ Hin) as [Ha Hb].
    cbn [fst snd] in *.
    destruct (IH (swap d p.1 p.2)) as [-> ->]; rewrite ?length_swap;
      try done; [by apply Forall_forall|].
    rewrite !lookup_swap by lia. split; repeat case_decide; try done; lia.
Qed.

Lemma disjoint_swaps_NoDup l :
  NoDup l ->
  (forall p q, p ∈ l -> q ∈ l -> p <> q -> disjoint_pair p q) ->
  disjoint_swaps l.
Proof.
  induction 1 as [|p l Hp Hnd IH]; intros Hdis; [done|].
  split.
  - apply Forall_forall. intros q Hq. apply Hdis.
    + by left.
    + by right.
    + intros ->. done.
  - apply IH. intros p' q' Hp' Hq'. apply Hdis; by right.
Qed.

(** Distinct cells have distinct byte indices, all within the buffer. *)
Lemma cell_index_inj img c1 r1 b1 c2 r2 b2 :
  0 <= c1 < w img -> 0 <= c2 < w img ->
  0 <= b1 < bpp img -> 0 <= b2 < bpp img ->
  cell_index img c1 r1 b1 = cell_index img c2 r2 b2 ->
  c1 = c2 /\ r1 = r2 /\ b1 = b2.
Proof.
  unfold cell_index. intros Hc1 Hc2 Hb1 Hb2 Heq.
  destruct (Z.div_mod_unique (bpp img) (c1 + r1 * w img) (c2 + r2 * w img)
              b1 b2) as [Hq Hr]; [lia | lia | lia |].
  destruct (Z.div_mod_unique (w img) r1 r2 c1 c2) as [Hq' Hr'];
    [lia | lia | lia |].
  done.
Qed.

Lemma cell_index_bounds img c r b :
  buffer_inv img ->
  0 <= c < w img -> 0 <= r < h img -> 0 <= b < bpp img ->
  0 <= cell_index img c r b < Z.of_nat (length (data img)).
Proof.
  intros Hinv Hc Hr Hb. unfold cell_index.
  destruct (pixel_offset_bounds c r img Hinv ltac:(lia) Hc Hr). lia.
Qed.

Lemma quot2_bound n i : 0 <= i < 0 + n ÷ 2 -> 0 <= i /\ 2 * i + 2 <= n.
Proof. intros Hi. Z.to_euclidean_division_equations. lia. Qed.

Ltac elem_of_binds :=
  repeat match goal with
    | H : _ ∈ _ ≫= _ |- _ => apply list_elem_of_bind in H as (? & H & ?)
    | H : _ ∈ [_] |- _ => apply list_elem_of_singleton in H
    | H : _ ∈ seqZ _ _ |- _ => apply elem_of_seqZ in H
    end;
  repeat match goal with
    | H : 0 <= _ < 0 + _ ÷ 2 |- _ => apply quot2_bound in H
    end.

Section flips.
Context (img : TGAImage).
Hypothesis Hinv : buffer_inv img.
Hypothesis Hfit : w img * h img * bpp img <= INT_MAX.

Lemma to_int_cell c r b :
  0 <= c < w img -> 0 <= r < h img -> 0 <= b < bpp img ->
  to_int ((c + r * w img) * bpp img + b) = cell_index img c r b.
Proof.
  intros Hc Hr Hb.
  pose proof (cell_index_bounds img c r b Hinv Hc Hr Hb) as Hbnd.
  unfold cell_index in *. apply to_int_id.
  unfold buffer_inv in Hinv. unfold INT_MAX in *. lia.
Qed.

Ltac same_cell :=
  elem_of_binds;
  match goal with
  | H1 : ?y = _, H2 : ?y = _ |- _ =>
      rewrite H1 in H2; rewrite !to_int_cell in H2 by lia;
      injection H2 as H2 _; apply cell_index_inj in H2; lia
  end.

Lemma flip_h_swaps_elem p :
  p ∈ flip_h_swaps img ->
  exists i j b,
    (0 <= i /\ 2 * i + 2 <= w img) /\ 0 <= j < h img /\ 0 <= b < bpp img
    /\ p = (cell_index img i j b, cell_index img (w img - 1 - i) j b).
Proof.
  unfold flip_h_swaps. intros Hp. elem_of_binds.
  eexists _, _, _. rewrite !to_int_cell in Hp by lia. eauto.
Qed.

Lemma flip_v_swaps_elem p :
  p ∈ flip_v_swaps img ->
  exists i j b,
    0 <= i < w img /\ (0 <= j /\ 2 * j + 2 <= h img) /\ 0 <= b < bpp img
    /\ p = (cell_index img i j b, cell_index img i (h img - 1 - j) b).
Proof.
  unfold flip_v_swaps. intros Hp. elem_of_binds.
  eexists _, _, _. rewrite !to_int_cell in Hp by lia.
  split_and!; [| | | | | |exact Hp]; lia.
Qed.

Lemma flip_h_swaps_NoDup : NoDup (flip_h_swaps img).
Proof.
  unfold flip_h_swaps.
  apply NoDup_bind; [intros; same_cell | |apply NoDup_seqZ].
  intros i Hi.
  apply NoDup_bind; [intros; same_cell | |apply NoDup_seqZ].
  intros j Hj.
  apply NoDup_bind; [intros; same_cell | |apply NoDup_seqZ].
  intros b Hb. apply NoDup_singleton.
Qed.

Lemma flip_v_swaps_NoDup : NoDup (flip_v_swaps img).
Proof.
  unfold flip_v_swaps.
  apply NoDup_bind; [intros; same_cell | |apply NoDup_seqZ].
  intros i Hi.
  apply NoDup_bind; [intros; same_cell | |apply NoDup_seqZ].
  intros j Hj.
  apply NoDup_bind; [intros; same_cell | |apply NoDup_seqZ].
  intros b Hb. apply NoDup_singleton.
Qed.

Lemma flip_h_swaps_in_bounds :
  Forall (in_bounds (Z.of_nat (length (data img)))) (flip_h_swaps img).
Proof.
  apply Forall_forall. intros p Hp.
  apply flip_h_swaps_elem in Hp as (i & j & b & Hi & Hj & Hb & ->).
  split; apply cell_index_bounds; done || lia.
Qed.

Lemma flip_v_swaps_in_bounds :
  Forall (in_bounds (Z.of_nat (length (data img)))) (flip_v_swaps img).
Proof.
  apply Forall_forall. intros p Hp.
  apply flip_v_swaps_elem in Hp as (i & j & b & Hi & Hj & Hb & ->).
  split; apply cell_index_bounds; done || lia.
Qed.

Lemma flip_h_swaps_disjoint : disjoint_swaps (flip_h_swaps img).
Proof.
  apply disjoint_swaps_NoDup; [apply flip_h_swaps_NoDup|].
  intros p q Hp Hq Hne.
  apply flip_h_swaps_elem in Hp as (i1 & j1 & b1 & Hi1 & Hj1 & Hb1 & ->).
  apply flip_h_swaps_elem in Hq as (i2 & j2 & b2 & Hi2 & Hj2 & Hb2 & ->).
  repeat split; cbn [fst snd]; intros Heq;
    apply cell_index_inj in Heq as (Hc & Hr & Hb'); try lia;
    apply Hne; f_equal; f_equal; lia.
Qed.

Lemma flip_v_swaps_disjoint : disjoint_swaps (flip_v_swaps img).
Proof.
  apply disjoint_swaps_NoDup; [apply flip_v_swaps_NoDup|].
  intros p q Hp Hq Hne.
  apply flip_v_swaps_elem in Hp as (i1 & j1 & b1 & Hi1 & Hj1 & Hb1 & ->).
  apply flip_v_swaps_elem in Hq as (i2 & j2 & b2 & Hi2 & Hj2 & Hb2 & ->).
  repeat split; cbn [fst snd]; intros Heq;
    apply cell_index_inj in Heq as (Hc & Hr & Hb'); try lia;
    apply Hne; f_equal; f_equal; lia.
Qed.

Lemma flip_v_swaps_intro i j b :
  0 <= i < w img -> 0 <= j -> 2 * j + 2 <= h img -> 0 <= b < bpp img ->
  (cell_index img i j b, cell_index img i (h img - 1 - j) b)
  ∈ flip_v_swaps img.
Proof.
  intros Hi Hj Hj2 Hb. unfold flip_v_swaps.
  apply list_elem_of_bind. exists i. split; [|apply elem_of_seqZ; lia].
  apply list_elem_of_bind. exists j. split;
    [|apply elem_of_seqZ; Z.to_euclidean_division_equations; lia].
  apply list_elem_of_bind. exists b. split; [|apply elem_of_seqZ; lia].
  apply list_elem_of_singleton. by rewrite !to_int_cell by lia.
Qed.

Lemma flip_h_swaps_intro i j b :
  0 <= i -> 2 * i + 2 <= w img -> 0 <= j < h img -> 0 <= b < bpp img ->
  (cell_index img i j b, cell_index img (w img - 1 - i) j b)
  ∈ flip_h_swaps img.
Proof.
  intros Hi Hi2 Hj Hb. unfold flip_h_swaps.
  apply list_elem_of_bind. exists i. split;
    [|apply elem_of_seqZ; Z.to_euclidean_division_equations; lia].
  apply list_elem_of_bind. exists j. split; [|apply elem_of_seqZ; lia].
  apply list_elem_of_bind. exists b. split; [|apply elem_of_seqZ; lia].
  apply list_elem_of_singleton. by rewrite !to_int_cell by lia.
Qed.

(** [flip_vertically] puts row [h-1-r] in the place of row [r]. *)
Lemma flip_vertically_lookup c r b :
  0 <= c < w img -> 0 <= r < h img -> 0 <= b < bpp img ->
  data (flip_vertically img) !! Z.to_nat (cell_index img c r b)
  = data img !! Z.to_nat (cell_index img c (h img - 1 - r) b).
Proof.
  intros Hc Hr Hb. unfold flip_vertically. cbn [data with_data].
  pose proof flip_v_swaps_in_bounds as Hbnd.
  pose proof flip_v_swaps_disjoint as Hdis.
  destruct (Z.le_gt_cases (2 * r + 2) (h img)) as [Hlow|Hnlow].
  { apply (apply_swaps_swapped (flip_v_swaps img) (data img)
             (cell_index img c r b) (cell_index img c (h img - 1 - r) b)); try done.
    apply flip_v_swaps_intro; lia. }
  destruct (Z.le_gt_cases (2 * (h img - 1 - r) + 2) (h img)) as [Hhigh|Hnhigh].
  { pose proof (flip_v_swaps_intro c (h img - 1 - r) b) as Hin.
    replace (h img - 1 - (h img - 1 - r)) with r in Hin by lia.
    apply (apply_swaps_swapped (flip_v_swaps img) (data img)
             (cell_index img c (h img - 1 - r) b) (cell_index img c r b)); try done.
    apply Hin; lia. }
  replace (h img - 1 - r) with r by lia.
  apply apply_swaps_untouched; [done| |].
  { apply (cell_index_bounds img c r b); done. }
  apply Forall_forall. intros p Hp.
  apply flip_v_swaps_elem in Hp as (i & j & b' & Hi & Hj & Hb' & ->).
  cbn [fst snd]. split; intros Heq; apply cell_index_inj in Heq; lia.
Qed.

(** [flip_horizontally] puts column [w-1-c] in the place of column [c]. *)
Lemma flip_horizontally_lookup c r b :
  0 <= c < w img -> 0 <= r < h img -> 0 <= b < bpp img ->
  data (flip_horizontally img) !! Z.to_nat (cell_index img c r b)
  = data img !! Z.to_nat (cell_index img (w img - 1 - c) r b).
Proof.
  intros Hc Hr Hb. unfold flip_horizontally. cbn [data with_data].
  pose proof flip_h_swaps_in_bounds as Hbnd.
  pose proof flip_h_swaps_disjoint as Hdis.
  destruct (Z.le_gt_cases (2 * c + 2) (w img)) as [Hlow|Hnlow].
  { apply (apply_swaps_swapped (flip_h_swaps img) (data img)
             (cell_index img c r b) (cell_index img (w img - 1 - c) r b)); try done.
    apply flip_h_swaps_intro; lia. }
  destruct (Z.le_gt_cases (2 * (w img - 1 - c) + 2) (w img)) as [Hhigh|Hnhigh].
  { pose proof (flip_h_swaps_intro (w img - 1 - c) r b) as Hin.
    replace (w img - 1 - (w img - 1 - c)) with c in Hin by lia.
    apply (apply_swaps_swapped (flip_h_swaps img) (data img)
             (cell_index img (w img - 1 - c) r b) (cell_index img c r b)); try done.
    apply Hin; lia. }
  replace (w img - 1 - c) with c by lia.
  apply apply_swaps_untouched; [done| |].
  { apply (cell_index_bounds img c r b); done. }
  apply Forall_forall. intros p Hp.
  apply flip_h_swaps_elem in Hp as (i & j & b' & Hi & Hj & Hb' & ->).
  cbn [fst snd]. split; intros Heq; apply cell_index_inj in Heq; lia.
Qed.

Lemma flip_horizontally_involutive :
  flip_horizontally (flip_horizontally img) = img.
Proof.
  unfold flip_horizontally, with_data. cbn [w h bpp data].
  change (flip_h_swaps {| w := w img; h := h img; bpp := bpp img;
                          data := ?d |}) with (flip_h_swaps img).
  rewrite apply_swaps_involutive;
    [by destruct img | apply flip_h_swaps_in_bounds
    | apply flip_h_swaps_disjoint].
Qed.

Lemma flip_vertically_involutive :
  flip_vertically (flip_vertically img) = img.
Proof.
  unfold flip_vertically, with_data. cbn [w h bpp data].
  change (flip_v_swaps {| w := w img; h := h img; bpp := bpp img;
                          data := ?d |}) with (flip_v_swaps img).
  rewrite apply_swaps_involutive;
    [by destruct img | apply flip_v_swaps_in_bounds
    | apply flip_v_swaps_disjoint].
Qed.

End flips.

(** C8: for every image state (any width, height and bpp, odd dimensions
    and the empty image included), applying [flip_horizontally] twice
    restores the pixel buffer, and so does applying [flip_vertically]
    twice.  An image state satisfies the buffer-length invariant, with a
    byte count that an [int] can hold. *)
Theorem flip_twice img :
  buffer_inv img -> w img * h img * bpp img <= INT_MAX ->
  flip_horizontally (flip_horizontally img) = img
  /\ flip_vertically (flip_vertically img) = img.
Proof.
  intros Hinv Hfit. split.
  - by apply flip_horizontally_involutive.
  - by apply flip_vertically_involutive.
Qed.

Lemma flip_twice_witness :
  (flip_horizontally (flip_horizontally ex_gray_2x3) = ex_gray_2x3
   /\ flip_vertically (flip_vertically ex_gray_2x3) = ex_gray_2x3)
  /\ (flip_horizontally (flip_horizontally TGAImage_empty) = TGAImage_empty
      /\ flip_vertically (flip_vertically TGAImage_empty) = TGAImage_empty).
Proof.
  split; apply flip_twice; (reflexivity || (vm_compute; discriminate)).
Defined.

(** ** The outcome monad *)

Lemma bind_Done {A B} (a : A) (f : A -> outcome B) : Done a ≫= f = f a.
Proof. reflexivity. Qed.

Lemma bind_Done_inv {A B} (m : outcome A) (f : A -> outcome B) b :
  m ≫= f = Done b -> exists a, m = Done a /\ f a = Done b.
Proof. destruct m; try discriminate. eauto. Qed.

(** ** Streams *)

Lemma stream_read_Some n s :
  0 <= n <= Z.of_nat (length s) ->
  stream_read n s = Some (take (Z.to_nat n) s, drop (Z.to_nat n) s).
Proof.
  intros Hn. unfold stream_read.
  destruct (Z.ltb_spec (Z.of_nat (length s)) n); [lia | done].
Qed.

Lemma stream_read_None n s :
  Z.of_nat (length s) < n -> stream_read n s = None.
Proof.
  intros Hn. unfold stream_read.
  destruct (Z.ltb_spec (Z.of_nat (length s)) n); [done | lia].
Qed.

Lemma stream_read_inv n s px rest :
  0 <= n -> stream_read n s = Some (px, rest) ->
  px = take (Z.to_nat n) s /\ rest = drop (Z.to_nat n) s
  /\ Z.of_nat (length px) = n /\ n <= Z.of_nat (length s).
Proof.
  unfold stream_read. intros Hn Hr.
  destruct (Z.ltb_spec (Z.of_nat (length s)) n); [done|].
  injection Hr as <- <-. rewrite length_take. repeat split; lia.
Qed.

Lemma stream_read_app n s t :
  Z.of_nat (length s) = n ->
  stream_read n (s ++ t) = Some (s, t).
Proof.
  intros Hn. rewrite stream_read_Some by (rewrite length_app; lia).
  rewrite take_app_length', drop_app_length' by lia. done.
Qed.

(** ** The RLE decoder *)

Lemma store_pixel_Done px st :
  0 <= currentbyte st ->
  currentbyte st + Z.of_nat (length px) <= Z.of_nat (length (rs_data st)) ->
  store_pixel px st
  = Done {| rs_in := rs_in st;
            rs_data := list_inserts (Z.to_nat (currentbyte st)) px (rs_data st);
            currentpixel := currentpixel st;
            currentbyte := currentbyte st + Z.of_nat (length px) |}.
Proof.
  revert st. induction px as [|v px IH]; intros st Hlo Hhi.
  { destruct st. simpl. by rewrite Z.add_0_r. }
  cbn [store_pixel length] in *. unfold store_byte.
  destruct (Z.leb_spec 0 (currentbyte st)); [|lia].
  destruct (Z.ltb_spec (currentbyte st) (Z.of_nat (length (rs_data st))));
    [|lia].
  cbn [andb]. rewrite bind_Done, IH; cbn [rs_in rs_data currentbyte currentpixel];
    unfold vec_set; rewrite ?length_insert; try lia.
  f_equal. f_equal; [|lia].
  cbn [list_inserts].
  replace (Z.to_nat (currentbyte st + 1)) with (S (Z.to_nat (currentbyte st)))
    by lia.
  symmetry. apply list_insert_inserts_lt. lia.
Qed.

Lemma store_pixel_inv px st st' :
  store_pixel px st = Done st' ->
  rs_in st' = rs_in st /\ length (rs_data st') = length (rs_data st)
  /\ currentpixel st' = currentpixel st
  /\ currentbyte st' = currentbyte st + Z.of_nat (length px).
Proof.
  revert st. induction px as [|v px IH]; intros st Hs.
  { injection Hs as <-. repeat split; try done. simpl. lia. }
  cbn [store_pixel] in Hs. apply bind_Done_inv in Hs as (st1 & Hb & Hs).
  apply IH in Hs as (Hin & Hlen & Hcp & Hcb).
  unfold store_byte in Hb.
  destruct (_ && _); [|done]. injection Hb as <-.
  cbn [rs_in rs_data currentpixel currentbyte length] in *.
  unfold vec_set in Hlen. rewrite length_insert in Hlen.
  repeat split; try done. lia.
Qed.

Lemma count_pixel_inv pixelcount st st' :
  count_pixel pixelcount st = Done st' ->
  rs_in st' = rs_in st /\ rs_data st' = rs_data st
  /\ currentpixel st' = currentpixel st + 1
  /\ currentbyte st' = currentbyte st
  /\ currentpixel st' <= pixelcount.
Proof.
  unfold count_pixel. cbn [currentpixel].
  destruct (Z.ltb_spec pixelcount (currentpixel st + 1)); [done|].
  intros H'. injection H' as <-. done.
Qed.

Lemma count_pixel_Done pixelcount st :
  currentpixel st + 1 <= pixelcount ->
  count_pixel pixelcount st
  = Done {| rs_in := rs_in st; rs_data := rs_data st;
            currentpixel := currentpixel st + 1;
            currentbyte := currentbyte st |}.
Proof.
  intros Hc. unfold count_pixel. cbn [currentpixel].
  destruct (Z.ltb_spec pixelcount (currentpixel st + 1)); [lia | done].
Qed.

Lemma raw_packet_inv n pixelcount bpp st st' :
  0 <= bpp ->
  raw_packet n pixelcount bpp st = Done st' ->
  length (rs_data st') = length (rs_data st)
  /\ (length (rs_in st') <= length (rs_in st))%nat
  /\ currentpixel st' = currentpixel st + Z.of_nat n
  /\ currentbyte st' = currentbyte st + Z.of_nat n * bpp
  /\ (n <> O -> currentpixel st' <= pixelcount).
Proof.
  intros Hbpp. revert st. induction n as [|n IH]; intros st Hr.
  { injection Hr as <-. repeat split; try done; lia. }
  cbn [raw_packet] in Hr.
  destruct (stream_read bpp (rs_in st)) as [[px rest]|] eqn:Hrd; [|done].
  apply stream_read_inv in Hrd as (_ & Hrest & Hpx & _); [|done].
  apply bind_Done_inv in Hr as (st1 & Hs & Hr).
  apply bind_Done_inv in Hr as (st2 & Hc & Hr).
  apply store_pixel_inv in Hs as (Hin1 & Hlen1 & Hcp1 & Hcb1).
  apply count_pixel_inv in Hc as (Hin2 & Hd2 & Hcp2 & Hcb2 & Hle).
  apply IH in Hr as (Hlen & Hin & Hcp & Hcb & Hbound).
  cbn [rs_in rs_data currentpixel currentbyte] in *.
  rewrite Hd2 in Hlen. rewrite Hin2, Hin1, Hrest, length_drop in Hin.
  repeat split; lia.
Qed.

Lemma run_packet_inv n pixelcount px st st' :
  run_packet n pixelcount px st = Done st' ->
  rs_in st' = rs_in st
  /\ length (rs_data st') = length (rs_data st)
  /\ currentpixel st' = currentpixel st + Z.of_nat n
  /\ currentbyte st' = currentbyte st + Z.of_nat n * Z.of_nat (length px)
  /\ (n <> O -> currentpixel st' <= pixelcount).
Proof.
  revert st. induction n as [|n IH]; intros st Hr.
  { injection Hr as <-. repeat split; try done; lia. }
  cbn [run_packet] in Hr.
  apply bind_Done_inv in Hr as (st1 & Hs & Hr).
  apply bind_Done_inv in Hr as (st2 & Hc & Hr).
  apply store_pixel_inv in Hs as (Hin1 & Hlen1 & Hcp1 & Hcb1).
  apply count_pixel_inv in Hc as (Hin2 & Hd2 & Hcp2 & Hcb2 & Hle).
  apply IH in Hr as (Hin & Hlen & Hcp & Hcb & Hbound).
  rewrite Hd2 in Hlen.
  repeat split; try congruence; lia.
Qed.

Lemma load_rle_packet_inv pixelcount bpp st st' :
  0 <= bpp ->
  load_rle_packet pixelcount bpp st = Done st' ->
  length (rs_data st') = length (rs_data st)
  /\ (length (rs_in st') < length (rs_in st))%nat
  /\ currentpixel st < currentpixel st' <= pixelcount
  /\ currentbyte st' - currentbyte st
     = (currentpixel st' - currentpixel st) * bpp.
Proof.
  intros Hbpp. unfold load_rle_packet, stream_get.
  destruct (rs_in st) as [|hd rest] eqn:Hin; [done|].
  pose proof (Z_of_byte_range hd) as Hhd.
  cbn [rs_in rs_data currentpixel currentbyte length].
  destruct (Z.ltb_spec (Z_of_byte hd) 128).
  - rewrite to_u8_id by lia. intros Hr.
    apply raw_packet_inv in Hr as (Hlen & Hlin & Hcp & Hcb & Hle); [|done].
    cbn [rs_in rs_data currentpixel currentbyte] in *.
    repeat split; try lia; apply Hle; lia.
  - rewrite to_u8_id by lia.
    destruct (stream_read bpp rest) as [[px rest']|] eqn:Hrd; [|done].
    apply stream_read_inv in Hrd as (_ & Hrest & Hpx & _); [|done].
    intros Hr.
    apply run_packet_inv in Hr as (Hlin & Hlen & Hcp & Hcb & Hle).
    cbn [rs_in rs_data currentpixel currentbyte] in *.
    rewrite Hlin, Hrest, length_drop.
    repeat split; try lia; apply Hle; lia.
Qed.

Lemma load_rle_loop_inv fuel pixelcount bpp st st' :
  0 <= bpp ->
  load_rle_loop fuel pixelcount bpp st = Done st' ->
  length (rs_data st') = length (rs_data st)
  /\ currentpixel st' = pixelcount
  /\ currentbyte st' - currentbyte st
     = (currentpixel st' - currentpixel st) * bpp.
Proof.
  intros Hbpp. revert st. induction fuel as [|fuel IH]; intros st Hr; [done|].
  cbn [load_rle_loop] in Hr.
  apply bind_Done_inv in Hr as (st1 & Hp & Hr).
  apply load_rle_packet_inv in Hp as (Hlen1 & _ & Hcp1 & Hcb1); [|done].
  destruct (Z.ltb_spec (currentpixel st1) pixelcount).
  - apply IH in Hr as (Hlen & Hcp & Hcb). repeat split; lia.
  - injection Hr as <-. repeat split; lia.
Qed.

(** The loops of the decoder never run out of the fuel they are given. *)

Lemma store_pixel_fuel px st : store_pixel px st <> NoFuel.
Proof.
  revert st. induction px as [|v px IH]; intros st; [done|].
  cbn [store_pixel]. unfold store_byte. destruct (_ && _); [|done].
  rewrite bind_Done. apply IH.
Qed.

Lemma count_pixel_fuel pixelcount st : count_pixel pixelcount st <> NoFuel.
Proof. unfold count_pixel. by destruct (_ <? _). Qed.

Lemma raw_packet_fuel n pixelcount bpp st :
  raw_packet n pixelcount bpp st <> NoFuel.
Proof.
  revert st. induction n as [|n IH]; intros st; [done|].
  cbn [raw_packet]. destruct (stream_read _ _) as [[px rest]|]; [|done].
  destruct (store_pixel _ _) as [st1| | |] eqn:Hs; try done.
  - rewrite bind_Done.
    destruct (count_pixel _ _) as [st2| | |] eqn:Hc; try done.
    + rewrite bind_Done. apply IH.
    + by apply count_pixel_fuel in Hc.
  - by apply store_pixel_fuel in Hs.
Qed.

Lemma run_packet_fuel n pixelcount px st :
  run_packet n pixelcount px st <> NoFuel.
Proof.
  revert st. induction n as [|n IH]; intros st; [done|].
  cbn [run_packet].
  destruct (store_pixel _ _) as [st1| | |] eqn:Hs; try done.
  - rewrite bind_Done.
    destruct (count_pixel _ _) as [st2| | |] eqn:Hc; try done.
    + rewrite bind_Done. apply IH.
    + by apply count_pixel_fuel in Hc.
  - by apply store_pixel_fuel in Hs.
Qed.

Lemma load_rle_packet_fuel pixelcount bpp st :
  load_rle_packet pixelcount bpp st <> NoFuel.
Proof.
  unfold load_rle_packet. destruct (stream_get _) as [[hd rest]|]; [|done].
  destruct (_ <? _); [apply raw_packet_fuel|].
  destruct (stream_read _ _) as [[px rest']|]; [|done].
  apply run_packet_fuel.
Qed.

Lemma load_rle_loop_fuel fuel pixelcount bpp st :
  0 <= bpp -> (length (rs_in st) < fuel)%nat ->
  load_rle_loop fuel pixelcount bpp st <> NoFuel.
Proof.
  intros Hbpp. revert st. induction fuel as [|fuel IH]; intros st Hf; [lia|].
  cbn [load_rle_loop].
  destruct (load_rle_packet _ _ _) as [st1| | |] eqn:Hp; try done.
  - rewrite bind_Done. destruct (_ <? _); [|done].
    apply IH. apply load_rle_packet_inv in Hp as (_ & Hin & _); [lia|done].
  - by apply load_rle_packet_fuel in Hp.
Qed.

Lemma load_rle_data_fuel s img : 0 <= bpp img -> load_rle_data s img <> NoFuel.
Proof.
  intros Hbpp. unfold load_rle_data.
  destruct (load_rle_loop _ _ _ _) as [st| | |] eqn:Hl; try done.
  apply load_rle_loop_fuel in Hl; [done | done | simpl; lia].
Qed.

Lemma load_rle_data_inv s img rest img' :
  0 <= bpp img ->
  load_rle_data s img = Done (rest, img') ->
  w img' = w img /\ h img' = h img /\ bpp img' = bpp img
  /\ length (data img') = length (data img).
Proof.
  intros Hbpp. unfold load_rle_data. intros Hl.
  apply bind_Done_inv in Hl as (st & Hl & Hd). injection Hd as <- <-.
  apply load_rle_loop_inv in Hl as (Hlen & _); done.
Qed.

(** ** The buffer-length invariant *)

Lemma same_shape_refl img : same_shape img img.
Proof. done. Qed.

Lemma same_shape_trans img1 img2 img3 :
  same_shape img1 img2 -> same_shape img2 img3 -> same_shape img1 img3.
Proof. unfold same_shape. intuition congruence. Qed.

Lemma same_shape_inv img img' :
  same_shape img img' -> buffer_inv img -> buffer_inv img'.
Proof.
  unfold same_shape, buffer_inv. intros (-> & -> & -> & ->). done.
Qed.

Lemma same_shape_set x y c img : same_shape img (set x y c img).
Proof. apply set_dims. Qed.

Lemma same_shape_flip_horizontally img : same_shape img (flip_horizontally img).
Proof.
  unfold same_shape, flip_horizontally. simpl.
  by rewrite length_apply_swaps.
Qed.

Lemma same_shape_flip_vertically img : same_shape img (flip_vertically img).
Proof.
  unfold same_shape, flip_vertically. simpl.
  by rewrite length_apply_swaps.
Qed.

Lemma same_shape_fill_row (l : list Z) j c img :
  same_shape img (fold_left (fun img i => set i j c img) l img).
Proof.
  revert img. induction l as [|i l IH]; intros img; [done|].
  simpl. eapply same_shape_trans; [apply (same_shape_set i j c)|apply IH].
Qed.

Lemma same_shape_fill (rows cols : list Z) c img :
  same_shape img
    (fold_left (fun img j => fold_left (fun img i => set i j c img) cols img)
       rows img).
Proof.
  revert img. induction rows as [|j rows IH]; intros img; [done|].
  simpl. eapply same_shape_trans; [apply (same_shape_fill_row cols j c)|].
  apply IH.
Qed.

Lemma TGAImage_new_inv w0 h0 bpp0 c :
  0 < w0 -> 0 < h0 -> valid_bpp bpp0 -> w0 * h0 * bpp0 <= INT_MAX ->
  buffer_inv (TGAImage_new w0 h0 bpp0 c)
  /\ w (TGAImage_new w0 h0 bpp0 c) = w0
  /\ h (TGAImage_new w0 h0 bpp0 c) = h0
  /\ bpp (TGAImage_new w0 h0 bpp0 c) = bpp0.
Proof.
  intros Hw Hh Hb Hfit. unfold TGAImage_new.
  match goal with |- context [fold_left ?f ?l ?i] =>
    pose proof (same_shape_fill (seqZ 0 h0) (seqZ 0 w0) c i) as Hs;
    set (r := fold_left f l i) in *
  end.
  assert (Hb8 : to_u8 bpp0 = bpp0)
    by (apply to_u8_id; unfold valid_bpp, GRAYSCALE, RGB, RGBA in Hb; lia).
  assert (Hpos : 0 < w0 * h0 * bpp0).
  { unfold valid_bpp, GRAYSCALE, RGB, RGBA in Hb.
    apply Z.mul_pos_pos; [apply Z.mul_pos_pos|]; lia. }
  destruct Hs as (Hw' & Hh' & Hb' & Hlen). cbn [w h bpp data] in *.
  unfold buffer_inv. rewrite Hw', Hh', Hb', Hlen, Hb8, length_replicate.
  rewrite to_int_id, to_size_t_id by (unfold INT_MAX in *; lia).
  repeat split; lia.
Qed.

Lemma read_pixels_inv hd s img img' :
  0 <= bpp img -> read_pixels hd s img = Done img' -> same_shape img img'.
Proof.
  intros Hbpp. unfold read_pixels.
  destruct (_ || _).
  { destruct (stream_read _ _) as [[px rest]|]; [|done].
    intros Hd. injection Hd as <-. unfold same_shape, memcpy. simpl.
    by rewrite length_inserts. }
  destruct (_ || _); [|done].
  destruct (load_rle_data s img) as [[rest img1]| | |] eqn:Hl; try done.
  intros Hd. injection Hd as <-. by apply load_rle_data_inv in Hl.
Qed.

Lemma same_shape_normalize d img1 :
  same_shape img1
    (let img := if Z.land d 0x20 =? 0 then flip_vertically img1 else img1 in
     let img := if negb (Z.land d 0x10 =? 0) then flip_horizontally img
                else img in
     img).
Proof.
  cbv zeta. destruct (Z.land d 32 =? 0), (Z.land d 16 =? 0); cbn [negb];
    eauto using same_shape_refl, same_shape_trans,
      same_shape_flip_vertically, same_shape_flip_horizontally.
Qed.

Lemma read_tga_stream_inv file img :
  read_tga_stream file = Done img ->
  w img * h img * bpp img <= INT_MAX ->
  0 < w img /\ 0 < h img /\ valid_bpp (bpp img) /\ buffer_inv img.
Proof.
  unfold read_tga_stream.
  destruct (stream_read _ _) as [[hbytes s]|]; [|done].
  set (hd := TGAHeader.of_bytes hbytes).
  set (w0 := TGAHeader.width hd). set (h0 := TGAHeader.height hd).
  set (bpp0 := to_u8 (Z.shiftr (TGAHeader.bitsperpixel hd) 3)).
  destruct (Z.leb_spec w0 0); [done|]. destruct (Z.leb_spec h0 0); [done|].
  cbn [orb].
  destruct (Z.eqb_spec bpp0 GRAYSCALE), (Z.eqb_spec bpp0 RGB),
    (Z.eqb_spec bpp0 RGBA); try done; cbn [negb andb];
    (intros Hr Hfit;
     apply bind_Done_inv in Hr as (img1 & Hp & Hr);
     apply read_pixels_inv in Hp; [|cbn [bpp]; unfold GRAYSCALE, RGB, RGBA in *; lia];
     assert (Hs : same_shape img1 img)
       by (injection Hr as <-; apply same_shape_normalize);
     pose proof (same_shape_trans _ _ _ Hp Hs) as (Hw' & Hh' & Hb' & Hlen);
     cbn [w h bpp data] in *;
     unfold buffer_inv, valid_bpp;
     rewrite Hw', Hh', Hb', Hlen, length_replicate in *;
     assert (0 < w0 * h0 * bpp0)
       by (apply Z.mul_pos_pos; [apply Z.mul_pos_pos|];
           unfold GRAYSCALE, RGB, RGBA in *; lia);
     rewrite to_int_id, to_size_t_id by (unfold INT_MAX in *; lia);
     repeat split; try lia; tauto).
Qed.

(** C9 (amended): the buffer-length invariant [length data = w*h*bpp]
    holds after the filling constructor and after every successful read
    whenever [w*h*bpp] fits an [int], and [set], [flip_horizontally] and
    [flip_vertically] preserve it: they change neither the length of the
    buffer nor [w], [h], [bpp].  ([get] is a [const] member: it returns a
    pixel and has no state to change.) *)
Theorem buffer_inv_maintained :
  (forall w0 h0 bpp0 c,
     0 < w0 -> 0 < h0 -> valid_bpp bpp0 -> w0 * h0 * bpp0 <= INT_MAX ->
     buffer_inv (TGAImage_new w0 h0 bpp0 c))
  /\ (forall filename fs img0 img,
        read_tga_file filename fs img0 = Done img ->
        w img * h img * bpp img <= INT_MAX ->
        buffer_inv img)
  /\ (forall img,
        buffer_inv img ->
        (forall x y c,
           same_shape img (set x y c img) /\ buffer_inv (set x y c img))
        /\ same_shape img (flip_horizontally img)
        /\ buffer_inv (flip_horizontally img)
        /\ same_shape img (flip_vertically img)
        /\ buffer_inv (flip_vertically img)).
Proof.
  split; [|split].
  - intros w0 h0 bpp0 c Hw Hh Hb Hfit. by apply TGAImage_new_inv.
  - intros filename fs img0 img. unfold read_tga_file.
    destruct (fs !! filename) as [file|]; [|done].
    intros Hr Hfit.
    by destruct (read_tga_stream_inv _ _ Hr Hfit) as (_ & _ & _ & ?).
  - intros img Hinv.
    split; [intros x y c; split|split; [|split; [|split]]];
      eauto using same_shape_inv, same_shape_set,
        same_shape_flip_horizontally, same_shape_flip_vertically.
Qed.

Lemma buffer_inv_maintained_witness :
  buffer_inv (TGAImage_new 2 2 3 ex_color)
  /\ (forall img, read_tga_file "a.tga" {["a.tga" := ex_file_raw]} TGAImage_empty
                  = Done img ->
                  w img * h img * bpp img <= INT_MAX -> buffer_inv img)
  /\ read_tga_file "a.tga" {["a.tga" := ex_file_raw]} TGAImage_empty
     = Done (flip_vertically ex_gray_2x3)
  /\ buffer_inv (flip_vertically ex_gray_2x3)
  /\ buffer_inv (set 0 1 ex_color ex_gray_2x3)
  /\ buffer_inv (flip_horizontally ex_gray_2x3).
Proof.
  destruct buffer_inv_maintained as (Hnew & Hread & Hops).
  assert (Hr : read_tga_file "a.tga" {["a.tga" := ex_file_raw]} TGAImage_empty
               = Done (flip_vertically ex_gray_2x3)) by (vm_compute; reflexivity).
  split; [|split; [|split; [|split; [|split]]]].
  - apply Hnew; [reflexivity | reflexivity | right; left; reflexivity
                | vm_compute; discriminate].
  - apply Hread.
  - exact Hr.
  - apply (Hread _ _ _ _ Hr). vm_compute. discriminate.
  - apply (Hops ex_gray_2x3); reflexivity.
  - apply (Hops ex_gray_2x3); reflexivity.
Defined.

(** C9 as stated does not hold of every successful read, nor of every
    construction: for 32768x32768 pixels of 4 bytes [w*h*bpp] is [2^32], the
    [int] product that sizes the buffer is 0, and the image is left with
    [w = h = 32768], [bpp = 4] and an empty buffer. *)
Lemma buffer_inv_maintained_counterexample :
  read_tga_file "a.tga" {["a.tga" := ex_header_big]} TGAImage_empty
  = Done {| w := 32768; h := 32768; bpp := 4; data := [] |}
  /\ ~ buffer_inv {| w := 32768; h := 32768; bpp := 4; data := [] |}
  /\ ~ buffer_inv (TGAImage_new 32768 32768 4 ex_color).
Proof.
  split; [vm_compute; reflexivity|]. split; [vm_compute; discriminate|].
  unfold TGAImage_new, buffer_inv.
  match goal with |- context [fold_left ?f ?l ?i] =>
    pose proof (same_shape_fill (seqZ 0 32768) (seqZ 0 32768) ex_color i)
      as (Hw & Hh & Hb & Hlen);
    set (r := fold_left f l i) in *
  end.
  rewrite Hw, Hh, Hb, Hlen. vm_compute. discriminate.
Qed.

(** ** The RLE encoder *)

Lemma scan_run_bounds fuel img npixels curpix curbyte r raw :
  1 <= r <= 128 -> curpix + r <= npixels -> 128 - r < Z.of_nat fuel ->
  (raw = false -> 2 <= r) ->
  exists raw' n,
    scan_run fuel img npixels curpix curbyte r raw = Done (raw', n)
    /\ 1 <= n <= 128 /\ curpix + n <= npixels /\ (raw' = false -> 2 <= n).
Proof.
  revert curbyte r raw.
  induction fuel as [|fuel IH]; intros curbyte r raw Hr Hn Hf Hraw; [lia|].
  cbn [scan_run]. unfold max_chunk_length.
  destruct (Z.ltb_spec (curpix + r) npixels); cbn [andb];
    [destruct (Z.ltb_spec r 128); cbn [andb]|]; eauto 10.
  destruct (Z.eqb_spec r 1) as [->|Hr1].
  - destruct (succ_eq img curbyte); cbn [negb andb].
    + apply IH; rewrite to_u8_id; lia.
    + apply IH; rewrite to_u8_id; (lia || done).
  - destruct (succ_eq img curbyte), raw; cbn [negb andb].
    + rewrite to_u8_id by lia. exists true, (r - 1). repeat split; (lia || done).
    + apply IH; rewrite to_u8_id; lia.
    + apply IH; rewrite to_u8_id; (lia || done).
    + exists false, r. repeat split; lia.
Qed.

Lemma unload_rle_loop_bounds fuel img npixels curpix :
  curpix <= npixels -> npixels - curpix < Z.of_nat fuel ->
  exists cs,
    unload_rle_loop fuel img npixels curpix = Done cs /\ Forall chunk_ok cs
    /\ Forall (fun c => ch_len c = 1 -> ch_raw c = true) cs.
Proof.
  revert curpix. induction fuel as [|fuel IH]; intros curpix Hc Hf; [lia|].
  cbn [unload_rle_loop].
  destruct (Z.ltb_spec curpix npixels); [|by exists []].
  destruct (scan_run_bounds (Z.to_nat max_chunk_length) img npixels curpix
              (to_size_t (curpix * bpp img)) 1 true)
    as (raw & n & -> & Hn & Hle & Hraw); [lia | lia | vm_compute; done | done |].
  rewrite bind_Done. cbv beta iota.
  destruct (IH (curpix + n)) as (cs & -> & Hcs & Hone); [lia|lia|].
  rewrite bind_Done. eexists. split; [done|]. split.
  - constructor; [|done]. unfold chunk_ok, chunk_header. cbn [ch_raw ch_len].
    destruct raw; rewrite Z_of_byte_of_Z, to_u8_id; lia.
  - constructor; [|done]. cbn [ch_raw ch_len]. intros ->.
    destruct raw; [done|]. lia.
Qed.

Lemma unload_rle_chunks_Done img :
  exists cs,
    unload_rle_chunks img = Done cs
    /\ Forall chunk_ok cs
    /\ Forall (fun c => ch_len c = 1 -> ch_raw c = true) cs.
Proof.
  unfold unload_rle_chunks.
  apply unload_rle_loop_bounds; [|lia].
  unfold to_size_t. apply Z.mod_pos_bound. lia.
Qed.

(** C10: the encoder returns for every image, and each packet it emits is
    well formed: a repeated packet replicates at least 2 (and at most 128)
    pixels, so that its header byte lies in [129,255] and is never 128; a
    raw packet covers between 1 and 128 pixels, with a header byte in
    [0,127]; a run of length 1 is always emitted as a raw packet. *)
Theorem unload_rle_packets_well_formed img :
  exists cs,
    unload_rle_chunks img = Done cs
    /\ unload_rle_data img = Done (concat (chunk_bytes img <$> cs))
    /\ Forall chunk_ok cs
    /\ Forall (fun c => ch_len c = 1 -> ch_raw c = true) cs.
Proof.
  destruct (unload_rle_chunks_Done img) as (cs & Hcs & Hok & Hone).
  exists cs. unfold unload_rle_data. rewrite Hcs. done.
Qed.

(** ** Packets that decode *)

Lemma list_inserts_splice {A} (i : nat) (k l : list A) :
  (i + length k <= length l)%nat ->
  list_inserts i k l = take i l ++ k ++ drop (i + length k) l.
Proof.
  intros Hl.
  rewrite <-(take_drop i l) at 1.
  rewrite <-(take_drop (length k) (drop i l)) at 1.
  replace i with (length (take i l) + 0)%nat at 1
    by (rewrite length_take; lia).
  rewrite list_inserts_app_r, list_inserts_0_r
    by (rewrite length_take, length_drop; lia).
  by rewrite drop_drop.
Qed.

Lemma raw_packet_Done n pixelcount bpp st :
  0 < bpp -> 0 <= currentbyte st ->
  Z.of_nat n * bpp <= Z.of_nat (length (rs_in st)) ->
  currentbyte st + Z.of_nat n * bpp <= Z.of_nat (length (rs_data st)) ->
  currentpixel st + Z.of_nat n <= pixelcount ->
  raw_packet n pixelcount bpp st
  = Done {| rs_in := drop (Z.to_nat (Z.of_nat n * bpp)) (rs_in st);
            rs_data := list_inserts (Z.to_nat (currentbyte st))
                         (take (Z.to_nat (Z.of_nat n * bpp)) (rs_in st))
                         (rs_data st);
            currentpixel := currentpixel st + Z.of_nat n;
            currentbyte := currentbyte st + Z.of_nat n * bpp |}.
Proof.
  intros Hbpp. revert st.
  induction n as [|n IH]; intros st Hcb Hin Hdata Hcp.
  { destruct st. cbn. by rewrite drop_0, !Z.add_0_r. }
  cbn [raw_packet].
  rewrite stream_read_Some by lia.
  rewrite store_pixel_Done; cbn [rs_in rs_data currentpixel currentbyte];
    rewrite ?length_take; try lia.
  rewrite bind_Done, count_pixel_Done by (cbn; lia).
  rewrite bind_Done, IH; cbn [rs_in rs_data currentpixel currentbyte];
    rewrite ?length_drop, ?length_inserts; try lia.
  f_equal. f_equal; try lia.
  - rewrite drop_drop. f_equal. lia.
  - replace (Z.to_nat (Z.of_nat (S n) * bpp))
      with (Z.to_nat bpp + Z.to_nat (Z.of_nat n * bpp))%nat by lia.
    rewrite <-take_take_drop, list_inserts_app_l.
    f_equal. rewrite length_take. lia.
Qed.

Lemma run_packet_Done n pixelcount px st :
  0 <= currentbyte st ->
  currentbyte st + Z.of_nat n * Z.of_nat (length px)
    <= Z.of_nat (length (rs_data st)) ->
  currentpixel st + Z.of_nat n <= pixelcount ->
  run_packet n pixelcount px st
  = Done {| rs_in := rs_in st;
            rs_data := list_inserts (Z.to_nat (currentbyte st))
                         (concat (replicate n px)) (rs_data st);
            currentpixel := currentpixel st + Z.of_nat n;
            currentbyte := currentbyte st + Z.of_nat n * Z.of_nat (length px) |}.
Proof.
  revert st. induction n as [|n IH]; intros st Hcb Hdata Hcp.
  { destruct st. cbn. by rewrite !Z.add_0_r. }
  cbn [run_packet].
  rewrite store_pixel_Done by lia.
  rewrite bind_Done, count_pixel_Done by (cbn; lia).
  rewrite bind_Done, IH; cbn [rs_in rs_data currentpixel currentbyte];
    rewrite ?length_inserts; try lia.
  f_equal. f_equal; try lia.
  cbn [replicate concat]. rewrite list_inserts_app_l. f_equal. lia.
Qed.

(** ** Packets cut short *)

Lemma raw_packet_truncated n pixelcount bpp st :
  0 < bpp ->
  Z.of_nat (length (rs_data st)) = pixelcount * bpp ->
  currentbyte st = currentpixel st * bpp -> 0 <= currentpixel st ->
  Z.of_nat (length (rs_in st)) < Z.of_nat n * bpp ->
  Z.of_nat (length (rs_in st)) < (pixelcount - currentpixel st) * bpp ->
  raw_packet n pixelcount bpp st = Failed [error_reading_header].
Proof.
  intros Hbpp. revert st.
  induction n as [|n IH]; intros st Hdata Hcb Hcp Hin Hroom; [lia|].
  cbn [raw_packet].
  destruct (Z.ltb_spec (Z.of_nat (length (rs_in st))) bpp) as [Hshort|Hlong].
  { by rewrite stream_read_None. }
  assert (currentpixel st + 2 <= pixelcount) by nia.
  rewrite stream_read_Some by lia.
  rewrite store_pixel_Done; cbn [rs_in rs_data currentpixel currentbyte];
    rewrite ?length_take; try nia.
  rewrite bind_Done, count_pixel_Done by (cbn; lia).
  rewrite bind_Done. apply IH; cbn [rs_in rs_data currentpixel currentbyte];
    rewrite ?length_inserts, ?length_drop; nia.
Qed.

Lemma packets_pixels_nonneg fuel bpp s : 0 < bpp -> 0 <= packets_pixels fuel bpp s.
Proof.
  intros Hbpp. revert s. induction fuel as [|fuel IH]; intros s; [done|].
  destruct s as [|hd rest]; [done|]. cbn [packets_pixels].
  pose proof (Z_of_byte_range hd).
  assert (0 <= Z.of_nat (length rest) / bpp) by (apply Z.div_pos; lia).
  repeat case_match; try lia.
  - specialize (IH (drop (Z.to_nat ((Z_of_byte hd + 1) * bpp)) rest)). lia.
  - specialize (IH (drop (Z.to_nat bpp) rest)). lia.
Qed.

Lemma div_lt_inv a b q : 0 < b -> a / b < q -> a < q * b.
Proof.
  intros Hb Hq. destruct (Z.lt_ge_cases a (q * b)) as [|Hge]; [done|].
  rewrite Z.mul_comm in Hge. apply Z.div_le_lower_bound in Hge; lia.
Qed.

Lemma div_ge_inv a b q : 0 < b -> q <= a / b -> q * b <= a.
Proof.
  intros Hb Hq. pose proof (Z.mul_div_le a b Hb). nia.
Qed.

Lemma load_rle_loop_truncated fuel fp pixelcount bpp st :
  0 < bpp ->
  Z.of_nat (length (rs_data st)) = pixelcount * bpp ->
  currentbyte st = currentpixel st * bpp -> 0 <= currentpixel st ->
  (length (rs_in st) < fuel)%nat -> (length (rs_in st) <= fp)%nat ->
  currentpixel st + packets_pixels fp bpp (rs_in st) < pixelcount ->
  load_rle_loop fuel pixelcount bpp st = Failed [error_reading_data]
  \/ load_rle_loop fuel pixelcount bpp st = Failed [error_reading_header].
Proof.
  intros Hbpp. revert fp st.
  induction fuel as [|fuel IH]; intros fp st Hdata Hcb Hcp Hfuel Hfp Hpix; [lia|].
  cbn [load_rle_loop]. unfold load_rle_packet, stream_get.
  destruct (rs_in st) as [|hd rest] eqn:Hin; [by left|].
  destruct fp as [|fp]; [cbn in Hfp; lia|].
  cbn [packets_pixels length] in *.
  pose proof (Z_of_byte_range hd) as Hhd.
  cbn [rs_in rs_data currentpixel currentbyte].
  destruct (Z.ltb_spec (Z_of_byte hd) 128).
  - rewrite to_u8_id by lia.
    destruct (Z.ltb_spec (Z.of_nat (length rest) / bpp) (Z_of_byte hd + 1))
      as [Hcut|Hfull].
    + right. rewrite raw_packet_truncated; try done;
        cbn [rs_in rs_data currentpixel currentbyte].
      * rewrite Z2Nat.id by lia. by apply div_lt_inv.
      * apply div_lt_inv; [done|]. lia.
    + apply div_ge_inv in Hfull; [|done].
      pose proof (packets_pixels_nonneg fp bpp
                    (drop (Z.to_nat ((Z_of_byte hd + 1) * bpp)) rest) Hbpp).
      rewrite raw_packet_Done; cbn [rs_in rs_data currentpixel currentbyte];
        rewrite ?Z2Nat.id by lia; try nia.
      rewrite bind_Done. cbn [currentpixel].
      destruct (Z.ltb_spec (currentpixel st + (Z_of_byte hd + 1)) pixelcount);
        [|lia].
      apply (IH fp); cbn [rs_in rs_data currentpixel currentbyte];
        rewrite ?length_inserts, ?length_drop; try lia; try nia.
  - rewrite to_u8_id by lia.
    destruct (Z.ltb_spec (Z.of_nat (length rest) / bpp) 1) as [Hcut|Hfull].
    + right. rewrite stream_read_None; [done|].
      apply div_lt_inv in Hcut; lia.
    + apply div_ge_inv in Hfull; [|done].
      pose proof (packets_pixels_nonneg fp bpp (drop (Z.to_nat bpp) rest) Hbpp).
      rewrite stream_read_Some by lia.
      rewrite run_packet_Done; cbn [rs_in rs_data currentpixel currentbyte];
        rewrite ?length_take, ?Z2Nat.id by lia; try nia.
      rewrite bind_Done. cbn [currentpixel].
      destruct (Z.ltb_spec (currentpixel st + (Z_of_byte hd - 127)) pixelcount);
        [|lia].
      apply (IH fp); cbn [rs_in rs_data currentpixel currentbyte];
        rewrite ?length_inserts, ?length_drop, ?length_take; try lia; try nia.
Qed.

Lemma valid_image_facts img :
  valid_image img ->
  0 < bpp img <= 4 /\ 0 < w img * h img
  /\ to_size_t (to_int (w img * h img)) = w img * h img
  /\ to_size_t (to_int (w img * h img * bpp img)) = w img * h img * bpp img
  /\ to_int (w img * h img * bpp img) = w img * h img * bpp img
  /\ Z.of_nat (length (data img)) = w img * h img * bpp img.
Proof.
  intros (Hw & Hh & Hb & Hinv & Hfit).
  assert (0 < bpp img <= 4) by (unfold valid_bpp, GRAYSCALE, RGB, RGBA in Hb; lia).
  assert (0 < w img * h img) by (apply Z.mul_pos_pos; lia).
  assert (w img * h img <= w img * h img * bpp img) by nia.
  unfold INT_MAX in *.
  rewrite !to_int_id, !to_size_t_id by (unfold INT_MAX; lia). done.
Qed.

Lemma load_rle_data_truncated s img :
  valid_image img ->
  stream_pixels (bpp img) s < w img * h img ->
  load_rle_data s img = Failed [error_reading_data]
  \/ load_rle_data s img = Failed [error_reading_header].
Proof.
  intros Hv Hpix.
  destruct (valid_image_facts img Hv) as (Hb & Hwh & Hpc & _ & _ & Hlen).
  unfold load_rle_data. rewrite Hpc.
  destruct (load_rle_loop_truncated (S (length s)) (length s) (w img * h img)
              (bpp img)
              {| rs_in := s; rs_data := data img;
                 currentpixel := 0; currentbyte := 0 |}) as [-> | ->];
    cbn [rs_in rs_data currentpixel currentbyte]; auto; lia.
Qed.

(** ** What a successful decode leaves in the buffer *)

Lemma take_inserts_end {A} (cb : nat) (k l : list A) :
  (cb + length k <= length l)%nat ->
  take (cb + length k) (list_inserts cb k l) = take cb l ++ k.
Proof.
  intros Hl. rewrite list_inserts_splice by done.
  rewrite app_assoc.
  replace (cb + length k)%nat with (length (take cb l ++ k))
    by (rewrite length_app, length_take; lia).
  apply take_app_length.
Qed.

Lemma length_concat_replicate_Z {A} (n : nat) (p : list A) :
  Z.of_nat (length (concat (replicate n p)))
  = Z.of_nat n * Z.of_nat (length p).
Proof.
  induction n as [|n IH]; [done|].
  cbn [replicate concat]. rewrite length_app. lia.
Qed.

(** A packet that completes has stored, from [currentbyte] on, the bytes
    the format describes for it. *)
Lemma load_rle_packet_bytes fp pixelcount bpp st st1 :
  0 < bpp ->
  Z.of_nat (length (rs_data st)) = pixelcount * bpp ->
  currentbyte st = currentpixel st * bpp -> 0 <= currentpixel st ->
  load_rle_packet pixelcount bpp st = Done st1 ->
  exists B,
    packets_bytes (S fp) bpp (rs_in st)
    = B ++ packets_bytes fp bpp (rs_in st1)
    /\ take (Z.to_nat (currentbyte st1)) (rs_data st1)
       = take (Z.to_nat (currentbyte st)) (rs_data st) ++ B.
Proof.
  intros Hbpp Hdata Hcb Hcp Hp.
  assert (Hcb0 : 0 <= currentbyte st) by nia.
  pose proof (load_rle_packet_inv _ _ _ _ (Z.lt_le_incl _ _ Hbpp) Hp)
    as (Hlen1 & _ & Hcp1 & Hcb1).
  revert Hp. unfold load_rle_packet, stream_get.
  destruct (rs_in st) as [|hd rest] eqn:Hin; [done|].
  pose proof (Z_of_byte_range hd) as Hhd.
  cbn [packets_bytes rs_in rs_data currentpixel currentbyte].
  destruct (Z.ltb_spec (Z_of_byte hd) 128).
  - rewrite to_u8_id by lia. intros Hr.
    set (st0 := {| rs_in := rest; rs_data := rs_data st;
                   currentpixel := currentpixel st;
                   currentbyte := currentbyte st |}) in *.
    pose proof (raw_packet_inv _ _ _ _ _ (Z.lt_le_incl _ _ Hbpp) Hr)
      as (_ & _ & Hn & _ & _).
    cbn [currentpixel st0] in Hn. rewrite Z2Nat.id in Hn by lia.
    assert (Hfull : (Z_of_byte hd + 1) * bpp <= Z.of_nat (length rest)).
    { destruct (Z.le_gt_cases ((Z_of_byte hd + 1) * bpp)
                  (Z.of_nat (length rest))) as [|Hshort]; [done|].
      rewrite raw_packet_truncated in Hr; [done|done| | | | |];
        subst st0; cbn [rs_in rs_data currentpixel currentbyte];
        rewrite ?Z2Nat.id by lia; try lia; nia. }
    assert (Hroom : currentbyte st + (Z_of_byte hd + 1) * bpp
                    <= Z.of_nat (length (rs_data st))) by nia.
    rewrite raw_packet_Done in Hr;
      subst st0; cbn [rs_in rs_data currentpixel currentbyte];
      rewrite ?Z2Nat.id by lia; try lia; try nia.
    rewrite !Z2Nat.id in Hr by lia. clear Hlen1 Hcp1 Hcb1 Hn.
    injection Hr as <-. cbn [rs_in rs_data currentpixel currentbyte].
    destruct (Z.ltb_spec (Z.of_nat (length rest) / bpp) (Z_of_byte hd + 1))
      as [Hcut|_].
    { apply div_lt_inv in Hcut; [lia|done]. }
    eexists. split; [done|].
    set (B := take (Z.to_nat ((Z_of_byte hd + 1) * bpp)) rest).
    assert (HB : length B = Z.to_nat ((Z_of_byte hd + 1) * bpp))
      by (unfold B; rewrite length_take; lia).
    assert (0 <= (Z_of_byte hd + 1) * bpp) by nia.
    rewrite Z2Nat.inj_add, <- HB by lia.
    apply take_inserts_end. lia.
  - rewrite to_u8_id by lia.
    destruct (stream_read bpp rest) as [[px rest']|] eqn:Hrd; [|done].
    apply stream_read_inv in Hrd as (-> & -> & Hpx & Hle); [|lia].
    intros Hr.
    pose proof (run_packet_inv _ _ _ _ _ Hr) as (_ & _ & Hn & _ & _).
    cbn [currentpixel] in Hn. rewrite Z2Nat.id in Hn by lia.
    assert (Hroom : currentbyte st + (Z_of_byte hd - 127) * bpp
                    <= Z.of_nat (length (rs_data st))) by nia.
    rewrite run_packet_Done in Hr;
      cbn [rs_in rs_data currentpixel currentbyte];
      rewrite ?Z2Nat.id by lia; try lia; try nia.
    rewrite !Z2Nat.id in Hr by lia. clear Hlen1 Hcp1 Hcb1 Hn.
    injection Hr as <-. cbn [rs_in rs_data currentpixel currentbyte].
    destruct (Z.ltb_spec (Z.of_nat (length rest) / bpp) 1) as [Hcut|_].
    { apply div_lt_inv in Hcut; [lia|done]. }
    eexists. split; [done|].
    set (B := concat (replicate (Z.to_nat (Z_of_byte hd - 127))
                        (take (Z.to_nat bpp) rest))).
    assert (HB : Z.of_nat (length B) = (Z_of_byte hd - 127) * bpp).
    { unfold B. rewrite length_concat_replicate_Z. lia. }
    assert (0 <= (Z_of_byte hd - 127) * bpp) by nia.
    rewrite Hpx, <- HB, Z2Nat.inj_add, Nat2Z.id by lia.
    apply take_inserts_end. lia.
Qed.

Lemma load_rle_loop_bytes fuel fp pixelcount bpp st st' :
  0 < bpp ->
  Z.of_nat (length (rs_data st)) = pixelcount * bpp ->
  currentbyte st = currentpixel st * bpp -> 0 <= currentpixel st ->
  (length (rs_in st) <= fp)%nat ->
  load_rle_loop fuel pixelcount bpp st = Done st' ->
  rs_data st'
  = take (Z.to_nat (pixelcount * bpp))
      (take (Z.to_nat (currentbyte st)) (rs_data st)
       ++ packets_bytes fp bpp (rs_in st)).
Proof.
  intros Hbpp. revert fp st.
  induction fuel as [|fuel IH]; intros fp st Hdata Hcb Hcp Hfp Hl; [done|].
  cbn [load_rle_loop] in Hl.
  apply bind_Done_inv in Hl as (st1 & Hp & Hl).
  pose proof (load_rle_packet_inv _ _ _ _ (Z.lt_le_incl _ _ Hbpp) Hp)
    as (Hlen1 & Hin1 & Hcp1 & Hcb1).
  destruct fp as [|fp]; [lia|].
  destruct (load_rle_packet_bytes fp _ _ _ _ Hbpp Hdata Hcb Hcp Hp)
    as (B & -> & Htk).
  rewrite app_assoc, <- Htk.
  destruct (Z.ltb_spec (currentpixel st1) pixelcount).
  - apply (IH fp) in Hl; [done| | | |]; lia.
  - injection Hl as <-.
    assert (Z.to_nat (currentbyte st1) = length (rs_data st1)) as Hfull by nia.
    rewrite Hfull, firstn_all.
    replace (Z.to_nat (pixelcount * bpp)) with (length (rs_data st1)) by lia.
    by rewrite take_app_length.
Qed.

Lemma load_rle_data_bytes s img rest img' :
  valid_image img ->
  load_rle_data s img = Done (rest, img') ->
  data img'
  = take (Z.to_nat (w img * h img * bpp img)) (stream_bytes (bpp img) s).
Proof.
  intros Hv Hl.
  destruct (valid_image_facts img Hv) as (Hb & Hwh & Hpc & _ & _ & Hlen).
  unfold load_rle_data in Hl. rewrite Hpc in Hl.
  apply bind_Done_inv in Hl as (st & Hl & Hd). injection Hd as <- <-.
  apply (load_rle_loop_bytes _ (length s)) in Hl;
    cbn [rs_in rs_data currentpixel currentbyte] in *; try lia.
  by rewrite Hl.
Qed.

(** C5 (amended): for every RLE-typed input whose declared size [w*h*bpp]
    fits an [int] and whose pixel-data stream ends before the cumulative
    decoded pixel count reaches [w*h] (in the middle of a packet, in the
    middle of a pixel, or before a packet header), decoding fails with a
    read error, in [load_rle_data] and in [read_tga_file] alike; and the
    decoder only ever succeeds with exactly [w*h] pixels decoded into the
    [w*h*bpp] bytes of the buffer, which then holds the first [w*h] pixels
    the packets of the stream describe. *)
Theorem rle_truncated_stream_rejected :
  (forall s img,
     valid_image img ->
     stream_pixels (bpp img) s < w img * h img ->
     load_rle_data s img = Failed [error_reading_data]
     \/ load_rle_data s img = Failed [error_reading_header])
  /\ (forall hbytes s,
        let hd := TGAHeader.of_bytes hbytes in
        let bpp0 := to_u8 (Z.shiftr (TGAHeader.bitsperpixel hd) 3) in
        length hbytes = 18%nat ->
        TGAHeader.datatypecode hd = 10 \/ TGAHeader.datatypecode hd = 11 ->
        0 < TGAHeader.width hd -> 0 < TGAHeader.height hd -> valid_bpp bpp0 ->
        TGAHeader.width hd * TGAHeader.height hd * bpp0 <= INT_MAX ->
        stream_pixels bpp0 s < TGAHeader.width hd * TGAHeader.height hd ->
        read_tga_stream (hbytes ++ s)
        = Failed [error_reading_data; error_reading_data]
        \/ read_tga_stream (hbytes ++ s)
           = Failed [error_reading_header; error_reading_data])
  /\ (forall s img st',
        valid_image img ->
        load_rle_loop (S (length s)) (w img * h img) (bpp img)
          (rle_init s (data img)) = Done st' ->
        currentpixel st' = w img * h img
        /\ currentbyte st' = w img * h img * bpp img
        /\ Z.of_nat (length (rs_data st')) = w img * h img * bpp img
        /\ w img * h img <= stream_pixels (bpp img) s
        /\ rs_data st'
           = take (Z.to_nat (w img * h img * bpp img))
               (stream_bytes (bpp img) s))
  /\ (forall s img rest img',
        valid_image img ->
        load_rle_data s img = Done (rest, img') ->
        same_shape img img'
        /\ w img * h img <= stream_pixels (bpp img) s
        /\ data img'
           = take (Z.to_nat (w img * h img * bpp img))
               (stream_bytes (bpp img) s)).
Proof.
  split; [exact load_rle_data_truncated|split; [|split]].
  - intros hbytes s hd bpp0 Hlen Hcode Hw Hh Hb Hfit Hpix.
    unfold read_tga_stream.
    rewrite stream_read_app by (unfold TGAHeader.sizeof; lia).
    fold hd. fold bpp0.
    destruct (Z.leb_spec (TGAHeader.width hd) 0); [lia|].
    destruct (Z.leb_spec (TGAHeader.height hd) 0); [lia|].
    assert (Hb' : 0 < bpp0 <= 4)
      by (unfold valid_bpp, GRAYSCALE, RGB, RGBA in Hb; lia).
    replace (negb (bpp0 =? GRAYSCALE) && negb (bpp0 =? RGB)
             && negb (bpp0 =? RGBA)) with false
      by (unfold valid_bpp in Hb; destruct Hb as [-> | [-> | ->]]; done).
    cbn [orb].
    assert (Hpos : 0 < TGAHeader.width hd * TGAHeader.height hd * bpp0)
      by (apply Z.mul_pos_pos; [apply Z.mul_pos_pos|]; lia).
    rewrite to_int_id, to_size_t_id by (unfold INT_MAX in *; lia).
    set (img := {| w := _; h := _; bpp := _; data := _ |}).
    assert (Hv : valid_image img).
    { unfold valid_image, buffer_inv. subst img. cbn [w h bpp data].
      rewrite length_replicate. repeat split; try done; lia. }
    unfold read_pixels.
    replace ((TGAHeader.datatypecode hd =? 3) || (TGAHeader.datatypecode hd =? 2))
      with false by (destruct Hcode as [-> | ->]; done).
    replace ((TGAHeader.datatypecode hd =? 10) || (TGAHeader.datatypecode hd =? 11))
      with true by (destruct Hcode as [-> | ->]; done).
    destruct (load_rle_data_truncated s img Hv Hpix) as [-> | ->]; auto.
  - intros s img st' Hv Hl.
    destruct (valid_image_facts img Hv) as (Hb & Hwh & Hpc & _ & _ & Hlen).
    pose proof Hl as Hl'.
    apply load_rle_loop_inv in Hl' as (Hlen' & Hcp & Hcb); [|lia].
    cbn [rle_init rs_in rs_data currentpixel currentbyte] in *.
    split; [lia|]. split; [lia|]. split; [lia|]. split.
    + destruct (Z.le_gt_cases (w img * h img) (stream_pixels (bpp img) s))
        as [|Hlt]; [done|].
      destruct (load_rle_loop_truncated (S (length s)) (length s)
                  (w img * h img) (bpp img) (rle_init s (data img)))
        as [Hf | Hf];
        cbn [rle_init rs_in rs_data currentpixel currentbyte]; try lia;
        try (unfold stream_pixels in Hlt; lia);
        rewrite Hl in Hf; discriminate.
    + apply (load_rle_loop_bytes _ (length s)) in Hl;
        cbn [rle_init rs_in rs_data currentpixel currentbyte] in *; try lia.
      by rewrite Hl.
  - intros s img rest img' Hv Hl.
    destruct (valid_image_facts img Hv) as (Hb & _).
    split; [by apply load_rle_data_inv in Hl; [|lia]|]. split.
    + destruct (Z.le_gt_cases (w img * h img) (stream_pixels (bpp img) s))
        as [|Hlt]; [done|].
      destruct (load_rle_data_truncated s img Hv Hlt) as [Hf | Hf];
        rewrite Hl in Hf; discriminate.
    + by apply (load_rle_data_bytes s img rest).
Qed.

Lemma rle_truncated_stream_rejected_witness :
  (load_rle_data [x01; x0a] ex_gray_2x1_blank = Failed [error_reading_data]
   \/ load_rle_data [x01; x0a] ex_gray_2x1_blank = Failed [error_reading_header])
  /\ (read_tga_stream (ex_header_rle_2x1 ++ [x01; x0a])
      = Failed [error_reading_data; error_reading_data]
      \/ read_tga_stream (ex_header_rle_2x1 ++ [x01; x0a])
         = Failed [error_reading_header; error_reading_data])
  /\ [x0a; x0b] = take 2 (stream_bytes 1 [x01; x0a; x0b; x07]).
Proof.
  destruct rle_truncated_stream_rejected as (Hload & Hread & _ & Hdone).
  assert (Hv : valid_image ex_gray_2x1_blank).
  { repeat split; try reflexivity;
      [left; reflexivity | vm_compute; discriminate]. }
  split; [|split].
  - apply Hload; [exact Hv | reflexivity].
  - apply Hread; try reflexivity.
    + right. reflexivity.
    + left. reflexivity.
    + vm_compute. discriminate.
  - apply (Hdone [x01; x0a; x0b; x07] ex_gray_2x1_blank [x07]
             {| w := 2; h := 1; bpp := 1; data := [x0a; x0b] |});
      [exact Hv | reflexivity].
Defined.

(** C5 as stated does not hold of every RLE input.  A header that declares
    32768x32768 pixels of 32 bits passes the test on [w], [h] and [bpp];
    [w*h*bpp] is [2^32], the [int] product is 0 and the buffer gets no byte.
    The stream below ends after one pixel of the [2^30] declared: instead of
    failing with a read error, the decoder stores that pixel at index 0 of
    the empty buffer. *)
Lemma rle_truncated_stream_rejected_counterexample :
  TGAHeader.datatypecode (TGAHeader.of_bytes ex_header_big_rle) = 10
  /\ TGAHeader.width (TGAHeader.of_bytes ex_header_big_rle) = 32768
  /\ TGAHeader.height (TGAHeader.of_bytes ex_header_big_rle) = 32768
  /\ TGAHeader.bitsperpixel (TGAHeader.of_bytes ex_header_big_rle) = 32
  /\ stream_pixels 4 [x00; x0a; x0b; x0c; x0d] = 1
  /\ read_tga_stream (ex_header_big_rle ++ [x00; x0a; x0b; x0c; x0d])
     = Undefined 0
  /\ ~ (exists msgs,
          read_tga_stream (ex_header_big_rle ++ [x00; x0a; x0b; x0c; x0d])
          = Failed msgs).
Proof.
  repeat split; try (vm_compute; reflexivity).
  intros [msgs Hf]. vm_compute in Hf. discriminate.
Qed.

(** ** Packets that overrun the declared pixel count *)

Lemma store_pixel_bound px st st' :
  store_pixel px st = Done st' -> px <> [] ->
  currentbyte st' <= Z.of_nat (length (rs_data st)).
Proof.
  revert st. induction px as [|v px IH]; intros st Hs Hne; [done|].
  cbn [store_pixel] in Hs. apply bind_Done_inv in Hs as (st1 & Hb & Hs).
  unfold store_byte in Hb.
  destruct (Z.leb_spec 0 (currentbyte st)); [|done].
  destruct (Z.ltb_spec (currentbyte st) (Z.of_nat (length (rs_data st))));
    [|done].
  injection Hb as <-.
  destruct px as [|v' px].
  - injection Hs as <-. cbn. lia.
  - apply IH in Hs; [|done]. cbn [rs_data] in Hs. unfold vec_set in Hs.
    by rewrite length_insert in Hs.
Qed.

Lemma store_pixel_not_Failed px st msgs : store_pixel px st <> Failed msgs.
Proof.
  revert st. induction px as [|v px IH]; intros st; [done|].
  cbn [store_pixel]. unfold store_byte. destruct (_ && _); [|done].
  rewrite bind_Done. apply IH.
Qed.

(** With a buffer of exactly [pixelcount*bpp] bytes, storing a pixel and
    counting it never reaches the test [currentpixel>pixelcount] with a
    count above [pixelcount]: the store has left the buffer before. *)
Lemma store_count_no_overrun pixelcount px st :
  px <> [] ->
  Z.of_nat (length (rs_data st)) = pixelcount * Z.of_nat (length px) ->
  currentbyte st = currentpixel st * Z.of_nat (length px) ->
  store_pixel px st ≫= count_pixel pixelcount <> Failed [too_many_pixels].
Proof.
  intros Hne Hdata Hcb.
  destruct (store_pixel px st) as [st1| | |] eqn:Hs; try done.
  - rewrite bind_Done.
    pose proof (store_pixel_bound _ _ _ Hs Hne) as Hbound.
    apply store_pixel_inv in Hs as (_ & _ & Hcp & Hcb1).
    rewrite count_pixel_Done; [done|].
    assert (0 < Z.of_nat (length px)) by (destruct px; [done|cbn; lia]).
    nia.
  - by apply store_pixel_not_Failed in Hs.
Qed.

Lemma raw_packet_no_overrun n pixelcount bpp st :
  0 < bpp ->
  Z.of_nat (length (rs_data st)) = pixelcount * bpp ->
  currentbyte st = currentpixel st * bpp ->
  raw_packet n pixelcount bpp st <> Failed [too_many_pixels].
Proof.
  intros Hbpp. revert st. induction n as [|n IH]; intros st Hdata Hcb; [done|].
  cbn [raw_packet].
  destruct (stream_read bpp (rs_in st)) as [[px rest]|] eqn:Hrd; [|done].
  apply stream_read_inv in Hrd as (_ & _ & Hpx & _); [|lia].
  match goal with |- context [store_pixel px ?s] => set (st0 := s) end.
  pose proof (store_count_no_overrun pixelcount px st0) as Hsc.
  destruct (store_pixel px st0) as [st1| | |] eqn:Hs;
    [|by apply store_pixel_not_Failed in Hs|done|done].
  rewrite bind_Done in *.
  destruct (count_pixel pixelcount st1) as [st2| | |] eqn:Hc; try done.
  - rewrite bind_Done.
    apply store_pixel_inv in Hs as (_ & Hlen1 & Hcp1 & Hcb1).
    apply count_pixel_inv in Hc as (_ & Hd2 & Hcp2 & Hcb2 & _).
    subst st0. cbn [rs_in rs_data currentpixel currentbyte] in *.
    apply IH; rewrite ?Hd2; lia.
  - cbn. intros Hm. apply Hsc; subst st0; cbn; try lia.
    + intros ->. cbn in Hpx. lia.
    + congruence.
Qed.

Lemma run_packet_no_overrun n pixelcount px st :
  px <> [] ->
  Z.of_nat (length (rs_data st)) = pixelcount * Z.of_nat (length px) ->
  currentbyte st = currentpixel st * Z.of_nat (length px) ->
  run_packet n pixelcount px st <> Failed [too_many_pixels].
Proof.
  intros Hne. revert st. induction n as [|n IH]; intros st Hdata Hcb; [done|].
  cbn [run_packet].
  pose proof (store_count_no_overrun pixelcount px st Hne Hdata Hcb) as Hsc.
  destruct (store_pixel px st) as [st1| | |] eqn:Hs;
    [|by apply store_pixel_not_Failed in Hs|done|done].
  rewrite bind_Done in *.
  destruct (count_pixel pixelcount st1) as [st2| | |] eqn:Hc; try done.
  rewrite bind_Done.
  apply store_pixel_inv in Hs as (_ & Hlen1 & Hcp1 & Hcb1).
  apply count_pixel_inv in Hc as (_ & Hd2 & Hcp2 & Hcb2 & _).
  apply IH; rewrite ?Hd2; lia.
Qed.

Lemma load_rle_loop_no_overrun fuel pixelcount bpp st :
  0 < bpp ->
  Z.of_nat (length (rs_data st)) = pixelcount * bpp ->
  currentbyte st = currentpixel st * bpp ->
  load_rle_loop fuel pixelcount bpp st <> Failed [too_many_pixels].
Proof.
  intros Hbpp. revert st. induction fuel as [|fuel IH]; intros st Hdata Hcb;
    [done|].
  cbn [load_rle_loop].
  destruct (load_rle_packet pixelcount bpp st) as [st1|msgs| |] eqn:Hp;
    try done.
  - rewrite bind_Done. destruct (_ <? _); [|done].
    apply load_rle_packet_inv in Hp as (Hlen & _ & _ & Hcb1); [|lia].
    apply IH; lia.
  - cbn. intros Hm. injection Hm as ->. revert Hp.
    unfold load_rle_packet.
    destruct (stream_get (rs_in st)) as [[hd rest]|]; [|done].
    destruct (_ <? _); [by apply raw_packet_no_overrun|].
    destruct (stream_read bpp _) as [[px rest']|] eqn:Hrd; [|done].
    apply stream_read_inv in Hrd as (_ & _ & Hpx & _); [|lia].
    apply run_packet_no_overrun; cbn [rs_data currentpixel currentbyte];
      try lia.
    intros ->. cbn in Hpx. lia.
Qed.

(** On a valid image [load_rle_data] never reports the overrun. *)
Lemma load_rle_data_no_overrun s img :
  valid_image img -> load_rle_data s img <> Failed [too_many_pixels].
Proof.
  intros Hv.
  destruct (valid_image_facts img Hv) as (Hb & Hwh & Hpc & _ & _ & Hlen).
  unfold load_rle_data. rewrite Hpc.
  match goal with |- context [load_rle_loop ?f ?p ?b ?s] =>
    pose proof (load_rle_loop_no_overrun f p b s) as Hno;
    destruct (load_rle_loop f p b s) as [st| | |]
  end; try done.
  cbn. intros Hm. injection Hm as ->. apply Hno; cbn; (lia || reflexivity).
Qed.

(** C3 does not hold of the code.  In [load_rle_data] the bytes of a pixel
    are stored before [currentpixel] is incremented and compared with
    [pixelcount]: a packet that pushes the pixel count above [w*h] makes the
    decoder write at index [w*h*bpp], outside the buffer, before the overrun
    test is reached.  Here the image is 1x1 with one byte per pixel, and the
    packet announces two pixels: the second is stored at index 1. *)
Theorem load_rle_overrun_out_of_bounds :
  load_rle_data [x81; x0a] ex_gray_1x1 = Undefined 1
  /\ load_rle_data [x01; x0a; x0b] ex_gray_1x1 = Undefined 1
  /\ read_tga_stream ex_file_overrun = Undefined 1
  /\ load_rle_data [x00; x0a] ex_gray_1x1
     = Done ([], {| w := 1; h := 1; bpp := 1; data := [x0a] |}).
Proof. repeat split; vm_compute; reflexivity. Qed.

(** ** Runs found by the encoder *)

Lemma pixel_lookup img k (i : nat) :
  0 <= k -> 0 <= bpp img -> (i < Z.to_nat (bpp img))%nat ->
  pixel img k !! i = data img !! (Z.to_nat (k * bpp img + Z.of_nat i)).
Proof.
  intros Hk Hb Hi. unfold pixel.
  rewrite lookup_take_lt, lookup_drop by done. f_equal. nia.
Qed.

Lemma succ_eq_spec img k :
  0 < bpp img -> 0 <= k ->
  (k + 2) * bpp img <= Z.of_nat (length (data img)) ->
  succ_eq img (k * bpp img) = true <-> pixel img k = pixel img (k + 1).
Proof.
  intros Hb Hk Hlen. unfold succ_eq. rewrite forallb_forall. split.
  - intros Hall. apply list_eq. intros i.
    destruct (decide (i < Z.to_nat (bpp img))%nat) as [Hi|Hi].
    + rewrite !pixel_lookup by lia.
      specialize (Hall (Z.of_nat i)).
      rewrite bool_decide_eq_true in Hall. unfold vec_get in Hall.
      rewrite !(list_lookup_lookup_total_lt (data img)) by nia.
      f_equal.
      replace (Z.to_nat ((k + 1) * bpp img + Z.of_nat i))
        with (Z.to_nat (k * bpp img + Z.of_nat i + bpp img)) by nia.
      apply Hall. apply list_elem_of_In, elem_of_seqZ. lia.
    + unfold pixel. rewrite !lookup_take_ge by lia. done.
  - intros Heq t Ht. apply list_elem_of_In, elem_of_seqZ in Ht.
    rewrite bool_decide_eq_true. unfold vec_get.
    rewrite !list_lookup_total_alt. f_equal.
    pose proof (f_equal (fun l => l !! Z.to_nat t) Heq) as Ht'. cbv beta in Ht'.
    rewrite !pixel_lookup in Ht' by lia.
    rewrite Z2Nat.id in Ht' by lia.
    replace (k * bpp img + t + bpp img) with ((k + 1) * bpp img + t) by ring.
    done.
Qed.

Section encoder.
Context (img : TGAImage).
Hypothesis Hv : valid_image img.

Let N : Z := w img * h img.

Lemma encoder_facts :
  0 < bpp img <= 4 /\ 0 < N /\ Z.of_nat (length (data img)) = N * bpp img
  /\ N * bpp img <= INT_MAX.
Proof.
  destruct (valid_image_facts img Hv) as (Hb & Hwh & _ & _ & _ & Hlen).
  destruct Hv as (_ & _ & _ & _ & Hfit). subst N. done.
Qed.

Lemma succ_eq_pixel k :
  0 <= k -> k + 2 <= N ->
  succ_eq img (k * bpp img) = true <-> pixel img k = pixel img (k + 1).
Proof.
  destruct encoder_facts as (Hb & HN & Hlen & _). intros Hk Hk2.
  apply succ_eq_spec; try lia. nia.
Qed.

(** The run a repeated packet stands for consists of equal pixels. *)
Lemma scan_run_run fuel curpix r raw raw' n :
  0 <= curpix -> 1 <= r <= 128 -> curpix + r <= N ->
  (raw = false ->
   2 <= r /\ forall k, 0 <= k < r -> pixel img (curpix + k) = pixel img curpix) ->
  scan_run fuel img N curpix ((curpix + r - 1) * bpp img) r raw = Done (raw', n) ->
  1 <= n <= 128 /\ curpix + n <= N
  /\ (raw' = false ->
      2 <= n /\ forall k, 0 <= k < n -> pixel img (curpix + k) = pixel img curpix).
Proof.
  intros Hc. revert r raw.
  induction fuel as [|fuel IH]; intros r raw Hr HrN Hraw; [done|].
  cbn [scan_run]. unfold max_chunk_length.
  destruct (Z.ltb_spec (curpix + r) N); cbn [andb];
    [destruct (Z.ltb_spec r 128); cbn [andb]|];
    try (intros Hd; injection Hd as <- <-; done).
  pose proof (succ_eq_pixel (curpix + r - 1) ltac:(lia) ltac:(lia)) as Hse.
  replace (curpix + r - 1 + 1) with (curpix + r) in Hse by lia.
  replace ((curpix + r - 1) * bpp img + bpp img)
    with ((curpix + (r + 1) - 1) * bpp img) by ring.
  rewrite !to_u8_id by lia.
  destruct (Z.eqb_spec r 1) as [->|Hr1].
  - destruct (succ_eq img _); cbn [negb andb].
    + apply IH; try lia. intros _. split; [lia|].
      intros k Hk. assert (k = 0 \/ k = 1) as [-> | ->] by lia.
      * by rewrite Z.add_0_r.
      * replace (curpix + 1 - 1) with curpix in Hse by lia.
        symmetry. by apply Hse.
    + apply IH; try lia; done.
  - destruct (succ_eq img _), raw; cbn [negb andb].
    + intros Hd. injection Hd as <- <-. repeat split; try lia; done.
    + apply IH; try lia. intros _.
      destruct (Hraw eq_refl) as [_ Hrun]. split; [lia|].
      intros k Hk. destruct (decide (k = r)) as [->|].
      * rewrite <-(proj1 Hse eq_refl).
        replace (curpix + r - 1) with (curpix + (r - 1)) by lia.
        apply Hrun. lia.
      * apply Hrun. lia.
    + apply IH; try lia; done.
    + intros Hd. injection Hd as <- <-. repeat split; try lia; by apply Hraw.
Qed.

(** A run of [m] equal pixels that cannot be extended is found whole. *)
Lemma scan_run_equal fuel curpix m r raw :
  2 <= m <= 128 -> 0 <= curpix -> curpix + m <= N ->
  1 <= r <= m -> 128 - r < Z.of_nat fuel -> (2 <= r -> raw = false) ->
  (forall k, 0 <= k < m - 1 ->
     pixel img (curpix + k) = pixel img (curpix + k + 1)) ->
  (m = 128 \/ curpix + m = N
   \/ pixel img (curpix + m - 1) <> pixel img (curpix + m)) ->
  scan_run fuel img N curpix ((curpix + r - 1) * bpp img) r raw
  = Done (false, m).
Proof.
  intros Hm Hc HmN. revert r raw.
  induction fuel as [|fuel IH]; intros r raw Hr Hf Hraw Heq Hstop; [lia|].
  cbn [scan_run]. unfold max_chunk_length.
  destruct (decide (r = m)) as [->|Hne].
  - rewrite Hraw by lia.
    destruct (Z.ltb_spec (curpix + m) N); cbn [andb];
      [destruct (Z.ltb_spec m 128); cbn [andb]|]; try done.
    destruct Hstop as [?|[?|Hdiff]]; try lia.
    pose proof (succ_eq_pixel (curpix + m - 1) ltac:(lia) ltac:(lia)) as Hse.
    replace (curpix + m - 1 + 1) with (curpix + m) in Hse by lia.
    destruct (succ_eq img _); [by destruct Hdiff; apply Hse|].
    destruct (Z.eqb_spec m 1); [lia|]. done.
  - destruct (Z.ltb_spec (curpix + r) N); [|lia].
    destruct (Z.ltb_spec r 128); [|lia]. cbn [andb].
    pose proof (succ_eq_pixel (curpix + r - 1) ltac:(lia) ltac:(lia)) as Hse.
    replace (curpix + r - 1 + 1) with (curpix + r) in Hse by lia.
    rewrite (proj2 Hse) by (specialize (Heq (r - 1)); 
      replace (curpix + (r - 1)) with (curpix + r - 1) in Heq by lia;
      replace (curpix + r - 1 + 1) with (curpix + r) in Heq by lia;
      apply Heq; lia).
    replace ((curpix + r - 1) * bpp img + bpp img)
      with ((curpix + (r + 1) - 1) * bpp img) by ring.
    rewrite !to_u8_id by lia.
    destruct (Z.eqb_spec r 1) as [->|Hr1]; cbn [negb andb].
    + apply IH; try lia; done.
    + rewrite Hraw by lia. cbn [negb andb]. apply IH; try lia; done.
Qed.

End encoder.

(** ** Decoding what the encoder wrote *)

Lemma agree_after_inserts {A} (cb m : nat) (X D : list A) :
  length X = length D -> take cb X = take cb D ->
  (cb + m <= length D)%nat ->
  take (cb + m) (list_inserts cb (take m (drop cb D)) X) = take (cb + m) D.
Proof.
  intros Hlen Hpre Hm.
  assert (Hl : length (take m (drop cb D)) = m)
    by (rewrite length_take, length_drop; lia).
  rewrite list_inserts_splice by (rewrite Hl; lia).
  rewrite Hl, Hpre, app_assoc, take_take_drop.
  apply take_app_length'. rewrite length_take. lia.
Qed.

Lemma run_pixels img px (n : nat) c :
  0 <= c -> 0 <= bpp img ->
  (forall k, 0 <= k < Z.of_nat n -> pixel img (c + k) = px) ->
  concat (replicate n px)
  = take (Z.to_nat (Z.of_nat n * bpp img)) (drop (Z.to_nat (c * bpp img)) (data img)).
Proof.
  intros Hc Hb. revert c Hc. induction n as [|n IH]; intros c Hc Hall; [done|].
  cbn [replicate concat].
  rewrite (IH (c + 1)) by (lia || (intros k Hk; rewrite <-Z.add_assoc; apply Hall; lia)).
  rewrite <-(Hall 0), Z.add_0_r by lia. unfold pixel.
  replace (Z.to_nat ((c + 1) * bpp img))
    with (Z.to_nat (c * bpp img) + Z.to_nat (bpp img))%nat by nia.
  rewrite <-drop_drop, take_take_drop. f_equal. nia.
Qed.

Section roundtrip.
Context (img : TGAImage).
Hypothesis Hv : valid_image img.

Let N : Z := w img * h img.

(** Decoding the bytes of one packet of the encoder. *)
Lemma load_rle_packet_chunk c curpix X rest :
  0 <= curpix -> 1 <= ch_len c <= 128 -> curpix + ch_len c <= N ->
  ch_start c = curpix * bpp img ->
  (ch_raw c = false ->
   2 <= ch_len c
   /\ forall k, 0 <= k < ch_len c -> pixel img (curpix + k) = pixel img curpix) ->
  length X = length (data img) ->
  load_rle_packet N (bpp img)
    {| rs_in := chunk_bytes img c ++ rest; rs_data := X;
       currentpixel := curpix; currentbyte := curpix * bpp img |}
  = Done {| rs_in := rest;
            rs_data :=
              list_inserts (Z.to_nat (curpix * bpp img))
                (take (Z.to_nat (ch_len c * bpp img))
                   (drop (Z.to_nat (curpix * bpp img)) (data img))) X;
            currentpixel := curpix + ch_len c;
            currentbyte := (curpix + ch_len c) * bpp img |}.
Proof.
  destruct (encoder_facts img Hv) as (Hb & HN & Hlen & Hfit). fold N in Hlen.
  destruct c as [raw n start]. cbn [ch_raw ch_len ch_start].
  intros Hc Hn HcN -> Hrun HX.
  unfold load_rle_packet, chunk_bytes, chunk_header, chunk_payload.
  cbn [ch_raw ch_len ch_start app stream_get rs_in rs_data currentpixel
       currentbyte].
  rewrite Z_of_byte_of_Z.
  assert (Hpay : forall m, 0 <= m -> curpix * bpp img + m <= N * bpp img ->
            length (take (Z.to_nat m)
                      (drop (Z.to_nat (curpix * bpp img)) (data img)))
            = Z.to_nat m).
  { intros m Hm Hle. rewrite length_take, length_drop. nia. }
  destruct raw.
  - rewrite (to_u8_id (n - 1)) by lia.
    destruct (Z.ltb_spec (n - 1) 128); [|lia].
    replace (n - 1 + 1) with n by lia. rewrite to_u8_id by lia.
    rewrite raw_packet_Done; cbn [rs_in rs_data currentpixel currentbyte];
      rewrite ?length_app, ?Hpay, ?Z2Nat.id; try nia.
    rewrite take_app_length', drop_app_length' by (rewrite Hpay; nia).
    f_equal. f_equal. ring.
  - destruct (Hrun eq_refl) as [Hn2 Hall].
    rewrite (to_u8_id (n + 127)) by lia.
    destruct (Z.ltb_spec (n + 127) 128); [lia|].
    replace (n + 127 - 127) with n by lia. rewrite to_u8_id by lia.
    rewrite stream_read_app by (rewrite Hpay; nia).
    rewrite run_packet_Done; cbn [rs_in rs_data currentpixel currentbyte];
      rewrite ?Hpay, ?Z2Nat.id; try nia.
    rewrite (run_pixels img _ (Z.to_nat n) curpix); try lia.
    + rewrite Z2Nat.id by lia. f_equal. f_equal. ring.
    + intros k Hk. rewrite Hall by lia. done.
Qed.

Lemma unload_rle_loop_end fuel cs :
  unload_rle_loop fuel img N N = Done cs -> cs = [].
Proof.
  destruct fuel as [|fuel]; [done|]. cbn [unload_rle_loop].
  rewrite Z.ltb_irrefl. congruence.
Qed.

(** The decoder run on the packets the encoder emits from pixel [curpix]
    on completes the buffer. *)
Lemma decode_chunks fuel curpix cs :
  unload_rle_loop fuel img N curpix = Done cs -> 0 <= curpix < N ->
  forall fuel2 X t,
    (length cs <= fuel2)%nat -> length X = length (data img) ->
    take (Z.to_nat (curpix * bpp img)) X
    = take (Z.to_nat (curpix * bpp img)) (data img) ->
    load_rle_loop fuel2 N (bpp img)
      {| rs_in := concat (chunk_bytes img <$> cs) ++ t; rs_data := X;
         currentpixel := curpix; currentbyte := curpix * bpp img |}
    = Done {| rs_in := t; rs_data := data img;
              currentpixel := N; currentbyte := N * bpp img |}.
Proof.
  destruct (encoder_facts img Hv) as (Hb & HN & Hlen & Hfit). fold N in Hlen.
  revert curpix cs.
  induction fuel as [|fuel IH]; intros curpix cs Hun Hc fuel2 X t Hf HX Hpre;
    [done|].
  cbn [unload_rle_loop] in Hun.
  destruct (Z.ltb_spec curpix N); [|lia].
  rewrite to_size_t_id in Hun by (unfold INT_MAX in *; nia).
  apply bind_Done_inv in Hun as ([raw n] & Hscan & Hun).
  apply bind_Done_inv in Hun as (cs' & Hrest & Hun).
  injection Hun as <-.
  replace (curpix * bpp img) with ((curpix + 1 - 1) * bpp img) in Hscan
    by (f_equal; lia).
  apply (scan_run_run img Hv) in Hscan as (Hn & HnN & Hrun); try done; try lia.
  fold N in HnN.
  destruct fuel2 as [|fuel2]; [cbn in Hf; lia|].
  cbn [load_rle_loop]. rewrite fmap_cons, concat_cons, <-app_assoc.
  rewrite load_rle_packet_chunk; cbn [ch_raw ch_len ch_start]; try done;
    try lia.
  rewrite bind_Done. cbn [currentpixel].
  assert (Hagree :
    take (Z.to_nat ((curpix + n) * bpp img))
      (list_inserts (Z.to_nat (curpix * bpp img))
         (take (Z.to_nat (n * bpp img))
            (drop (Z.to_nat (curpix * bpp img)) (data img))) X)
    = take (Z.to_nat ((curpix + n) * bpp img)) (data img)).
  { replace (Z.to_nat ((curpix + n) * bpp img))
      with (Z.to_nat (curpix * bpp img) + Z.to_nat (n * bpp img))%nat by nia.
    apply agree_after_inserts; try done. nia. }
  destruct (Z.ltb_spec (curpix + n) N).
  - apply (IH (curpix + n) cs'); try done; try lia.
    + cbn in Hf. lia.
    + by rewrite length_inserts.
  - assert (curpix + n = N) as HeqN by lia. rewrite HeqN in *.
    apply unload_rle_loop_end in Hrest as ->. cbn [fmap list_fmap concat app].
    rewrite (take_ge (list_inserts _ _ _)) in Hagree
      by (rewrite length_inserts; lia).
    rewrite Hagree, take_ge by lia. done.
Qed.

(** The decoder inverts the encoder: whatever the buffer holds before and
    whatever follows the packets in the stream. *)
Lemma load_unload_rle_data :
  exists stream,
    unload_rle_data img = Done stream
    /\ forall X t,
         length X = length (data img) ->
         load_rle_data (stream ++ t) (with_data img X) = Done (t, img).
Proof.
  destruct (encoder_facts img Hv) as (Hb & HN & Hlen & Hfit). fold N in Hlen.
  destruct (valid_image_facts img Hv) as (_ & _ & Hpc & _).
  destruct (unload_rle_chunks_Done img) as (cs & Hcs & _ & _).
  assert (Hdata : unload_rle_data img = Done (concat (chunk_bytes img <$> cs)))
    by (unfold unload_rle_data; by rewrite Hcs).
  exists (concat (chunk_bytes img <$> cs)). split; [done|].
  intros X t HX. unfold load_rle_data, with_data. cbn [w h bpp data].
  rewrite Hpc. fold N.
  unfold unload_rle_chunks in Hcs. rewrite Hpc in Hcs. fold N in Hcs.
  rewrite (decode_chunks _ 0 cs Hcs); try done; try lia.
  - rewrite bind_Done. cbn [rs_in rs_data]. by destruct img.
  - rewrite length_app.
    assert (length cs <= length (concat (chunk_bytes img <$> cs)))%nat; [|lia].
    clear. induction cs as [|c cs IH]; [done|].
    rewrite fmap_cons, concat_cons, length_app. cbn. lia.
Qed.

End roundtrip.

(** ** Writing a file and reading it back *)

Lemma of_le16_le16 z : 0 <= z < 65536 -> TGAHeader.of_le16 (byte_of_Z z) (byte_of_Z (z / 256)) = z.
Proof.
  intros Hz. unfold TGAHeader.of_le16. rewrite !Z_of_byte_of_Z. unfold to_u8.
  change (2 ^ 8) with 256. Z.to_euclidean_division_equations. lia.
Qed.

Lemma header_of_to_bytes hd :
  TGAHeader.wf hd -> TGAHeader.of_bytes (TGAHeader.to_bytes hd) = hd.
Proof.
  intros (H1 & H2 & H3 & H4 & H5 & H6 & H7 & H8 & H9 & H10 & H11 & H12).
  destruct hd. cbn in *.
  rewrite !of_le16_le16, !Z_of_byte_of_Z, !to_u8_id by lia. done.
Qed.

Lemma header_to_bytes_length hd : length (TGAHeader.to_bytes hd) = 18%nat.
Proof. reflexivity. Qed.

Lemma write_header_wf vflip rle img :
  valid_image img -> w img < 65536 -> h img < 65536 ->
  TGAHeader.wf (write_header vflip rle img)
  /\ TGAHeader.width (write_header vflip rle img) = w img
  /\ TGAHeader.height (write_header vflip rle img) = h img
  /\ to_u8 (Z.shiftr (TGAHeader.bitsperpixel (write_header vflip rle img)) 3)
     = bpp img.
Proof.
  intros (Hw & Hh & Hb & _ & _) Hw16 Hh16.
  unfold TGAHeader.wf, write_header. cbn.
  rewrite !to_u16_id by lia.
  unfold valid_bpp, GRAYSCALE, RGB, RGBA in *.
  destruct Hb as [-> | [-> | ->]]; destruct vflip, rle; cbn; repeat split;
    try lia; vm_compute; congruence.
Qed.

Lemma memcpy_whole (zeros bytes : list byte) n :
  Z.of_nat (length bytes) = n -> length zeros = length bytes ->
  memcpy zeros 0 bytes n = bytes.
Proof.
  intros Hn Hz. unfold memcpy. rewrite take_ge by lia.
  change (Z.to_nat 0) with 0%nat.
  rewrite <-(app_nil_r zeros), list_inserts_0_r by done.
  apply app_nil_r.
Qed.

Lemma with_data_data img : with_data img (data img) = img.
Proof. by destruct img. Qed.

Lemma read_pixels_written rle vflip img zeros :
  valid_image img -> length zeros = length (data img) ->
  exists pixels,
    (if negb rle
     then Done (take (Z.to_nat (to_int (w img * h img * bpp img))) (data img))
     else unload_rle_data img) = Done pixels
    /\ forall t,
         read_pixels (write_header vflip rle img) (pixels ++ t)
           (with_data img zeros) = Done img.
Proof.
  intros Hv Hz.
  destruct (valid_image_facts img Hv) as (Hb & Hwh & Hpc & Hnb & Hint & Hlen).
  destruct rle; cbn [negb].
  - destruct (load_unload_rle_data img Hv) as (stream & Hs & Hload).
    exists stream. split; [done|]. intros t.
    unfold read_pixels, write_header. cbn [TGAHeader.datatypecode].
    rewrite Hload by done.
    destruct (bpp img =? GRAYSCALE); done.
  - eexists. split; [done|]. intros t.
    unfold read_pixels, write_header. cbn [TGAHeader.datatypecode w h bpp data with_data].
    replace ((((if bpp img =? GRAYSCALE then 3 else 2) =? 3)
              || ((if bpp img =? GRAYSCALE then 3 else 2) =? 2))) with true
      by (by destruct (bpp img =? GRAYSCALE)).
    rewrite Hnb, Hint, take_ge by lia.
    rewrite stream_read_app by lia.
    rewrite memcpy_whole by (done || lia).
    by destruct img.
Qed.

Lemma read_written_stream vflip rle img :
  valid_image img -> w img < 65536 -> h img < 65536 ->
  exists file,
    tga_file_bytes vflip rle img = Done file
    /\ read_tga_stream file = Done (if vflip then flip_vertically img else img).
Proof.
  intros Hv Hw16 Hh16.
  destruct (valid_image_facts img Hv) as (Hb & Hwh & Hpc & Hnb & Hint & Hlen).
  destruct (write_header_wf vflip rle img Hv Hw16 Hh16)
    as (Hwf & Hhw & Hhh & Hhb).
  destruct (read_pixels_written rle vflip img
              (replicate (Z.to_nat (w img * h img * bpp img)) x00) Hv)
    as (pixels & Hpx & Hread).
  { rewrite length_replicate. lia. }
  unfold tga_file_bytes. rewrite Hpx, bind_Done. eexists. split; [done|].
  unfold read_tga_stream.
  rewrite stream_read_app by done.
  rewrite header_of_to_bytes by done.
  rewrite Hhw, Hhh, Hhb.
  destruct Hv as (Hw & Hh & Hvb & _ & _).
  destruct (Z.leb_spec (w img) 0); [lia|].
  destruct (Z.leb_spec (h img) 0); [lia|].
  replace (negb (bpp img =? GRAYSCALE) && negb (bpp img =? RGB)
           && negb (bpp img =? RGBA)) with false
    by (unfold valid_bpp in Hvb; destruct Hvb as [-> | [-> | ->]]; done).
  cbn [orb]. rewrite Hnb.
  change {| w := w img; h := h img; bpp := bpp img; data := ?d |}
    with (with_data img d).
  rewrite Hread, bind_Done.
  unfold write_header. cbn [TGAHeader.imagedescriptor].
  by destruct vflip.
Qed.

Lemma write_read_tga_file filename vflip rle img fs img0 :
  valid_image img -> w img < 65536 -> h img < 65536 ->
  exists fs',
    write_tga_file filename vflip rle img fs = Done fs'
    /\ read_tga_file filename fs' img0
       = Done (if vflip then flip_vertically img else img).
Proof.
  intros Hv Hw16 Hh16.
  destruct (read_written_stream vflip rle img Hv Hw16 Hh16)
    as (file & Hfile & Hread).
  unfold write_tga_file, read_tga_file. rewrite Hfile, bind_Done.
  eexists. split; [done|]. by rewrite lookup_insert_eq.
Qed.

Lemma flip_vertically_rows img :
  valid_image img ->
  rows_reversed img (flip_vertically img)
  /\ flip_vertically (flip_vertically img) = img.
Proof.
  intros (_ & _ & _ & Hinv & Hfit). split; [split|].
  - apply same_shape_flip_vertically.
  - intros c r b. by apply flip_vertically_lookup.
  - by apply flip_vertically_involutive.
Qed.

(** C2, as the code has it: for every valid image state whose width and
    height fit the 16-bit fields of the header, [write(path, vflip=true,
    rle=false)] followed by [read(path)] succeeds and yields the original
    image after one [flip_vertically], that is with its rows in reverse
    order (the file is declared bottom-up and [read] normalises it to
    top-down); one more [flip_vertically] restores
    the original buffer byte for byte, and with [vflip=false] the round trip
    alone reproduces it byte for byte. *)
Theorem raw_write_read img filename fs img0 :
  valid_image img -> w img < 65536 -> h img < 65536 ->
  (exists fs',
     write_tga_file filename true false img fs = Done fs'
     /\ read_tga_file filename fs' img0 = Done (flip_vertically img)
     /\ rows_reversed img (flip_vertically img)
     /\ flip_vertically (flip_vertically img) = img)
  /\ (exists fs',
        write_tga_file filename false false img fs = Done fs'
        /\ read_tga_file filename fs' img0 = Done img).
Proof.
  intros Hv Hw16 Hh16. split.
  - destruct (write_read_tga_file filename true false img fs img0 Hv Hw16 Hh16)
      as (fs' & Hwrite & Hread).
    destruct (flip_vertically_rows img Hv) as [Hrows Htwice].
    by exists fs'.
  - exact (write_read_tga_file filename false false img fs img0 Hv Hw16 Hh16).
Qed.

Lemma raw_write_read_witness :
  (exists fs',
     write_tga_file "a.tga" true false ex_gray_2x3 ∅ = Done fs'
     /\ read_tga_file "a.tga" fs' TGAImage_empty
        = Done (flip_vertically ex_gray_2x3)
     /\ rows_reversed ex_gray_2x3 (flip_vertically ex_gray_2x3)
     /\ flip_vertically (flip_vertically ex_gray_2x3) = ex_gray_2x3)
  /\ (exists fs',
        write_tga_file "a.tga" false false ex_gray_2x3 ∅ = Done fs'
        /\ read_tga_file "a.tga" fs' TGAImage_empty = Done ex_gray_2x3).
Proof.
  apply raw_write_read; [|reflexivity|reflexivity].
  repeat split; try reflexivity; [left; reflexivity | vm_compute; discriminate].
Defined.

(** C2 as stated does not hold: a 1x2 image written with [vflip=true] and
    without RLE is read back with its two rows exchanged. *)
Lemma raw_write_read_counterexample :
  valid_image ex_gray_1x2
  /\ write_tga_file "a.tga" true false ex_gray_1x2 ∅
       ≫= (fun fs' => read_tga_file "a.tga" fs' TGAImage_empty)
     = Done {| w := 1; h := 2; bpp := 1; data := [x02; x01] |}
  /\ data {| w := 1; h := 2; bpp := 1; data := [x02; x01] |}
     <> data ex_gray_1x2.
Proof.
  split; [|split; [vm_compute; reflexivity | discriminate]].
  repeat split; try reflexivity; [left; reflexivity | vm_compute; discriminate].
Qed.

(** C1, as the code has it: for every valid image state whose width and
    height fit the 16-bit fields of the header, [write(path, vflip=true,
    rle=true)] followed by [read(path)] succeeds and yields the original
    image after one [flip_vertically], that is with its rows in reverse
    order; one more [flip_vertically] restores
    the original buffer byte for byte, and with [vflip=false] the round trip
    alone reproduces it.  The RLE decoder applied to the output of the RLE
    encoder yields exactly the original pixel content, for any prior content
    of the buffer and any bytes that follow the packets. *)
Theorem rle_write_read img filename fs img0 :
  valid_image img -> w img < 65536 -> h img < 65536 ->
  (exists fs',
     write_tga_file filename true true img fs = Done fs'
     /\ read_tga_file filename fs' img0 = Done (flip_vertically img)
     /\ rows_reversed img (flip_vertically img)
     /\ flip_vertically (flip_vertically img) = img)
  /\ (exists fs',
        write_tga_file filename false true img fs = Done fs'
        /\ read_tga_file filename fs' img0 = Done img)
  /\ (exists stream,
        unload_rle_data img = Done stream
        /\ forall X t,
             length X = length (data img) ->
             load_rle_data (stream ++ t) (with_data img X) = Done (t, img)).
Proof.
  intros Hv Hw16 Hh16. split; [|split].
  - destruct (write_read_tga_file filename true true img fs img0 Hv Hw16 Hh16)
      as (fs' & Hwrite & Hread).
    destruct (flip_vertically_rows img Hv) as [Hrows Htwice].
    by exists fs'.
  - exact (write_read_tga_file filename false true img fs img0 Hv Hw16 Hh16).
  - by apply load_unload_rle_data.
Qed.

Lemma rle_write_read_witness :
  (exists fs',
     write_tga_file "a.tga" true true ex_gray_2x3 ∅ = Done fs'
     /\ read_tga_file "a.tga" fs' TGAImage_empty
        = Done (flip_vertically ex_gray_2x3)
     /\ rows_reversed ex_gray_2x3 (flip_vertically ex_gray_2x3)
     /\ flip_vertically (flip_vertically ex_gray_2x3) = ex_gray_2x3)
  /\ (exists fs',
        write_tga_file "a.tga" false true ex_gray_2x3 ∅ = Done fs'
        /\ read_tga_file "a.tga" fs' TGAImage_empty = Done ex_gray_2x3)
  /\ (exists stream,
        unload_rle_data ex_gray_2x3 = Done stream
        /\ forall X t,
             length X = length (data ex_gray_2x3) ->
             load_rle_data (stream ++ t) (with_data ex_gray_2x3 X)
             = Done (t, ex_gray_2x3)).
Proof.
  apply rle_write_read; [|reflexivity|reflexivity].
  repeat split; try reflexivity; [left; reflexivity | vm_compute; discriminate].
Defined.

(** C1 as stated does not hold: a 1x2 image written with [vflip=true] and
    RLE is read back with its two rows exchanged. *)
Lemma rle_write_read_counterexample :
  valid_image ex_gray_1x2
  /\ write_tga_file "a.tga" true true ex_gray_1x2 ∅
       ≫= (fun fs' => read_tga_file "a.tga" fs' TGAImage_empty)
     = Done {| w := 1; h := 2; bpp := 1; data := [x02; x01] |}
  /\ data {| w := 1; h := 2; bpp := 1; data := [x02; x01] |}
     <> data ex_gray_1x2.
Proof.
  split; [|split; [vm_compute; reflexivity | discriminate]].
  repeat split; try reflexivity; [left; reflexivity | vm_compute; discriminate].
Qed.

(** ** The packet boundary at 128 pixels *)

Lemma length_concat_replicate {A} (n : nat) (p : list A) :
  length (concat (replicate n p)) = (n * length p)%nat.
Proof.
  induction n as [|n IH]; [done|].
  cbn [replicate concat]. rewrite length_app, IH. lia.
Qed.

Lemma pixel_in_run img (n : nat) p rest k :
  data img = concat (replicate n p) ++ rest ->
  length p = Z.to_nat (bpp img) -> 0 <= bpp img ->
  0 <= k < Z.of_nat n ->
  pixel img k = p.
Proof.
  intros Hd Hp Hb Hk. unfold pixel. rewrite Hd.
  replace n with (Z.to_nat k + S (n - S (Z.to_nat k)))%nat by lia.
  rewrite replicate_add, concat_app. cbn [replicate concat].
  rewrite <-!app_assoc.
  rewrite drop_app_length' by (rewrite length_concat_replicate; nia).
  apply take_app_length'. done.
Qed.

Lemma pixel_after_run img (n : nat) p q :
  data img = concat (replicate n p) ++ q ->
  length p = Z.to_nat (bpp img) -> length q = Z.to_nat (bpp img) ->
  0 <= bpp img ->
  pixel img (Z.of_nat n) = q.
Proof.
  intros Hd Hp Hq Hb. unfold pixel. rewrite Hd.
  rewrite drop_app_length' by (rewrite length_concat_replicate; nia).
  apply take_ge. lia.
Qed.

Lemma unload_rle_loop_step fuel img npixels curpix raw n cs :
  curpix < npixels ->
  scan_run (Z.to_nat max_chunk_length) img npixels curpix
    (to_size_t (curpix * bpp img)) 1 true = Done (raw, n) ->
  unload_rle_loop fuel img npixels (curpix + n) = Done cs ->
  unload_rle_loop (S fuel) img npixels curpix
  = Done ({| ch_raw := raw; ch_len := n;
             ch_start := to_size_t (curpix * bpp img) |} :: cs).
Proof.
  intros Hc Hscan Hrest. cbn [unload_rle_loop].
  destruct (Z.ltb_spec curpix npixels); [|lia].
  rewrite Hscan, bind_Done. cbv beta iota. rewrite Hrest. done.
Qed.

Lemma unload_rle_loop_stop fuel img npixels curpix :
  npixels <= curpix -> unload_rle_loop (S fuel) img npixels curpix = Done [].
Proof.
  intros Hc. cbn [unload_rle_loop].
  destruct (Z.ltb_spec curpix npixels); [lia|done].
Qed.

Lemma scan_run_last fuel img npixels curpix curbyte :
  npixels <= curpix + 1 ->
  scan_run (S fuel) img npixels curpix curbyte 1 true = Done (true, 1).
Proof.
  intros Hc. cbn [scan_run].
  destruct (Z.ltb_spec (curpix + 1) npixels); [lia|done].
Qed.

(** C4: a buffer of exactly 128 identical pixels followed by 1 distinct
    pixel is encoded as a repeated packet with header byte 255 and one pixel
    of payload, then a raw packet with header byte 0 and one pixel of
    payload; decoding exactly these bytes (with [w*h = 129]) reproduces the
    129 pixels. *)
Theorem rle_packet_boundary img p q :
  valid_image img -> w img * h img = 129 ->
  length p = Z.to_nat (bpp img) -> length q = Z.to_nat (bpp img) -> p <> q ->
  data img = concat (replicate 128 p) ++ q ->
  unload_rle_chunks img
  = Done [ {| ch_raw := false; ch_len := 128; ch_start := 0 |};
           {| ch_raw := true; ch_len := 1; ch_start := 128 * bpp img |} ]
  /\ unload_rle_data img = Done ([xff] ++ p ++ [x00] ++ q)
  /\ forall X t,
       length X = length (data img) ->
       load_rle_data (([xff] ++ p ++ [x00] ++ q) ++ t) (with_data img X)
       = Done (t, img).
Proof.
  intros Hv HN Hp Hq Hpq Hd.
  destruct (encoder_facts img Hv) as (Hb & _ & Hlen & Hfit).
  destruct (valid_image_facts img Hv) as (_ & _ & Hpc & _).
  assert (Hrun : forall k, 0 <= k < 128 -> pixel img k = p).
  { intros k Hk. apply (pixel_in_run img 128 p q); (done || lia). }
  assert (Hlast : pixel img 128 = q).
  { apply (pixel_after_run img 128 p q); (done || lia). }
  assert (Hchunks : unload_rle_chunks img
    = Done [ {| ch_raw := false; ch_len := 128; ch_start := 0 |};
             {| ch_raw := true; ch_len := 1; ch_start := 128 * bpp img |} ]).
  { unfold unload_rle_chunks. rewrite Hpc, HN.
    change (S (Z.to_nat 129)) with (S (S (S 127))).
    replace 0 with (to_size_t (0 * bpp img)) at 2
      by (rewrite to_size_t_id; unfold INT_MAX; lia).
    replace (128 * bpp img) with (to_size_t ((0 + 128) * bpp img))
      by (rewrite to_size_t_id; unfold INT_MAX in *; lia).
    apply unload_rle_loop_step; [lia| |].
    - rewrite to_size_t_id by (unfold INT_MAX; lia).
      replace (0 * bpp img) with ((0 + 1 - 1) * bpp img) by ring.
      rewrite <-HN.
      apply (scan_run_equal img Hv); try lia; try done.
      intros k Hk. rewrite !Z.add_0_l, !Hrun by lia. done.
    - apply unload_rle_loop_step; [lia| |].
      + apply scan_run_last. lia.
      + apply unload_rle_loop_stop. lia. }
  assert (Hdata : unload_rle_data img = Done ([xff] ++ p ++ [x00] ++ q)).
  { unfold unload_rle_data. rewrite Hchunks, bind_Done.
    cbn [fmap list_fmap concat]. unfold chunk_bytes, chunk_header, chunk_payload.
    cbn [ch_raw ch_len ch_start].
    change (byte_of_Z (128 + 127)) with xff.
    change (byte_of_Z (1 - 1)) with x00.
    rewrite Z.mul_1_l. fold (pixel img 128). rewrite Hlast.
    replace (take (Z.to_nat (bpp img)) (drop (Z.to_nat 0) (data img)))
      with (pixel img 0) by (unfold pixel; by rewrite Z.mul_0_l).
    rewrite Hrun by lia. rewrite app_nil_r.
    replace (take (Z.to_nat (bpp img)) q) with q by (by rewrite take_ge by lia).
    done. }
  split; [done|]. split; [done|].
  destruct (load_unload_rle_data img Hv) as (stream & Hs & Hload).
  rewrite Hdata in Hs. injection Hs as <-. exact Hload.
Qed.

Lemma rle_packet_boundary_witness :
  unload_rle_chunks ex_boundary
  = Done [ {| ch_raw := false; ch_len := 128; ch_start := 0 |};
           {| ch_raw := true; ch_len := 1; ch_start := 128 * bpp ex_boundary |} ]
  /\ unload_rle_data ex_boundary = Done ([xff] ++ [x07] ++ [x00] ++ [x09])
  /\ forall X t,
       length X = length (data ex_boundary) ->
       load_rle_data (([xff] ++ [x07] ++ [x00] ++ [x09]) ++ t)
         (with_data ex_boundary X)
       = Done (t, ex_boundary).
Proof.
  apply rle_packet_boundary; try reflexivity.
  - repeat split; try reflexivity; [left; reflexivity | vm_compute; discriminate].
  - discriminate.
Defined.

(** * Further properties *)

(** ** Reading and writing single pixels *)

Lemma take_drop_lookups (l : list byte) (P n : nat) :
  (P + n <= length l)%nat ->
  take n (drop P l) = (fun i => l !!! (P + i)%nat) <$> seq 0 n.
Proof.
  intros Hl. apply list_eq. intros i.
  rewrite list_lookup_fmap.
  destruct (decide (i < n)%nat) as [Hi|Hi].
  - rewrite lookup_take_lt, lookup_drop, lookup_seq_lt by done. cbn.
    apply list_lookup_lookup_total_lt. lia.
  - rewrite lookup_take_ge, lookup_seq_ge by lia. done.
Qed.

Lemma sound_image_facts img :
  sound_image img ->
  0 < w img * h img /\ data img <> []
  /\ Z.of_nat (length (data img)) = w img * h img * bpp img.
Proof.
  intros (Hw & Hh & Hb & Hinv & Hfit).
  assert (0 < w img * h img) by (apply Z.mul_pos_pos; lia).
  assert (0 < w img * h img * bpp img) by (apply Z.mul_pos_pos; lia).
  repeat split; try done. intros Hd. unfold buffer_inv in Hinv.
  rewrite Hd in Hinv. cbn in Hinv. lia.
Qed.

Lemma valid_image_sound img : valid_image img -> sound_image img.
Proof.
  intros (Hw & Hh & Hb & Hinv & Hfit). repeat split; try done;
    unfold valid_bpp, GRAYSCALE, RGB, RGBA in Hb; lia.
Qed.

Lemma sound_image_set x y c img : sound_image img -> sound_image (set x y c img).
Proof.
  intros (Hw & Hh & Hb & Hinv & Hfit).
  destruct (set_dims x y c img) as (Hw' & Hh' & Hb' & Hlen).
  unfold sound_image, buffer_inv in *. rewrite Hw', Hh', Hb', Hlen. done.
Qed.

Lemma get_in_range x y img :
  sound_image img -> in_image x y img ->
  get x y img = stored_color img (pixel img (x + y * w img)).
Proof.
  intros Hs [Hx Hy].
  destruct (sound_image_facts img Hs) as (Hwh & Hne & Hlen).
  destruct Hs as (Hw & Hh & Hb & Hinv & Hfit).
  destruct (pixel_offset_bounds x y img Hinv ltac:(lia) Hx Hy) as [Hlo Hhi].
  unfold get. rewrite out_of_range_false by done.
  rewrite to_int_id by (unfold INT_MAX in *; lia).
  unfold stored_color, pixel.
  rewrite take_drop_lookups by lia.
  set (P := (x + y * w img) * bpp img) in *.
  assert (Hget : forall i : nat,
            vec_get (data img) (P + Z.of_nat i)
            = data img !!! (Z.to_nat P + i)%nat).
  { intros i. unfold vec_get. f_equal. lia. }
  pose proof (Hget 0%nat) as H0. pose proof (Hget 1%nat) as H1.
  pose proof (Hget 2%nat) as H2. pose proof (Hget 3%nat) as H3.
  change (Z.of_nat 0) with 0 in H0. change (Z.of_nat 1) with 1 in H1.
  change (Z.of_nat 2) with 2 in H2. change (Z.of_nat 3) with 3 in H3.
  assert (bpp img = 1 \/ bpp img = 2 \/ bpp img = 3 \/ bpp img = 4)
    as [Hb'|[Hb'|[Hb'|Hb']]] by lia; rewrite Hb'.
  - change (reverse (seqZ 0 1)) with [0]. change (Z.to_nat 1) with 1%nat.
    cbn [fold_left seq fmap list_fmap bgra bytespp app length replicate Nat.sub].
    unfold vec_set. change (Z.to_nat 0) with 0%nat.
    cbn [insert list_insert]. by rewrite H0.
  - change (reverse (seqZ 0 2)) with [1; 0]. change (Z.to_nat 2) with 2%nat.
    cbn [fold_left seq fmap list_fmap bgra bytespp app length replicate Nat.sub].
    unfold vec_set.
    change (Z.to_nat 1) with 1%nat. change (Z.to_nat 0) with 0%nat.
    cbn [insert list_insert]. by rewrite H0, H1.
  - change (reverse (seqZ 0 3)) with [2; 1; 0]. change (Z.to_nat 3) with 3%nat.
    cbn [fold_left seq fmap list_fmap bgra bytespp app length replicate Nat.sub].
    unfold vec_set.
    change (Z.to_nat 2) with 2%nat.
    change (Z.to_nat 1) with 1%nat. change (Z.to_nat 0) with 0%nat.
    cbn [insert list_insert]. by rewrite H0, H1, H2.
  - change (reverse (seqZ 0 4)) with [3; 2; 1; 0]. change (Z.to_nat 4) with 4%nat.
    cbn [fold_left seq fmap list_fmap bgra bytespp app length replicate Nat.sub].
    unfold vec_set.
    change (Z.to_nat 3) with 3%nat. change (Z.to_nat 2) with 2%nat.
    change (Z.to_nat 1) with 1%nat. change (Z.to_nat 0) with 0%nat.
    cbn [insert list_insert]. by rewrite H0, H1, H2, H3.
Qed.

Lemma cell_number_bounds x y img :
  0 < w img -> in_image x y img -> 0 <= x + y * w img < w img * h img.
Proof. intros Hw [Hx Hy]. nia. Qed.

Lemma cell_number_inj x y x' y' img :
  in_image x y img -> in_image x' y' img ->
  x + y * w img = x' + y' * w img -> x = x' /\ y = y'.
Proof.
  intros [Hx Hy] [Hx' Hy'] Heq.
  destruct (Z.div_mod_unique (w img) y y' x x') as [-> ->]; [lia|lia|lia|done].
Qed.

Lemma pixel_inserts_same img img' k P :
  bpp img' = bpp img -> 0 <= k -> 0 <= bpp img ->
  length P = Z.to_nat (bpp img) ->
  (k + 1) * bpp img <= Z.of_nat (length (data img)) ->
  data img' = list_inserts (Z.to_nat (k * bpp img)) P (data img) ->
  pixel img' k = P.
Proof.
  intros Hb Hk Hb0 HP Hlen Hd. unfold pixel. rewrite Hb, Hd.
  rewrite list_inserts_splice by nia.
  rewrite drop_app_length' by (rewrite length_take; nia).
  by apply take_app_length'.
Qed.

Lemma pixel_inserts_other img img' k k' P :
  bpp img' = bpp img -> 0 <= k -> 0 <= k' -> k <> k' -> 0 <= bpp img ->
  length P = Z.to_nat (bpp img) ->
  data img' = list_inserts (Z.to_nat (k * bpp img)) P (data img) ->
  pixel img' k' = pixel img k'.
Proof.
  intros Hb Hk Hk' Hne Hb0 HP Hd. unfold pixel. rewrite Hb, Hd.
  apply list_eq. intros i.
  destruct (decide (i < Z.to_nat (bpp img))%nat) as [Hi|Hi].
  - rewrite !lookup_take_lt, !lookup_drop by done.
    destruct (Z.lt_ge_cases k' k).
    + apply list_lookup_inserts_lt. nia.
    + apply list_lookup_inserts_ge. nia.
  - by rewrite !lookup_take_ge by lia.
Qed.

Lemma get_default_iff_guard x y img :
  out_of_range x y img = true -> get x y img = TGAColor_default.
Proof. intros Hg. unfold get. by rewrite Hg. Qed.

Lemma out_of_range_set x y c x' y' img :
  out_of_range x' y' (set x y c img) = out_of_range x' y' img.
Proof.
  destruct (set_dims x y c img) as (Hw & Hh & _ & Hlen).
  unfold out_of_range. by rewrite Hw, Hh, Hlen.
Qed.

Lemma get_set_same_cell x y c img :
  sound_image img -> in_image x y img -> length (bgra c) = 4%nat ->
  get x y (set x y c img)
  = stored_color img (take (Z.to_nat (bpp img)) (bgra c)).
Proof.
  intros Hs Hin Hc.
  pose proof (sound_image_set x y c img Hs) as Hs'.
  destruct (set_dims x y c img) as (Hw & Hh & Hb & Hlen).
  destruct (sound_image_facts img Hs) as (Hwh & Hne & Hl).
  pose proof Hs as (Hw0 & Hh0 & Hb0 & Hinv & Hfit).
  pose proof (cell_number_bounds x y img Hw0 Hin) as Hk.
  rewrite get_in_range by (done || (unfold in_image in *; by rewrite Hw, Hh)).
  rewrite Hw. unfold stored_color. rewrite Hb.
  rewrite (pixel_inserts_same img _ (x + y * w img)
             (take (Z.to_nat (bpp img)) (bgra c))); try done; try lia.
  - rewrite length_take. lia.
  - destruct Hin. destruct (pixel_offset_bounds x y img); try done; try lia.
  - destruct Hin. apply set_in_range; (done || lia).
Qed.

Lemma get_set_other_cell x y c x' y' img :
  sound_image img -> length (bgra c) = 4%nat -> (x', y') <> (x, y) ->
  get x' y' (set x y c img) = get x' y' img.
Proof.
  intros Hs Hc Hne.
  destruct (out_of_range x y img) eqn:Hg.
  { unfold set. by rewrite Hg. }
  destruct (out_of_range x' y' img) eqn:Hg'.
  { rewrite !get_default_iff_guard; try done. by rewrite out_of_range_set. }
  assert (Hin : in_image x y img).
  { unfold out_of_range, in_image in *.
    destruct (Z.ltb_spec x 0), (Z.ltb_spec y 0), (Z.leb_spec (w img) x),
      (Z.leb_spec (h img) y); rewrite ?orb_true_r in Hg; try done; lia. }
  assert (Hin' : in_image x' y' img).
  { unfold out_of_range, in_image in *.
    destruct (Z.ltb_spec x' 0), (Z.ltb_spec y' 0), (Z.leb_spec (w img) x'),
      (Z.leb_spec (h img) y'); rewrite ?orb_true_r in Hg'; try done; lia. }
  pose proof (sound_image_set x y c img Hs) as Hs'.
  destruct (set_dims x y c img) as (Hw & Hh & Hb & Hlen).
  pose proof Hs as (Hw0 & Hh0 & Hb0 & Hinv & Hfit).
  pose proof (cell_number_bounds x y img Hw0 Hin) as Hk.
  pose proof (cell_number_bounds x' y' img Hw0 Hin') as Hk'.
  rewrite !get_in_range by (done || (unfold in_image in *; by rewrite Hw, Hh)).
  rewrite Hw. unfold stored_color. rewrite Hb.
  rewrite (pixel_inserts_other img _ (x + y * w img) (x' + y' * w img)
             (take (Z.to_nat (bpp img)) (bgra c))); try done; try lia.
  - intros Heq. apply Hne. symmetry in Heq.
    apply cell_number_inj in Heq as [-> ->]; done.
  - rewrite length_take. lia.
  - destruct Hin. apply set_in_range; (done || lia).
Qed.

Lemma set_get_same_cell x y img :
  sound_image img -> set x y (get x y img) img = img.
Proof.
  intros Hs.
  destruct (out_of_range x y img) eqn:Hg.
  { unfold set. by rewrite Hg. }
  assert (Hin : in_image x y img).
  { unfold out_of_range, in_image in *.
    destruct (Z.ltb_spec x 0), (Z.ltb_spec y 0), (Z.leb_spec (w img) x),
      (Z.leb_spec (h img) y); rewrite ?orb_true_r in Hg; try done; lia. }
  pose proof Hs as (Hw0 & Hh0 & Hb0 & Hinv & Hfit).
  destruct Hin as [Hx Hy].
  destruct (pixel_offset_bounds x y img Hinv ltac:(lia) Hx Hy) as [Hlo Hhi].
  assert (Hd : data (set x y (get x y img) img) = data img).
  { rewrite set_in_range by (done || lia).
    rewrite get_in_range by done. unfold stored_color. cbn [bgra].
    assert (Hpl : length (pixel img (x + y * w img)) = Z.to_nat (bpp img)).
    { unfold pixel. rewrite length_take, length_drop. lia. }
    rewrite take_app_length' by done.
    rewrite list_inserts_splice by lia. rewrite Hpl. unfold pixel.
    replace (Z.to_nat ((x + y * w img) * bpp img))
      with (Z.to_nat ((x + y * w img) * bpp img) + 0)%nat at 3 by lia.
    rewrite app_assoc, take_take_drop, Nat.add_0_r, take_drop. done. }
  destruct (set_dims x y (get x y img) img) as (Hw & Hh & Hb & _).
  destruct img, (set _ _ _ _). cbn in *. by subst.
Qed.

(** X1: for a cell inside the image, [get] returns the [bpp] bytes stored
    at the cell, zero-padded to four channels and tagged with the [bpp] of
    the image. *)
Theorem get_returns_stored_pixel x y img :
  sound_image img -> in_image x y img ->
  get x y img = stored_color img (pixel img (x + y * w img))
  /\ bytespp (get x y img) = bpp img
  /\ take (Z.to_nat (bpp img)) (bgra (get x y img))
     = pixel img (x + y * w img)
  /\ length (bgra (get x y img)) = 4%nat.
Proof.
  intros Hs Hin. rewrite get_in_range by done.
  destruct (sound_image_facts img Hs) as (Hwh & Hne & Hl).
  pose proof Hs as (Hw0 & Hh0 & Hb0 & Hinv & Hfit).
  destruct Hin as [Hx Hy].
  destruct (pixel_offset_bounds x y img Hinv ltac:(lia) Hx Hy) as [Hlo Hhi].
  assert (Hpl : length (pixel img (x + y * w img)) = Z.to_nat (bpp img)).
  { unfold pixel. rewrite length_take, length_drop. lia. }
  unfold stored_color. cbn [bgra bytespp].
  repeat split; try done.
  - by apply take_app_length'.
  - rewrite length_app, length_replicate. lia.
Qed.

Lemma get_returns_stored_pixel_witness :
  get 1 0 ex_rgb_2x1
  = stored_color ex_rgb_2x1 (pixel ex_rgb_2x1 (1 + 0 * w ex_rgb_2x1))
  /\ bytespp (get 1 0 ex_rgb_2x1) = bpp ex_rgb_2x1
  /\ take (Z.to_nat (bpp ex_rgb_2x1)) (bgra (get 1 0 ex_rgb_2x1))
     = pixel ex_rgb_2x1 (1 + 0 * w ex_rgb_2x1)
  /\ length (bgra (get 1 0 ex_rgb_2x1)) = 4%nat.
Proof.
  apply get_returns_stored_pixel.
  - repeat split; try reflexivity; vm_compute; discriminate.
  - split; cbn; lia.
Defined.

(** X2: what [set] writes, [get] reads back: after [set x y c] on a cell of
    the image, [get x y] returns the first [bpp] bytes of [c], zero-padded
    and tagged with the [bpp] of the image; every other coordinate pair, in
    the image or not, reads as before. *)
Theorem get_after_set x y c img :
  sound_image img -> length (bgra c) = 4%nat ->
  (in_image x y img ->
   get x y (set x y c img)
   = stored_color img (take (Z.to_nat (bpp img)) (bgra c)))
  /\ (forall x' y', (x', y') <> (x, y) ->
        get x' y' (set x y c img) = get x' y' img).
Proof.
  intros Hs Hc. split.
  - intros Hin. by apply get_set_same_cell.
  - intros x' y' Hne. by apply get_set_other_cell.
Qed.

Lemma get_after_set_witness :
  get 1 0 (set 1 0 ex_color ex_rgb_2x1)
  = stored_color ex_rgb_2x1 (take (Z.to_nat (bpp ex_rgb_2x1)) (bgra ex_color))
  /\ get 0 0 (set 1 0 ex_color ex_rgb_2x1) = get 0 0 ex_rgb_2x1.
Proof.
  destruct (get_after_set 1 0 ex_color ex_rgb_2x1) as [Hsame Hother].
  - repeat split; try reflexivity; vm_compute; discriminate.
  - reflexivity.
  - split.
    + apply Hsame. split; cbn; lia.
    + apply Hother. discriminate.
Defined.

(** X3: writing back the pixel [get] returned changes nothing, inside the
    image or outside. *)
Theorem set_of_get x y img :
  sound_image img -> set x y (get x y img) img = img.
Proof. apply set_get_same_cell. Qed.

Lemma set_of_get_witness :
  set 1 0 (get 1 0 ex_rgb_2x1) ex_rgb_2x1 = ex_rgb_2x1.
Proof.
  apply set_of_get. repeat split; try reflexivity; vm_compute; discriminate.
Defined.

(** ** The filling constructor *)

Lemma sound_image_fold_set (l : list (Z * Z)) c img :
  sound_image img ->
  sound_image (fold_left (fun img p => set p.1 p.2 c img) l img)
  /\ same_shape img (fold_left (fun img p => set p.1 p.2 c img) l img).
Proof.
  revert img. induction l as [|p l IH]; intros img Hs; [done|].
  cbn [fold_left].
  destruct (IH (set p.1 p.2 c img) (sound_image_set _ _ _ _ Hs)) as [Hs' Hsh].
  split; [done|].
  eapply same_shape_trans; [apply same_shape_set|exact Hsh].
Qed.

Lemma fold_set_get_notin (l : list (Z * Z)) c img x y :
  sound_image img -> length (bgra c) = 4%nat -> (x, y) ∉ l ->
  get x y (fold_left (fun img p => set p.1 p.2 c img) l img) = get x y img.
Proof.
  revert img. induction l as [|p l IH]; intros img Hs Hc Hnin; [done|].
  apply not_elem_of_cons in Hnin as [Hne Hnin]. cbn [fold_left].
  rewrite IH by (done || by apply sound_image_set).
  apply get_set_other_cell; try done. by destruct p.
Qed.

Lemma fold_set_get_in (l : list (Z * Z)) c img x y :
  sound_image img -> length (bgra c) = 4%nat ->
  in_image x y img -> (x, y) ∈ l ->
  get x y (fold_left (fun img p => set p.1 p.2 c img) l img)
  = stored_color img (take (Z.to_nat (bpp img)) (bgra c)).
Proof.
  revert img. induction l as [|p l IH]; intros img Hs Hc Hin Hl.
  { by apply elem_of_nil in Hl. }
  cbn [fold_left].
  destruct (set_dims p.1 p.2 c img) as (Hw & Hh & Hb & Hlen).
  destruct (decide ((x, y) ∈ l)) as [Hinl|Hninl].
  - rewrite IH; try done; [|by apply sound_image_set
                            |unfold in_image in *; by rewrite Hw, Hh].
    unfold stored_color. by rewrite Hb.
  - apply elem_of_cons in Hl as [<- | Hl]; [|done]. cbn [fst snd].
    rewrite fold_set_get_notin by (done || by apply sound_image_set).
    by apply get_set_same_cell.
Qed.

Lemma fill_rows_as_cells (rows cols : list Z) c img :
  fold_left (fun img j => fold_left (fun img i => set i j c img) cols img)
    rows img
  = fold_left (fun img p => set p.1 p.2 c img)
      (j ← rows; i ← cols; [(i, j)]) img.
Proof.
  revert img. induction rows as [|j rows IH]; intros img; [done|].
  cbn [fold_left]. rewrite bind_cons, fold_left_app, IH. f_equal.
  clear. revert img. induction cols as [|i cols IH]; intros img; [done|].
  cbn [fold_left]. rewrite bind_cons, fold_left_app. cbn [fold_left fst snd].
  apply IH.
Qed.

(** X4: the filling constructor sets every pixel to the fill colour: on the
    new image [get] returns, for every cell, the first [bpp] bytes of the
    colour, zero-padded, with the tag [bpp]. *)
Theorem TGAImage_new_filled w0 h0 bpp0 c x y :
  0 < w0 -> 0 < h0 -> 0 < bpp0 <= 4 -> w0 * h0 * bpp0 <= INT_MAX ->
  length (bgra c) = 4%nat ->
  0 <= x < w0 -> 0 <= y < h0 ->
  get x y (TGAImage_new w0 h0 bpp0 c)
  = {| bgra := take (Z.to_nat bpp0) (bgra c)
               ++ replicate (4 - Z.to_nat bpp0) x00;
       bytespp := bpp0 |}.
Proof.
  intros Hw Hh Hb Hfit Hc Hx Hy. unfold TGAImage_new.
  rewrite fill_rows_as_cells.
  assert (Hpos : 0 < w0 * h0 * bpp0)
    by (apply Z.mul_pos_pos; [apply Z.mul_pos_pos|]; lia).
  rewrite to_int_id, to_size_t_id, to_u8_id by (unfold INT_MAX in *; lia).
  set (img0 := {| w := w0; h := h0; bpp := bpp0; data := _ |}).
  assert (Hs : sound_image img0).
  { unfold sound_image, buffer_inv. subst img0. cbn [w h bpp data].
    rewrite length_replicate. repeat split; lia. }
  rewrite fold_set_get_in; try done.
  - unfold stored_color. subst img0. cbn [bpp].
    rewrite length_take. do 3 f_equal. lia.
  - apply list_elem_of_bind. exists y. split; [|apply elem_of_seqZ; lia].
    apply list_elem_of_bind. exists x. split; [|apply elem_of_seqZ; lia].
    by apply list_elem_of_singleton.
Qed.

Lemma TGAImage_new_filled_witness :
  get 1 1 (TGAImage_new 2 2 3 ex_color)
  = {| bgra := take (Z.to_nat 3) (bgra ex_color)
               ++ replicate (4 - Z.to_nat 3) x00;
       bytespp := 3 |}.
Proof.
  apply TGAImage_new_filled; try reflexivity; try lia.
  vm_compute. discriminate.
Defined.

(** ** Flips, seen through [get] *)

Lemma out_of_range_false_inv x y img :
  out_of_range x y img = false -> in_image x y img.
Proof.
  unfold out_of_range, in_image. intros Hg.
  destruct (Z.ltb_spec x 0), (Z.ltb_spec y 0), (Z.leb_spec (w img) x),
    (Z.leb_spec (h img) y); rewrite ?orb_true_r in Hg; try done; lia.
Qed.

Lemma out_of_range_true_inv x y img :
  data img <> [] -> out_of_range x y img = true -> ~ in_image x y img.
Proof.
  intros Hne Hg [Hx Hy]. by rewrite out_of_range_false in Hg.
Qed.

Lemma sound_image_same_shape img img' :
  same_shape img img' -> sound_image img -> sound_image img'.
Proof.
  unfold same_shape, sound_image, buffer_inv.
  intros (-> & -> & -> & ->). done.
Qed.

Lemma get_same_pixels x y x' y' img img' :
  sound_image img -> same_shape img img' ->
  (in_image x y img <-> in_image x' y' img) ->
  (in_image x y img ->
   pixel img' (x + y * w img) = pixel img (x' + y' * w img)) ->
  get x y img' = get x' y' img.
Proof.
  intros Hs Hsh Hiff Hpix.
  pose proof (sound_image_same_shape _ _ Hsh Hs) as Hs'.
  destruct (sound_image_facts img Hs) as (_ & Hne & _).
  destruct (sound_image_facts img' Hs') as (_ & Hne' & _).
  destruct Hsh as (Hw & Hh & Hb & Hlen).
  destruct (out_of_range x y img') eqn:Hg.
  - apply out_of_range_true_inv in Hg as Hnin; [|done].
    unfold in_image in Hnin. rewrite Hw, Hh in Hnin.
    rewrite get_default_iff_guard by done. symmetry.
    apply get_default_iff_guard.
    destruct (out_of_range x' y' img) eqn:Hg'; [done|].
    apply out_of_range_false_inv in Hg'. by apply Hiff in Hg'.
  - apply out_of_range_false_inv in Hg as Hin.
    unfold in_image in Hin. rewrite Hw, Hh in Hin.
    rewrite !get_in_range; try done; [| by apply Hiff
                                     | unfold in_image; by rewrite Hw, Hh].
    rewrite Hw, Hpix by done. unfold stored_color. by rewrite Hb.
Qed.

Lemma pixel_flip_vertically x y img :
  sound_image img -> in_image x y img ->
  pixel (flip_vertically img) (x + y * w img)
  = pixel img (x + (h img - 1 - y) * w img).
Proof.
  intros (Hw & Hh & Hb & Hinv & Hfit) [Hx Hy].
  apply list_eq. intros i.
  destruct (decide (i < Z.to_nat (bpp img))%nat) as [Hi|Hi].
  - rewrite !pixel_lookup; cbn [bpp flip_vertically with_data]; try lia;
      try nia.
    apply (flip_vertically_lookup img Hinv Hfit x y (Z.of_nat i)); lia.
  - unfold pixel. cbn [bpp flip_vertically with_data].
    by rewrite !lookup_take_ge by lia.
Qed.

Lemma pixel_flip_horizontally x y img :
  sound_image img -> in_image x y img ->
  pixel (flip_horizontally img) (x + y * w img)
  = pixel img (w img - 1 - x + y * w img).
Proof.
  intros (Hw & Hh & Hb & Hinv & Hfit) [Hx Hy].
  apply list_eq. intros i.
  destruct (decide (i < Z.to_nat (bpp img))%nat) as [Hi|Hi].
  - rewrite !pixel_lookup; cbn [bpp flip_horizontally with_data]; try lia;
      try nia.
    apply (flip_horizontally_lookup img Hinv Hfit x y (Z.of_nat i)); lia.
  - unfold pixel. cbn [bpp flip_horizontally with_data].
    by rewrite !lookup_take_ge by lia.
Qed.

Lemma get_flip_vertically x y img :
  sound_image img ->
  get x y (flip_vertically img) = get x (h img - 1 - y) img.
Proof.
  intros Hs. apply get_same_pixels; try done.
  - apply same_shape_flip_vertically.
  - unfold in_image. lia.
  - intros Hin. by apply pixel_flip_vertically.
Qed.

Lemma get_flip_horizontally x y img :
  sound_image img ->
  get x y (flip_horizontally img) = get (w img - 1 - x) y img.
Proof.
  intros Hs. apply get_same_pixels; try done.
  - apply same_shape_flip_horizontally.
  - unfold in_image. lia.
  - intros Hin. by apply pixel_flip_horizontally.
Qed.

(** X5: [flip_vertically] mirrors the rows: the pixel at [(x,y)] of the
    flipped image is the pixel at [(x, h-1-y)] of the original, for every
    coordinate pair (out of the image both are the default pixel). *)
Theorem flip_vertically_mirrors_rows x y img :
  sound_image img ->
  get x y (flip_vertically img) = get x (h img - 1 - y) img.
Proof. apply get_flip_vertically. Qed.

Lemma flip_vertically_mirrors_rows_witness :
  get 1 0 (flip_vertically ex_gray_2x3) = get 1 (h ex_gray_2x3 - 1 - 0) ex_gray_2x3.
Proof.
  apply flip_vertically_mirrors_rows.
  repeat split; try reflexivity; vm_compute; discriminate.
Defined.

(** X6: [flip_horizontally] mirrors the columns: the pixel at [(x,y)] of
    the flipped image is the pixel at [(w-1-x, y)] of the original, for every
    coordinate pair. *)
Theorem flip_horizontally_mirrors_columns x y img :
  sound_image img ->
  get x y (flip_horizontally img) = get (w img - 1 - x) y img.
Proof. apply get_flip_horizontally. Qed.

Lemma flip_horizontally_mirrors_columns_witness :
  get 0 2 (flip_horizontally ex_gray_2x3) = get (w ex_gray_2x3 - 1 - 0) 2 ex_gray_2x3.
Proof.
  apply flip_horizontally_mirrors_columns.
  repeat split; try reflexivity; vm_compute; discriminate.
Defined.

Lemma index_cell img i :
  0 < w img -> 0 < bpp img -> 0 <= i < w img * h img * bpp img ->
  exists c r b,
    0 <= c < w img /\ 0 <= r < h img /\ 0 <= b < bpp img
    /\ i = cell_index img c r b.
Proof.
  intros Hw Hb Hi.
  exists ((i / bpp img) mod w img), (i / bpp img / w img), (i mod bpp img).
  pose proof (Z.mod_pos_bound i (bpp img) Hb).
  pose proof (Z.mod_pos_bound (i / bpp img) (w img) Hw).
  pose proof (Z.div_mod i (bpp img) ltac:(lia)) as Hi1.
  pose proof (Z.div_mod (i / bpp img) (w img) ltac:(lia)) as Hi2.
  assert (0 <= i / bpp img) by (apply Z.div_pos; lia).
  assert (0 <= i / bpp img / w img) by (apply Z.div_pos; lia).
  assert (i / bpp img < w img * h img)
    by (apply Z.div_lt_upper_bound; lia).
  assert (i / bpp img / w img < h img)
    by (apply Z.div_lt_upper_bound; lia).
  unfold cell_index. repeat split; try lia.
Qed.

Lemma data_eq_by_cells img (d1 d2 : list byte) :
  sound_image img ->
  length d1 = length (data img) -> length d2 = length (data img) ->
  (forall c r b,
     0 <= c < w img -> 0 <= r < h img -> 0 <= b < bpp img ->
     d1 !! Z.to_nat (cell_index img c r b)
     = d2 !! Z.to_nat (cell_index img c r b)) ->
  d1 = d2.
Proof.
  intros Hs H1 H2 Hcells.
  destruct (sound_image_facts img Hs) as (_ & _ & Hlen).
  destruct Hs as (Hw & Hh & Hb & _ & _).
  apply list_eq. intros i.
  destruct (decide (i < length (data img))%nat) as [Hi|Hi].
  - destruct (index_cell img (Z.of_nat i)) as (c & r & b & Hc & Hr & Hb' & Heq);
      try lia.
    specialize (Hcells c r b Hc Hr Hb'). rewrite <-Heq, Nat2Z.id in Hcells.
    done.
  - by rewrite !lookup_ge_None_2 by lia.
Qed.

Lemma sound_image_flip_vertically img :
  sound_image img -> sound_image (flip_vertically img).
Proof. apply sound_image_same_shape, same_shape_flip_vertically. Qed.

Lemma sound_image_flip_horizontally img :
  sound_image img -> sound_image (flip_horizontally img).
Proof. apply sound_image_same_shape, same_shape_flip_horizontally. Qed.

Lemma flips_lookup_hv img c r b :
  sound_image img ->
  0 <= c < w img -> 0 <= r < h img -> 0 <= b < bpp img ->
  data (flip_horizontally (flip_vertically img)) !! Z.to_nat (cell_index img c r b)
  = data img !! Z.to_nat (cell_index img (w img - 1 - c) (h img - 1 - r) b).
Proof.
  intros Hs Hc Hr Hb.
  pose proof (sound_image_flip_vertically img Hs) as (_ & _ & _ & Hinv' & Hfit').
  destruct Hs as (_ & _ & _ & Hinv & Hfit).
  rewrite <-(flip_vertically_lookup img Hinv Hfit) by lia.
  apply (flip_horizontally_lookup (flip_vertically img) Hinv' Hfit' c r b);
    done.
Qed.

Lemma flips_lookup_vh img c r b :
  sound_image img ->
  0 <= c < w img -> 0 <= r < h img -> 0 <= b < bpp img ->
  data (flip_vertically (flip_horizontally img)) !! Z.to_nat (cell_index img c r b)
  = data img !! Z.to_nat (cell_index img (w img - 1 - c) (h img - 1 - r) b).
Proof.
  intros Hs Hc Hr Hb.
  pose proof (sound_image_flip_horizontally img Hs) as (_ & _ & _ & Hinv' & Hfit').
  destruct Hs as (_ & _ & _ & Hinv & Hfit).
  rewrite <-(flip_horizontally_lookup img Hinv Hfit) by lia.
  apply (flip_vertically_lookup (flip_horizontally img) Hinv' Hfit' c r b);
    done.
Qed.

(** X7: the two flips commute, and together they turn the image by half a
    turn: the pixel at [(x,y)] is the pixel at [(w-1-x, h-1-y)] of the
    original. *)
Theorem flips_commute img :
  sound_image img ->
  flip_horizontally (flip_vertically img)
  = flip_vertically (flip_horizontally img)
  /\ forall x y,
       get x y (flip_horizontally (flip_vertically img))
       = get (w img - 1 - x) (h img - 1 - y) img.
Proof.
  intros Hs. split.
  - assert (Hd : data (flip_horizontally (flip_vertically img))
                 = data (flip_vertically (flip_horizontally img))).
    { apply (data_eq_by_cells img); try done.
      - cbn. by rewrite !length_apply_swaps.
      - cbn. by rewrite !length_apply_swaps.
      - intros c r b Hc Hr Hb.
        by rewrite flips_lookup_hv, flips_lookup_vh. }
    unfold flip_horizontally, flip_vertically, with_data in *.
    cbn [w h bpp data] in *. by rewrite Hd.
  - intros x y.
    rewrite get_flip_horizontally by by apply sound_image_flip_vertically.
    rewrite get_flip_vertically by done. done.
Qed.

Lemma flips_commute_witness :
  flip_horizontally (flip_vertically ex_gray_2x3)
  = flip_vertically (flip_horizontally ex_gray_2x3)
  /\ forall x y,
       get x y (flip_horizontally (flip_vertically ex_gray_2x3))
       = get (w ex_gray_2x3 - 1 - x) (h ex_gray_2x3 - 1 - y) ex_gray_2x3.
Proof.
  apply flips_commute.
  repeat split; try reflexivity; vm_compute; discriminate.
Defined.

(** ** Reading raw files *)

Lemma read_raw_stream hbytes pixels t :
  let hd := TGAHeader.of_bytes hbytes in
  length hbytes = 18%nat ->
  TGAHeader.datatypecode hd = 2 \/ TGAHeader.datatypecode hd = 3 ->
  0 < TGAHeader.width hd -> 0 < TGAHeader.height hd ->
  valid_bpp (header_bpp hd) ->
  TGAHeader.width hd * TGAHeader.height hd * header_bpp hd <= INT_MAX ->
  Z.of_nat (length pixels)
  = TGAHeader.width hd * TGAHeader.height hd * header_bpp hd ->
  sound_image (file_image hd pixels)
  /\ read_tga_stream (hbytes ++ pixels ++ t)
     = Done
         (let img := if Z.land (TGAHeader.imagedescriptor hd) 0x20 =? 0
                     then flip_vertically (file_image hd pixels)
                     else file_image hd pixels in
          if negb (Z.land (TGAHeader.imagedescriptor hd) 0x10 =? 0)
          then flip_horizontally img else img).
Proof.
  intros hd Hlen Hcode Hw Hh Hb Hfit Hpix.
  assert (Hb' : 0 < header_bpp hd <= 4)
    by (unfold valid_bpp, GRAYSCALE, RGB, RGBA in Hb; lia).
  assert (Hs : sound_image (file_image hd pixels)).
  { unfold sound_image, buffer_inv, file_image. cbn [w h bpp data].
    repeat split; try lia. }
  split; [done|].
  unfold read_tga_stream.
  rewrite stream_read_app by (unfold TGAHeader.sizeof; lia).
  fold hd. fold (header_bpp hd).
  destruct (Z.leb_spec (TGAHeader.width hd) 0); [lia|].
  destruct (Z.leb_spec (TGAHeader.height hd) 0); [lia|].
  replace (negb (header_bpp hd =? GRAYSCALE) && negb (header_bpp hd =? RGB)
           && negb (header_bpp hd =? RGBA)) with false
    by (unfold valid_bpp in Hb; destruct Hb as [-> | [-> | ->]]; done).
  cbn [orb].
  assert (Hpos : 0 < TGAHeader.width hd * TGAHeader.height hd * header_bpp hd)
    by (apply Z.mul_pos_pos; [apply Z.mul_pos_pos|]; lia).
  rewrite to_int_id, to_size_t_id by (unfold INT_MAX in *; lia).
  unfold read_pixels. cbn [w h bpp data].
  replace ((TGAHeader.datatypecode hd =? 3) || (TGAHeader.datatypecode hd =? 2))
    with true by (destruct Hcode as [-> | ->]; done).
  rewrite to_int_id, to_size_t_id by (unfold INT_MAX in *; lia).
  rewrite stream_read_app by lia.
  rewrite memcpy_whole by (rewrite ?length_replicate; lia).
  rewrite bind_Done. done.
Qed.

(** X8: a raw file (type 2 or 3) with a valid header, whose size
    [width*height*bpp] fits an [int], and all its pixel data is read whatever
    follows the data (the footer is not looked at), and the orientation bits
    of the descriptor decide where each pixel of the file lands: the rows are
    mirrored unless bit 0x20 is set, the columns are mirrored if bit 0x10 is
    set. *)
Theorem read_raw_orientation hbytes pixels t :
  let hd := TGAHeader.of_bytes hbytes in
  length hbytes = 18%nat ->
  TGAHeader.datatypecode hd = 2 \/ TGAHeader.datatypecode hd = 3 ->
  0 < TGAHeader.width hd -> 0 < TGAHeader.height hd ->
  valid_bpp (header_bpp hd) ->
  TGAHeader.width hd * TGAHeader.height hd * header_bpp hd <= INT_MAX ->
  Z.of_nat (length pixels)
  = TGAHeader.width hd * TGAHeader.height hd * header_bpp hd ->
  exists img,
    read_tga_stream (hbytes ++ pixels ++ t) = Done img
    /\ same_shape (file_image hd pixels) img
    /\ forall x y,
         get x y img
         = get (if Z.land (TGAHeader.imagedescriptor hd) 0x10 =? 0
                then x else TGAHeader.width hd - 1 - x)
               (if Z.land (TGAHeader.imagedescriptor hd) 0x20 =? 0
                then TGAHeader.height hd - 1 - y else y)
               (file_image hd pixels).
Proof.
  intros hd Hlen Hcode Hw Hh Hb Hfit Hpix.
  destruct (read_raw_stream hbytes pixels t Hlen Hcode Hw Hh Hb Hfit Hpix)
    as [Hs Hread].
  fold hd in Hs, Hread. eexists. split; [exact Hread|].
  pose proof (sound_image_flip_vertically _ Hs) as Hsv.
  cbv zeta.
  destruct (Z.land (TGAHeader.imagedescriptor hd) 32 =? 0),
    (Z.land (TGAHeader.imagedescriptor hd) 16 =? 0); cbn [negb].
  - split; [apply same_shape_flip_vertically|]. intros x y.
    by rewrite get_flip_vertically.
  - split.
    { eapply same_shape_trans; [apply same_shape_flip_vertically
                               |apply same_shape_flip_horizontally]. }
    intros x y. rewrite get_flip_horizontally, get_flip_vertically by done.
    done.
  - split; [apply same_shape_refl|]. done.
  - split; [apply same_shape_flip_horizontally|]. intros x y.
    by rewrite get_flip_horizontally.
Qed.

Lemma read_raw_orientation_witness :
  exists img,
    read_tga_stream (take 18 ex_file_raw ++ [x01; x02; x03; x04; x05; x06] ++ [])
    = Done img
    /\ same_shape
         (file_image (TGAHeader.of_bytes (take 18 ex_file_raw))
            [x01; x02; x03; x04; x05; x06]) img
    /\ forall x y,
         get x y img
         = get (if Z.land (TGAHeader.imagedescriptor
                             (TGAHeader.of_bytes (take 18 ex_file_raw))) 0x10 =? 0
                then x
                else TGAHeader.width (TGAHeader.of_bytes (take 18 ex_file_raw))
                     - 1 - x)
               (if Z.land (TGAHeader.imagedescriptor
                             (TGAHeader.of_bytes (take 18 ex_file_raw))) 0x20 =? 0
                then TGAHeader.height (TGAHeader.of_bytes (take 18 ex_file_raw))
                     - 1 - y
                else y)
               (file_image (TGAHeader.of_bytes (take 18 ex_file_raw))
                  [x01; x02; x03; x04; x05; x06]).
Proof.
  apply (read_raw_orientation (take 18 ex_file_raw)
           [x01; x02; x03; x04; x05; x06] []); try reflexivity.
  - right. reflexivity.
  - left. reflexivity.
  - vm_compute. discriminate.
Defined.

Lemma of_le16_range lo hi : 0 <= TGAHeader.of_le16 lo hi < 65536.
Proof.
  unfold TGAHeader.of_le16.
  pose proof (Z_of_byte_range lo). pose proof (Z_of_byte_range hi). lia.
Qed.

Lemma header_dims_range bs :
  0 <= TGAHeader.width (TGAHeader.of_bytes bs) < 65536
  /\ 0 <= TGAHeader.height (TGAHeader.of_bytes bs) < 65536.
Proof.
  unfold TGAHeader.of_bytes.
  repeat (destruct bs as [|? bs]; [cbn; lia|]).
  destruct bs; [|cbn; lia]. cbn. split; apply of_le16_range.
Qed.

(** X9: [read_tga_file] returns [false] with its own diagnostic when the
    file is shorter than the 18 bytes of the header, and when a raw file
    with a valid header, whose size [width*height*bpp] fits an [int], holds
    fewer than [width*height*bpp] bytes of pixel data. *)
Theorem read_rejects_short_files :
  (forall file,
     (length file < 18)%nat ->
     read_tga_stream file = Failed [error_reading_header])
  /\ (forall hbytes pixels,
        let hd := TGAHeader.of_bytes hbytes in
        length hbytes = 18%nat ->
        TGAHeader.datatypecode hd = 2 \/ TGAHeader.datatypecode hd = 3 ->
        0 < TGAHeader.width hd -> 0 < TGAHeader.height hd ->
        valid_bpp (header_bpp hd) ->
        TGAHeader.width hd * TGAHeader.height hd * header_bpp hd <= INT_MAX ->
        Z.of_nat (length pixels)
        < TGAHeader.width hd * TGAHeader.height hd * header_bpp hd ->
        read_tga_stream (hbytes ++ pixels) = Failed [error_reading_data]).
Proof.
  split.
  - intros file Hlen. unfold read_tga_stream.
    rewrite stream_read_None; [done|]. unfold TGAHeader.sizeof. lia.
  - intros hbytes pixels hd Hlen Hcode Hw Hh Hb Hfit Hpix.
    assert (Hb' : 0 < header_bpp hd <= 4)
      by (unfold valid_bpp, GRAYSCALE, RGB, RGBA in Hb; lia).
    unfold read_tga_stream.
    rewrite stream_read_app by (unfold TGAHeader.sizeof; lia).
    fold hd. fold (header_bpp hd).
    destruct (Z.leb_spec (TGAHeader.width hd) 0); [lia|].
    destruct (Z.leb_spec (TGAHeader.height hd) 0); [lia|].
    replace (negb (header_bpp hd =? GRAYSCALE) && negb (header_bpp hd =? RGB)
             && negb (header_bpp hd =? RGBA)) with false
      by (unfold valid_bpp in Hb; destruct Hb as [-> | [-> | ->]]; done).
    cbn [orb].
    assert (Hpos : 0 < TGAHeader.width hd * TGAHeader.height hd * header_bpp hd)
      by (apply Z.mul_pos_pos; [apply Z.mul_pos_pos|]; lia).
    rewrite to_int_id, to_size_t_id by (unfold INT_MAX in *; lia).
    unfold read_pixels. cbn [w h bpp data].
    replace ((TGAHeader.datatypecode hd =? 3) || (TGAHeader.datatypecode hd =? 2))
      with true by (destruct Hcode as [-> | ->]; done).
    rewrite to_int_id, to_size_t_id by (unfold INT_MAX in *; lia).
    by rewrite stream_read_None.
Qed.

Lemma read_rejects_short_files_witness :
  read_tga_stream [x00; x00; x02] = Failed [error_reading_header]
  /\ read_tga_stream (ex_header_raw_2x3 ++ [x01; x02; x03; x04; x05])
     = Failed [error_reading_data].
Proof.
  destruct read_rejects_short_files as (Hhead & Hdata).
  split.
  - apply Hhead. cbn. lia.
  - apply Hdata; try reflexivity.
    + right. reflexivity.
    + left. reflexivity.
    + vm_compute. discriminate.
Defined.

(** X10: what a successful read guarantees: the file held at least the 18
    header bytes, its type code is 2, 3, 10 or 11, the dimensions of the
    image are those of the header and lie between 1 and 65535, and the pixel
    size is 1, 3 or 4 bytes. *)
Theorem read_success_requires file img :
  read_tga_stream file = Done img ->
  let hd := TGAHeader.of_bytes (take 18 file) in
  (18 <= length file)%nat
  /\ (TGAHeader.datatypecode hd = 2 \/ TGAHeader.datatypecode hd = 3
      \/ TGAHeader.datatypecode hd = 10 \/ TGAHeader.datatypecode hd = 11)
  /\ w img = TGAHeader.width hd /\ h img = TGAHeader.height hd
  /\ bpp img = header_bpp hd
  /\ 0 < w img < 65536 /\ 0 < h img < 65536 /\ valid_bpp (bpp img).
Proof.
  intros Hr hd. unfold read_tga_stream in Hr.
  destruct (stream_read TGAHeader.sizeof file) as [[hbytes s]|] eqn:Hrd; [|done].
  apply stream_read_inv in Hrd as (Hhb & _ & _ & Hlen); [|done].
  unfold TGAHeader.sizeof in *. change (Z.to_nat 18) with 18%nat in Hhb.
  subst hbytes. fold hd in Hr. fold (header_bpp hd) in Hr.
  destruct (header_dims_range (take 18 file)) as [Hwr Hhr]. fold hd in Hwr, Hhr.
  destruct (Z.leb_spec (TGAHeader.width hd) 0); [done|].
  destruct (Z.leb_spec (TGAHeader.height hd) 0); [done|].
  cbn [orb] in Hr.
  assert (Hb : valid_bpp (header_bpp hd)).
  { unfold valid_bpp.
    destruct (Z.eqb_spec (header_bpp hd) GRAYSCALE); [by left|].
    destruct (Z.eqb_spec (header_bpp hd) RGB); [by right; left|].
    destruct (Z.eqb_spec (header_bpp hd) RGBA); [by right; right|]. done. }
  replace (negb (header_bpp hd =? GRAYSCALE) && negb (header_bpp hd =? RGB)
           && negb (header_bpp hd =? RGBA)) with false in Hr
    by (unfold valid_bpp in Hb; destruct Hb as [-> | [-> | ->]]; done).
  apply bind_Done_inv in Hr as (img1 & Hp & Hr).
  assert (Hcode : TGAHeader.datatypecode hd = 2 \/ TGAHeader.datatypecode hd = 3
      \/ TGAHeader.datatypecode hd = 10 \/ TGAHeader.datatypecode hd = 11).
  { unfold read_pixels in Hp.
    destruct (Z.eqb_spec (TGAHeader.datatypecode hd) 3); [tauto|].
    destruct (Z.eqb_spec (TGAHeader.datatypecode hd) 2); [tauto|].
    destruct (Z.eqb_spec (TGAHeader.datatypecode hd) 10); [tauto|].
    destruct (Z.eqb_spec (TGAHeader.datatypecode hd) 11); [tauto|]. done. }
  apply read_pixels_inv in Hp;
    [|cbn [bpp]; unfold valid_bpp, GRAYSCALE, RGB, RGBA in Hb; lia].
  assert (Hs : same_shape img1 img)
    by (injection Hr as <-; apply same_shape_normalize).
  destruct (same_shape_trans _ _ _ Hp Hs) as (Hw' & Hh' & Hb' & _).
  cbn [w h bpp] in *. rewrite Hw', Hh', Hb'.
  repeat split; try done; lia.
Qed.

Lemma read_success_requires_witness :
  (18 <= length ex_file_raw)%nat
  /\ w (flip_vertically ex_gray_2x3)
     = TGAHeader.width (TGAHeader.of_bytes (take 18 ex_file_raw))
  /\ valid_bpp (bpp (flip_vertically ex_gray_2x3)).
Proof.
  destruct (read_success_requires ex_file_raw (flip_vertically ex_gray_2x3))
    as (Hlen & _ & Hw & _ & _ & _ & _ & Hb).
  - vm_compute. reflexivity.
  - done.
Defined.

(** ** The packets of the encoder *)

Section greedy.
Context (img : TGAImage).
Hypothesis Hv : valid_image img.

Let N : Z := w img * h img.

Lemma succ_eq_adjacent k :
  0 <= k -> k + 2 <= N ->
  succ_eq img (k * bpp img) = true <-> adjacent_equal img k.
Proof. apply (succ_eq_pixel img Hv). Qed.

Lemma scan_run_greedy fuel curpix r raw raw' n :
  0 <= curpix -> 1 <= r <= 128 -> curpix + r <= N ->
  (raw = false -> 2 <= r) ->
  (forall k, 0 <= k < r - 1 ->
     if raw then ~ adjacent_equal img (curpix + k)
     else adjacent_equal img (curpix + k)) ->
  scan_run fuel img N curpix ((curpix + r - 1) * bpp img) r raw = Done (raw', n) ->
  run_greedy img N curpix raw' n.
Proof.
  intros Hc. revert r raw.
  induction fuel as [|fuel IH]; intros r raw Hr HrN Hraw Hadj; [done|].
  cbn [scan_run]. unfold max_chunk_length.
  assert (Hexit : Done (raw, r) = Done (raw', n) ->
                  (curpix + r < N -> r < 128 -> False) ->
                  run_greedy img N curpix raw' n).
  { intros Hd Hguard. injection Hd as <- <-. unfold run_greedy.
    split; [lia|]. split; [lia|]. destruct raw.
    - split; [exact Hadj|]. intros. exfalso. by apply Hguard.
    - split; [by apply Hraw|]. split; [exact Hadj|].
      intros. exfalso. by apply Hguard. }
  destruct (Z.ltb_spec (curpix + r) N); cbn [andb];
    [destruct (Z.ltb_spec r 128); cbn [andb]|];
    try (intros Hd; apply Hexit; [done|lia]).
  clear Hexit.
  pose proof (succ_eq_adjacent (curpix + r - 1) ltac:(lia) ltac:(lia)) as Hse.
  replace ((curpix + r - 1) * bpp img + bpp img)
    with ((curpix + (r + 1) - 1) * bpp img) by ring.
  rewrite !to_u8_id by lia.
  destruct (succ_eq img _) eqn:Hsucc.
  - (* the next pixel equals the last one of the run *)
    assert (Heq : adjacent_equal img (curpix + r - 1)) by by apply Hse.
    destruct (Z.eqb_spec r 1) as [->|Hr1]; cbn [negb andb].
    + apply IH; try lia. intros k Hk.
      replace (curpix + k) with (curpix + 1 - 1) by lia. done.
    + destruct raw; cbn [negb andb].
      * intros Hd. injection Hd as <- <-. unfold run_greedy.
        split; [lia|]. split; [lia|]. split.
        { intros k Hk. apply (Hadj k). lia. }
        intros _ _. split; [|split].
        -- replace (curpix + (r - 1) - 1) with (curpix + (r - 2)) by lia.
           apply (Hadj (r - 2)). lia.
        -- lia.
        -- replace (curpix + (r - 1)) with (curpix + r - 1) by lia. done.
      * apply IH; try lia. intros k Hk.
        destruct (decide (k = r - 1)) as [->|].
        -- replace (curpix + (r - 1)) with (curpix + r - 1) by lia. done.
        -- apply (Hadj k). lia.
  - (* the next pixel differs *)
    assert (Hneq : ~ adjacent_equal img (curpix + r - 1)).
    { intros Heq. apply Hse in Heq. congruence. }
    destruct (Z.eqb_spec r 1) as [->|Hr1]; cbn [negb andb].
    + apply IH; try lia; try done. intros k Hk.
      replace (curpix + k) with (curpix + 1 - 1) by lia. done.
    + destruct raw; cbn [negb andb].
      * apply IH; try lia; try done. intros k Hk.
        destruct (decide (k = r - 1)) as [->|].
        -- replace (curpix + (r - 1)) with (curpix + r - 1) by lia. done.
        -- apply (Hadj k). lia.
      * intros Hd. injection Hd as <- <-. unfold run_greedy.
        split; [lia|]. split; [lia|]. split; [by apply Hraw|].
        split; [exact Hadj|]. intros _ _. done.
Qed.

Lemma unload_rle_loop_greedy fuel curpix cs :
  unload_rle_loop fuel img N curpix = Done cs -> 0 <= curpix <= N ->
  chunks_greedy img N curpix cs.
Proof.
  destruct (encoder_facts img Hv) as (Hb & HN & Hlen & Hfit). fold N in Hlen.
  revert curpix cs.
  induction fuel as [|fuel IH]; intros curpix cs Hun Hc; [done|].
  cbn [unload_rle_loop] in Hun.
  destruct (Z.ltb_spec curpix N).
  - rewrite to_size_t_id in Hun by (unfold INT_MAX in *; nia).
    apply bind_Done_inv in Hun as ([raw n] & Hscan & Hun).
    apply bind_Done_inv in Hun as (cs' & Hrest & Hun).
    injection Hun as <-.
    replace (curpix * bpp img) with ((curpix + 1 - 1) * bpp img) in Hscan
      by (f_equal; lia).
    apply scan_run_greedy in Hscan; try done; try lia.
    cbn [chunks_greedy ch_raw ch_len ch_start].
    split; [done|]. split; [done|].
    apply IH; [done|]. destruct Hscan as (? & ? & _). lia.
  - injection Hun as <-. cbn. lia.
Qed.

Lemma chunks_greedy_size curpix cs :
  chunks_greedy img N curpix cs ->
  curpix <= N
  /\ Z.of_nat (length (concat (chunk_bytes img <$> cs)))
     <= (N - curpix) * (bpp img + 1).
Proof.
  destruct (encoder_facts img Hv) as (Hb & HN & Hlen & Hfit).
  revert curpix. induction cs as [|c cs IH]; intros curpix Hg.
  { cbn in *. lia. }
  destruct Hg as (Hstart & (Hn & HnN & Hrun) & Hrest).
  apply IH in Hrest as [Hle Hsize].
  rewrite fmap_cons, concat_cons, length_app. unfold chunk_bytes at 1.
  cbn [length]. unfold chunk_payload. rewrite length_take.
  split; [lia|].
  destruct (ch_raw c).
  - nia.
  - destruct Hrun as (Hn2 & _). nia.
Qed.

End greedy.

Lemma unload_rle_chunks_greedy img :
  valid_image img ->
  exists cs,
    unload_rle_chunks img = Done cs
    /\ unload_rle_data img = Done (concat (chunk_bytes img <$> cs))
    /\ chunks_greedy img (w img * h img) 0 cs.
Proof.
  intros Hv.
  destruct (valid_image_facts img Hv) as (_ & Hwh & Hpc & _).
  destruct (unload_rle_chunks_Done img) as (cs & Hcs & _ & _).
  exists cs. split; [done|]. split.
  { unfold unload_rle_data. by rewrite Hcs. }
  unfold unload_rle_chunks in Hcs. rewrite Hpc in Hcs.
  apply (unload_rle_loop_greedy img Hv) in Hcs; [done|lia].
Qed.

(** X11: on every valid image the encoder cuts the pixel sequence into
    consecutive packets that end exactly at the last pixel, each formed
    greedily: a raw packet holds no two equal neighbours and, unless it is
    full or ends the image, stops right before a pair of equal pixels; a
    repeated packet holds equal pixels only and, unless it is full or ends
    the image, is followed by a different pixel. *)
Theorem unload_rle_packets_greedy img :
  valid_image img ->
  exists cs,
    unload_rle_chunks img = Done cs
    /\ unload_rle_data img = Done (concat (chunk_bytes img <$> cs))
    /\ chunks_greedy img (w img * h img) 0 cs.
Proof. apply unload_rle_chunks_greedy. Qed.

Lemma unload_rle_packets_greedy_witness :
  exists cs,
    unload_rle_chunks ex_boundary = Done cs
    /\ unload_rle_data ex_boundary = Done (concat (chunk_bytes ex_boundary <$> cs))
    /\ chunks_greedy ex_boundary (w ex_boundary * h ex_boundary) 0 cs.
Proof.
  apply unload_rle_packets_greedy.
  repeat split; try reflexivity; [left; reflexivity | vm_compute; discriminate].
Defined.

(** X12: the size of a written file.  Without RLE it is the 18 bytes of
    the header, the [w*h*bpp] bytes of the buffer and the 26 bytes of the
    footer; with RLE the pixel stream never takes more than [bpp+1] bytes
    per pixel. *)
Theorem written_file_size vflip rle img :
  valid_image img ->
  exists file,
    tga_file_bytes vflip rle img = Done file
    /\ (rle = false ->
        Z.of_nat (length file) = 18 + w img * h img * bpp img + 26)
    /\ (rle = true ->
        Z.of_nat (length file) <= 18 + w img * h img * (bpp img + 1) + 26).
Proof.
  intros Hv.
  destruct (valid_image_facts img Hv) as (Hb & Hwh & Hpc & Hnb & Hint & Hlen).
  unfold tga_file_bytes. destruct rle; cbn [negb].
  - destruct (unload_rle_chunks_greedy img Hv) as (cs & _ & -> & Hg).
    apply (chunks_greedy_size img Hv) in Hg as [_ Hsize].
    rewrite Z.sub_0_r in Hsize.
    rewrite bind_Done. eexists. split; [done|]. split; [done|]. intros _.
    rewrite !length_app, header_to_bytes_length.
    unfold developer_area_ref, extension_area_ref, footer. cbn [length]. lia.
  - rewrite bind_Done. eexists. split; [done|]. split; [|done]. intros _.
    rewrite !length_app, header_to_bytes_length, length_take.
    unfold developer_area_ref, extension_area_ref, footer. cbn [length]. lia.
Qed.

Lemma written_file_size_witness :
  exists file,
    tga_file_bytes true true ex_boundary = Done file
    /\ (true = false ->
        Z.of_nat (length file)
        = 18 + w ex_boundary * h ex_boundary * bpp ex_boundary + 26)
    /\ (true = true ->
        Z.of_nat (length file)
        <= 18 + w ex_boundary * h ex_boundary * (bpp ex_boundary + 1) + 26).
Proof.
  apply written_file_size.
  repeat split; try reflexivity; [left; reflexivity | vm_compute; discriminate].
Defined.

(** ** The ways the RLE decoder ends *)

Lemma store_count_outcome pixelcount px st :
  px <> [] ->
  Z.of_nat (length (rs_data st)) = pixelcount * Z.of_nat (length px) ->
  currentbyte st = currentpixel st * Z.of_nat (length px) ->
  0 <= currentpixel st <= pixelcount ->
  (exists st1 st2,
     store_pixel px st = Done st1 /\ count_pixel pixelcount st1 = Done st2
     /\ rs_in st2 = rs_in st
     /\ length (rs_data st2) = length (rs_data st)
     /\ currentpixel st2 = currentpixel st + 1
     /\ currentpixel st2 <= pixelcount
     /\ currentbyte st2 = currentbyte st + Z.of_nat (length px))
  \/ store_pixel px st = Undefined (Z.of_nat (length (rs_data st))).
Proof.
  intros Hne Hdata Hcb Hcp.
  assert (Hpx : 0 < Z.of_nat (length px)) by (destruct px; [done|cbn; lia]).
  destruct (decide (currentpixel st < pixelcount)) as [Hlt|Hge].
  - left. rewrite store_pixel_Done by nia.
    eexists _, _. split; [done|].
    rewrite count_pixel_Done by (cbn; lia).
    split; [done|]. cbn [rs_in rs_data currentpixel currentbyte].
    rewrite length_inserts. repeat split; lia.
  - right. assert (currentpixel st = pixelcount) as Heq by lia.
    destruct px as [|v px]; [done|]. cbn [store_pixel]. unfold store_byte.
    destruct (Z.ltb_spec (currentbyte st) (Z.of_nat (length (rs_data st))));
      [nia|].
    rewrite andb_false_r. cbn. f_equal. nia.
Qed.

Lemma raw_packet_outcome n pixelcount bpp st :
  0 < bpp ->
  Z.of_nat (length (rs_data st)) = pixelcount * bpp ->
  currentbyte st = currentpixel st * bpp ->
  0 <= currentpixel st <= pixelcount ->
  decoder_outcome (pixelcount * bpp) (raw_packet n pixelcount bpp st).
Proof.
  intros Hbpp. revert st.
  induction n as [|n IH]; intros st Hdata Hcb Hcp; [done|].
  cbn [raw_packet].
  destruct (stream_read bpp (rs_in st)) as [[px rest]|] eqn:Hrd;
    [|by right].
  apply stream_read_inv in Hrd as (_ & _ & Hpx & _); [|lia].
  match goal with |- context [store_pixel px ?s] => set (st0 := s) end.
  destruct (store_count_outcome pixelcount px st0)
    as [(st1 & st2 & Hs & Hc & _ & Hlen & Hcp2 & Hle & Hcb2)|Hs];
    subst st0; cbn [rs_in rs_data currentpixel currentbyte] in *; try lia.
  - intros ->. cbn in Hpx. lia.
  - rewrite Hs, bind_Done, Hc, bind_Done. apply IH; lia.
  - rewrite Hs. cbn. lia.
Qed.

Lemma run_packet_outcome n pixelcount px st :
  px <> [] ->
  Z.of_nat (length (rs_data st)) = pixelcount * Z.of_nat (length px) ->
  currentbyte st = currentpixel st * Z.of_nat (length px) ->
  0 <= currentpixel st <= pixelcount ->
  decoder_outcome (pixelcount * Z.of_nat (length px))
    (run_packet n pixelcount px st).
Proof.
  intros Hne. revert st.
  induction n as [|n IH]; intros st Hdata Hcb Hcp; [done|].
  cbn [run_packet].
  destruct (store_count_outcome pixelcount px st Hne Hdata Hcb Hcp)
    as [(st1 & st2 & Hs & Hc & _ & Hlen & Hcp2 & Hle & Hcb2)|Hs].
  - rewrite Hs, bind_Done, Hc, bind_Done. apply IH; lia.
  - rewrite Hs. cbn. lia.
Qed.

Lemma load_rle_packet_outcome pixelcount bpp st :
  0 < bpp ->
  Z.of_nat (length (rs_data st)) = pixelcount * bpp ->
  currentbyte st = currentpixel st * bpp ->
  0 <= currentpixel st <= pixelcount ->
  decoder_outcome (pixelcount * bpp) (load_rle_packet pixelcount bpp st).
Proof.
  intros Hbpp Hdata Hcb Hcp. unfold load_rle_packet.
  destruct (stream_get (rs_in st)) as [[hd rest]|]; [|by left].
  destruct (_ <? _); [by apply raw_packet_outcome|].
  cbn [rs_in].
  destruct (stream_read bpp rest) as [[px rest']|] eqn:Hrd; [|by right].
  apply stream_read_inv in Hrd as (_ & _ & Hpx & _); [|lia].
  rewrite <- Hpx.
  apply run_packet_outcome; cbn [rs_data currentpixel currentbyte]; try lia.
  intros ->. cbn in Hpx. lia.
Qed.

Lemma load_rle_loop_outcome fuel pixelcount bpp st :
  0 < bpp ->
  Z.of_nat (length (rs_data st)) = pixelcount * bpp ->
  currentbyte st = currentpixel st * bpp ->
  0 <= currentpixel st <= pixelcount ->
  (length (rs_in st) < fuel)%nat ->
  decoder_outcome (pixelcount * bpp) (load_rle_loop fuel pixelcount bpp st).
Proof.
  intros Hbpp. revert st.
  induction fuel as [|fuel IH]; intros st Hdata Hcb Hcp Hf; [lia|].
  cbn [load_rle_loop].
  pose proof (load_rle_packet_outcome pixelcount bpp st Hbpp Hdata Hcb Hcp)
    as Hp.
  destruct (load_rle_packet pixelcount bpp st) as [st1|msgs|i|] eqn:Hpk;
    try done.
  rewrite bind_Done. destruct (_ <? _); [|done].
  apply load_rle_packet_inv in Hpk as (Hlen & Hin & Hcp1 & Hcb1); [|lia].
  apply IH; lia.
Qed.

(** X13: on an image with a buffer of the declared size, a run of
    [load_rle_data] either never stores outside the buffer, and then it
    succeeds and keeps the shape of the image, or finds the stream ended
    where a packet header is expected, or finds it ended inside a pixel; or
    its first store outside the buffer is at index [w*h*bpp], one past the
    last byte, made by a packet that announces more pixels than the image has
    left.  What the program does after that store is undefined and not
    modelled.  So a run that stays inside the buffer never takes the return
    that prints "Too many pixels read", and the loop always ends. *)
Theorem load_rle_data_outcomes s img :
  valid_image img ->
  (exists rest img',
     load_rle_data s img = Done (rest, img') /\ same_shape img img')
  \/ load_rle_data s img = Failed [error_reading_data]
  \/ load_rle_data s img = Failed [error_reading_header]
  \/ load_rle_data s img = Undefined (w img * h img * bpp img).
Proof.
  intros Hv.
  destruct (valid_image_facts img Hv) as (Hb & Hwh & Hpc & _ & _ & Hlen).
  destruct (load_rle_data s img) as [[rest img']|msgs|i|] eqn:Hl.
  - left. exists rest, img'. split; [done|].
    by apply load_rle_data_inv in Hl; [|lia].
  - revert Hl. unfold load_rle_data. rewrite Hpc.
    match goal with |- context [load_rle_loop ?f ?p ?b ?s] =>
      pose proof (load_rle_loop_outcome f p b s) as Ho;
      destruct (load_rle_loop f p b s) as [st| | |]
    end; try done.
    cbn. intros [= <-].
    destruct Ho as [->| ->]; cbn; try lia; auto.
  - revert Hl. unfold load_rle_data. rewrite Hpc.
    match goal with |- context [load_rle_loop ?f ?p ?b ?s] =>
      pose proof (load_rle_loop_outcome f p b s) as Ho;
      destruct (load_rle_loop f p b s) as [st| | |]
    end; try done.
    cbn. intros [= <-]. do 3 right. f_equal. apply Ho; cbn; lia.
  - by apply load_rle_data_fuel in Hl; [|lia].
Qed.

Lemma load_rle_data_outcomes_witness :
  (exists rest img',
     load_rle_data [x81; x0a] ex_gray_1x1 = Done (rest, img')
     /\ same_shape ex_gray_1x1 img')
  \/ load_rle_data [x81; x0a] ex_gray_1x1 = Failed [error_reading_data]
  \/ load_rle_data [x81; x0a] ex_gray_1x1 = Failed [error_reading_header]
  \/ load_rle_data [x81; x0a] ex_gray_1x1 = Undefined (1 * 1 * 1).
Proof.
  apply (load_rle_data_outcomes [x81; x0a] ex_gray_1x1).
  repeat split; try reflexivity; [left; reflexivity | vm_compute; discriminate].
Defined.

(** ** The decoder writes every byte of the buffer *)

Lemma store_pixel_alike px st st' st1 :
  decoded_alike st st' -> 0 <= currentbyte st ->
  store_pixel px st = Done st1 ->
  exists st1', store_pixel px st' = Done st1' /\ decoded_alike st1 st1'.
Proof.
  intros (Hin & Hcp & Hcb & Hlen & Htk) Hlo Hs.
  destruct (decide (px = [])) as [->|Hne].
  { injection Hs as <-. exists st'. done. }
  pose proof (store_pixel_bound _ _ _ Hs Hne) as Hb.
  pose proof (store_pixel_inv _ _ _ Hs) as (_ & _ & _ & Hcb1).
  rewrite store_pixel_Done in Hs by lia. injection Hs as <-.
  rewrite store_pixel_Done by lia.
  eexists. split; [done|].
  unfold decoded_alike. cbn [rs_in rs_data currentpixel currentbyte].
  rewrite !length_inserts, Hcb.
  repeat split; try done.
  rewrite !list_inserts_splice by lia.
  rewrite Htk, !app_assoc.
  replace (Z.to_nat (currentbyte st + Z.of_nat (length px)))
    with (length (take (Z.to_nat (currentbyte st)) (rs_data st) ++ px))
    by (rewrite length_app, length_take; lia).
  by rewrite !take_app_length.
Qed.

Lemma count_pixel_alike pixelcount st st' st1 :
  decoded_alike st st' -> count_pixel pixelcount st = Done st1 ->
  exists st1', count_pixel pixelcount st' = Done st1' /\ decoded_alike st1 st1'.
Proof.
  intros (Hin & Hcp & Hcb & Hlen & Htk). unfold count_pixel.
  cbn [currentpixel]. rewrite Hcp.
  destruct (_ <? _); [done|]. intros [= <-].
  eexists. split; [done|]. unfold decoded_alike. cbn. by rewrite Hin, Hcb.
Qed.

Lemma raw_packet_alike n pixelcount bpp st st' st1 :
  0 <= bpp -> decoded_alike st st' -> 0 <= currentbyte st ->
  raw_packet n pixelcount bpp st = Done st1 ->
  exists st1', raw_packet n pixelcount bpp st' = Done st1'
    /\ decoded_alike st1 st1'.
Proof.
  intros Hbpp. revert st st'.
  induction n as [|n IH]; intros st st' Ha Hlo Hr.
  { injection Hr as <-. by exists st'. }
  cbn [raw_packet] in *.
  destruct Ha as (Hin & Hcp & Hcb & Hlen & Htk). rewrite Hin.
  destruct (stream_read bpp (rs_in st)) as [[px rest]|] eqn:Hrd; [|done].
  apply bind_Done_inv in Hr as (sa & Hs & Hr).
  apply bind_Done_inv in Hr as (sb & Hc & Hr).
  eapply store_pixel_alike in Hs as Hs'; [|shelve|done].
  destruct Hs' as (sa' & Hs' & Haa).
  destruct (count_pixel_alike _ _ _ _ Haa Hc) as (sb' & Hc' & Hab).
  rewrite Hs', bind_Done, Hc', bind_Done.
  apply (IH sb); [done| |done].
  apply store_pixel_inv in Hs as (_ & _ & _ & Hcb1).
  apply count_pixel_inv in Hc as (_ & _ & _ & Hcb2 & _).
  cbn [currentbyte] in *. lia.
  Unshelve. done.
Qed.

Lemma run_packet_alike n pixelcount px st st' st1 :
  decoded_alike st st' -> 0 <= currentbyte st ->
  run_packet n pixelcount px st = Done st1 ->
  exists st1', run_packet n pixelcount px st' = Done st1'
    /\ decoded_alike st1 st1'.
Proof.
  revert st st'.
  induction n as [|n IH]; intros st st' Ha Hlo Hr.
  { injection Hr as <-. by exists st'. }
  cbn [run_packet] in *.
  apply bind_Done_inv in Hr as (sa & Hs & Hr).
  apply bind_Done_inv in Hr as (sb & Hc & Hr).
  destruct (store_pixel_alike _ _ _ _ Ha Hlo Hs) as (sa' & Hs' & Haa).
  destruct (count_pixel_alike _ _ _ _ Haa Hc) as (sb' & Hc' & Hab).
  rewrite Hs', bind_Done, Hc', bind_Done.
  apply (IH sb); [done| |done].
  apply store_pixel_inv in Hs as (_ & _ & _ & Hcb1).
  apply count_pixel_inv in Hc as (_ & _ & _ & Hcb2 & _).
  lia.
Qed.

Lemma load_rle_packet_alike pixelcount bpp st st' st1 :
  0 <= bpp -> decoded_alike st st' -> 0 <= currentbyte st ->
  load_rle_packet pixelcount bpp st = Done st1 ->
  exists st1', load_rle_packet pixelcount bpp st' = Done st1'
    /\ decoded_alike st1 st1'.
Proof.
  intros Hbpp Ha Hlo. unfold load_rle_packet.
  destruct Ha as (Hin & Hcp & Hcb & Hlen & Htk). rewrite Hin.
  destruct (stream_get (rs_in st)) as [[hd rest]|]; [|done].
  destruct (_ <? _).
  - apply raw_packet_alike; [done| |done]. by unfold decoded_alike.
  - cbn [rs_in]. destruct (stream_read bpp rest) as [[px rest']|]; [|done].
    apply run_packet_alike; [|done]. by unfold decoded_alike.
Qed.

Lemma load_rle_loop_alike fuel pixelcount bpp st st' st1 :
  0 <= bpp -> decoded_alike st st' -> 0 <= currentbyte st ->
  0 <= currentpixel st ->
  load_rle_loop fuel pixelcount bpp st = Done st1 ->
  exists st1', load_rle_loop fuel pixelcount bpp st' = Done st1'
    /\ decoded_alike st1 st1'.
Proof.
  intros Hbpp. revert st st'.
  induction fuel as [|fuel IH]; intros st st' Ha Hlo Hcp0 Hr; [done|].
  cbn [load_rle_loop] in *.
  apply bind_Done_inv in Hr as (sa & Hp & Hr).
  destruct (load_rle_packet_alike _ _ _ _ _ Hbpp Ha Hlo Hp)
    as (sa' & Hp' & Haa).
  rewrite Hp', bind_Done.
  pose proof Haa as (_ & Hcp & _). rewrite Hcp.
  destruct (_ <? _).
  - apply load_rle_packet_inv in Hp as (_ & _ & Hcp1 & Hcb1); [|done].
    apply (IH sa); try done; nia.
  - injection Hr as <-. by exists sa'.
Qed.

(** X14: a successful [load_rle_data] writes every byte of the buffer: the
    image it leaves does not depend on what the buffer held before the
    call. *)
Theorem load_rle_data_overwrites_buffer s img X rest img' :
  valid_image img -> length X = length (data img) ->
  load_rle_data s img = Done (rest, img') ->
  load_rle_data s (with_data img X) = Done (rest, img').
Proof.
  intros Hv HX Hl.
  destruct (valid_image_facts img Hv) as (Hb & Hwh & Hpc & _ & _ & Hlen).
  unfold load_rle_data in *. cbn [w h bpp data with_data] in *.
  apply bind_Done_inv in Hl as (st & Hl & Hd). injection Hd as <- <-.
  eapply load_rle_loop_alike in Hl as Hl'; [|lia|shelve|done|done].
  destruct Hl' as (st' & Hl' & (Hin & Hcp & Hcb & Hlen' & Htk)).
  rewrite Hl', bind_Done.
  apply load_rle_loop_inv in Hl as (Hlen1 & Hcp1 & Hcb1); [|lia].
  cbn [rs_data currentpixel currentbyte] in *.
  rewrite Hpc in Hcp1.
  rewrite !take_ge in Htk by nia.
  unfold with_data. cbn [w h bpp]. by rewrite Hin, Htk.
  Unshelve.
  unfold decoded_alike. cbn. done.
Qed.

Lemma load_rle_data_overwrites_buffer_witness :
  load_rle_data [x01; x0a; x0b] (with_data ex_gray_2x1_blank [x07; x09])
  = Done ([], {| w := 2; h := 1; bpp := 1; data := [x0a; x0b] |}).
Proof.
  apply (load_rle_data_overwrites_buffer [x01; x0a; x0b] ex_gray_2x1_blank).
  - repeat split; try reflexivity;
      [left; reflexivity | vm_compute; discriminate].
  - reflexivity.
  - reflexivity.
Defined.

(** ** [line] *)

Lemma int_abs_id z : - 2 ^ 31 < z < 2 ^ 31 -> int_abs z = Z.abs z.
Proof. intros Hz. unfold int_abs. apply to_int_id. unfold INT_MAX. lia. Qed.

Lemma line_step_points {S : Type} (plot : Z -> Z -> S -> S) isSteep
    ax ay bx by_ y e pts out x :
  let st := line_step plot isSteep ax ay bx by_
              (mkLine y e (fold_left (fun s p => plot p.1 p.2 s) pts out)) x in
  let tr := line_step (fun x y l => l ++ [(x, y)]) isSteep ax ay bx by_
              (mkLine y e pts) x in
  st = mkLine (ls_y tr) (ls_ierror tr)
         (fold_left (fun s p => plot p.1 p.2 s) (ls_out tr) out).
Proof.
  unfold line_step. cbn [ls_y ls_ierror ls_out].
  destruct (_ <? _); cbn [ls_y ls_ierror ls_out];
    destruct isSteep; by rewrite fold_left_app.
Qed.

Lemma line_fold_points {S : Type} (plot : Z -> Z -> S -> S) isSteep
    ax ay bx by_ xs y e pts out :
  ls_out (fold_left (line_step plot isSteep ax ay bx by_) xs
            (mkLine y e (fold_left (fun s p => plot p.1 p.2 s) pts out)))
  = fold_left (fun s p => plot p.1 p.2 s)
      (ls_out (fold_left
                 (line_step (fun x y l => l ++ [(x, y)]) isSteep ax ay bx by_)
                 xs (mkLine y e pts))) out.
Proof.
  revert y e pts. induction xs as [|x xs IH]; intros y e pts; [done|].
  cbn [fold_left]. rewrite line_step_points.
  destruct (line_step (fun x y l => l ++ [(x, y)]) isSteep ax ay bx by_
              (mkLine y e pts) x) as [y' e' pts'].
  cbn [ls_y ls_ierror ls_out]. apply IH.
Qed.

Lemma line_with_points {S : Type} (plot : Z -> Z -> S -> S) ax ay bx by_ out :
  line_with plot ax ay bx by_ out
  = fold_left (fun s p => plot p.1 p.2 s) (line_points ax ay bx by_) out.
Proof.
  unfold line_points, line_with.
  destruct (_ <? _); destruct (_ <? _); unfold line_loop;
    apply (line_fold_points plot _ _ _ _ _ _ _ _ []).
Qed.

Section line_normalized.
Variables (isSteep : bool) (ax ay bx by_ : Z).
Hypothesis Hax : coord ax.
Hypothesis Hay : coord ay.
Hypothesis Hbx : coord bx.
Hypothesis Hby : coord by_.
Hypothesis Hltr : ax <= bx.
Hypothesis Hflat : Z.abs (by_ - ay) <= bx - ax.

Lemma line_loop_prefix (n : nat) :
  Z.of_nat n <= bx - ax + 1 ->
  let st := fold_left
              (line_step (fun x y l => l ++ [(x, y)]) isSteep ax ay bx by_)
              (seqZ ax (Z.of_nat n)) (mkLine ay 0 []) in
  exists m,
    0 <= m <= Z.of_nat n
    /\ ls_y st = ay + (if ay <? by_ then 1 else -1) * m
    /\ ls_ierror st = 2 * Z.of_nat n * Z.abs (by_ - ay) - 2 * (bx - ax) * m
    /\ - (bx - ax) <= ls_ierror st <= bx - ax
    /\ length (ls_out st) = n
    /\ (forall (k : nat) p, ls_out st !! k = Some p ->
         exists y, p = plotted isSteep (ax + Z.of_nat k) y
           /\ 2 * Z.abs (cross ax ay bx by_ (ax + Z.of_nat k) y) <= bx - ax
           /\ (k = 0%nat -> y = ay))
    /\ (forall (k : nat) p q,
         ls_out st !! k = Some p -> ls_out st !! Datatypes.S k = Some q ->
         exists y y', p = plotted isSteep (ax + Z.of_nat k) y
           /\ q = plotted isSteep (ax + Z.of_nat k + 1) y'
           /\ Z.abs (y' - y) <= 1)
    /\ (forall p, last (ls_out st) = Some p ->
         exists y, p = plotted isSteep (ax + Z.of_nat n - 1) y
           /\ Z.abs (ls_y st - y) <= 1).
Proof.
  unfold coord in *. cbv zeta.
  induction n as [|n IH]; intros Hn.
  { exists 0. rewrite seqZ_nil by lia.
    cbn [fold_left ls_y ls_ierror ls_out length].
    split; [lia|]. split; [destruct (ay <? by_); lia|].
    split; [lia|]. split; [lia|].
    split; [done|]. split; [|split].
    - intros k p Hk. by rewrite lookup_nil in Hk.
    - intros k p q Hk. by rewrite lookup_nil in Hk.
    - intros p Hp. done. }
  destruct IH as (m & Hm & Hy & He & Hr & Hlen & Hpts & Hadj & Hlast); [lia|].
  rewrite seqZ_S, fold_left_app. cbn [fold_left].
  set (st := fold_left _ (seqZ ax (Z.of_nat n)) _) in *.
  destruct st as [y e pts]. cbn [ls_y ls_ierror ls_out] in *.
  assert (Hpt : forall (k : nat) p,
             (pts ++ [plotted isSteep (ax + Z.of_nat n) y]) !! k = Some p ->
             exists y0, p = plotted isSteep (ax + Z.of_nat k) y0
               /\ 2 * Z.abs (cross ax ay bx by_ (ax + Z.of_nat k) y0) <= bx - ax
               /\ (k = 0%nat -> y0 = ay)).
  { intros k p Hk. apply lookup_app_Some in Hk as [Hk|[Hge Hk]].
    { by apply Hpts. }
    rewrite Hlen in Hge, Hk.
    apply list_lookup_singleton_Some in Hk as [Hk <-].
    assert (k = n) as -> by lia. exists y. split; [done|]. split.
    - unfold cross. rewrite Hy.
      destruct (ay <? by_) eqn:Hs; [apply Z.ltb_lt in Hs|apply Z.ltb_ge in Hs].
      + replace (Z.abs (by_ - ay)) with (by_ - ay) in * by lia.
        replace ((ax + Z.of_nat n - ax) * (by_ - ay)
                 - (ay + 1 * m - ay) * (bx - ax))
          with (Z.of_nat n * (by_ - ay) - (bx - ax) * m) by ring. lia.
      + replace (Z.abs (by_ - ay)) with (ay - by_) in * by lia.
        replace ((ax + Z.of_nat n - ax) * (by_ - ay)
                 - (ay + -1 * m - ay) * (bx - ax))
          with (- (Z.of_nat n * (ay - by_) - (bx - ax) * m)) by ring. lia.
    - intros ->. destruct (ay <? by_); lia. }
  assert (Hadj' : forall (k : nat) p q,
             (pts ++ [plotted isSteep (ax + Z.of_nat n) y]) !! k = Some p ->
             (pts ++ [plotted isSteep (ax + Z.of_nat n) y]) !! Datatypes.S k
             = Some q ->
             exists y0 y', p = plotted isSteep (ax + Z.of_nat k) y0
               /\ q = plotted isSteep (ax + Z.of_nat k + 1) y'
               /\ Z.abs (y' - y0) <= 1).
  { intros k p q Hp Hq.
    apply lookup_app_Some in Hq as [Hq|[Hge Hq]].
    { rewrite lookup_app_l in Hp by (apply lookup_lt_Some in Hq; lia).
      by apply (Hadj k). }
    rewrite Hlen in Hge, Hq.
    apply list_lookup_singleton_Some in Hq as [Hq <-].
    assert (Datatypes.S k = n) as Hk by lia.
    rewrite lookup_app_l in Hp by lia.
    destruct (Hlast p) as (yl & -> & Hyl).
    { rewrite last_lookup, Hlen, <- Hk. exact Hp. }
    exists yl, y. split; [f_equal; lia|]. split; [f_equal; lia|]. done. }
  unfold line_step. cbn [ls_y ls_ierror ls_out].
  rewrite (to_int_id (by_ - ay)) by (unfold INT_MAX; lia).
  rewrite int_abs_id by lia.
  rewrite (to_int_id (2 * _)) by (unfold INT_MAX; lia).
  rewrite (to_int_id (e + _)) by (unfold INT_MAX; lia).
  rewrite !(to_int_id (bx - ax)) by (unfold INT_MAX; lia).
  rewrite (to_int_id (2 * _)) by (unfold INT_MAX; lia).
  assert (Hsgn : -1 <= (if ay <? by_ then 1 else -1) <= 1)
    by (destruct (ay <? by_); lia).
  replace (if isSteep
           then pts ++ [(y, ax + Z.of_nat n)]
           else pts ++ [(ax + Z.of_nat n, y)])
    with (pts ++ [plotted isSteep (ax + Z.of_nat n) y])
    by (by destruct isSteep).
  destruct (bx - ax <? e + 2 * Z.abs (by_ - ay)) eqn:Hc;
    [apply Z.ltb_lt in Hc|apply Z.ltb_ge in Hc]; cbn [ls_y ls_ierror ls_out].
  - exists (m + 1).
    rewrite (to_int_id (y + _)) by (unfold INT_MAX; destruct (ay <? by_); nia).
    rewrite (to_int_id (_ - _)) by (unfold INT_MAX; lia).
    split; [lia|]. split; [rewrite Hy; ring|]. split; [rewrite He; lia|].
    split; [lia|]. split; [rewrite length_app, Hlen; simpl; lia|].
    split; [done|]. split; [done|].
    intros p Hp. rewrite last_snoc in Hp. injection Hp as <-.
    exists y. split; [f_equal; lia|]. destruct (ay <? by_); lia.
  - exists m.
    split; [lia|]. split; [done|]. split; [rewrite He; lia|].
    split; [lia|]. split; [rewrite length_app, Hlen; simpl; lia|].
    split; [done|]. split; [done|].
    intros p Hp. rewrite last_snoc in Hp. injection Hp as <-.
    exists y. split; [f_equal; lia|]. lia.
Qed.

Lemma line_loop_points :
  let pts := ls_out (line_loop (fun x y l => l ++ [(x, y)])
                       isSteep ax ay bx by_ []) in
  Z.of_nat (length pts) = bx - ax + 1
  /\ pts !! 0%nat = Some (plotted isSteep ax ay)
  /\ last pts = Some (plotted isSteep bx by_)
  /\ (forall p, p ∈ pts ->
        exists x y, p = plotted isSteep x y /\ ax <= x <= bx
          /\ Z.min ay by_ <= y <= Z.max ay by_
          /\ 2 * Z.abs (cross ax ay bx by_ x y) <= bx - ax)
  /\ (forall (k : nat) p q,
        pts !! k = Some p -> pts !! Datatypes.S k = Some q ->
        exists x y y', p = plotted isSteep x y
          /\ q = plotted isSteep (x + 1) y' /\ Z.abs (y' - y) <= 1).
Proof.
  cbv zeta. unfold line_loop.
  destruct (line_loop_prefix (Z.to_nat (bx - ax + 1)))
    as (m & Hm & Hy & He & Hr & Hlen & Hpts & Hadj & Hlast); [lia|].
  rewrite Z2Nat.id in * by lia.
  set (pts := ls_out _) in *.
  assert (Hpt : forall (k : nat) p, pts !! k = Some p ->
            exists y, p = plotted isSteep (ax + Z.of_nat k) y
              /\ Z.of_nat k <= bx - ax
              /\ Z.min ay by_ <= y <= Z.max ay by_
              /\ 2 * Z.abs (cross ax ay bx by_ (ax + Z.of_nat k) y) <= bx - ax
              /\ (k = 0%nat -> y = ay) /\ (Z.of_nat k = bx - ax -> y = by_)).
  { intros k p Hk. pose proof (lookup_lt_Some _ _ _ Hk) as Hlt.
    destruct (Hpts k p Hk) as (y & -> & Hacc & H0).
    exists y. split; [done|]. split; [lia|].
    assert (Hbox : Z.min ay by_ <= y <= Z.max ay by_
                   /\ (Z.of_nat k = bx - ax -> y = by_)).
    { destruct (decide (k = 0%nat)) as [->|Hk0].
      { rewrite H0 by done. split; [lia|]. intros Hz. lia. }
      unfold cross in Hacc.
      replace (ax + Z.of_nat k - ax) with (Z.of_nat k) in Hacc by lia.
      assert (0 < bx - ax) by lia.
      split; [|intros Hz; rewrite Hz in Hacc]; nia. }
    destruct Hbox. done. }
  split; [lia|]. split; [|split; [|split]].
  - destruct (pts !! 0%nat) as [p|] eqn:Hp.
    + destruct (Hpt _ _ Hp) as (y & -> & _ & _ & _ & H0 & _).
      rewrite H0 by done. do 2 f_equal. simpl. lia.
    + apply lookup_ge_None in Hp. lia.
  - rewrite last_lookup.
    destruct (pts !! Nat.pred (length pts)) as [p|] eqn:Hp.
    + destruct (Hpt _ _ Hp) as (y & -> & _ & _ & _ & _ & H1).
      rewrite H1 by lia. do 2 f_equal. lia.
    + apply lookup_ge_None in Hp. lia.
  - intros p Hp. apply list_elem_of_lookup in Hp as [k Hk].
    destruct (Hpt _ _ Hk) as (y & -> & Hle & Hbox & Hacc & _).
    exists (ax + Z.of_nat k), y. split; [done|]. split; [lia|]. done.
  - intros k p q Hp Hq.
    destruct (Hadj k p q Hp Hq) as (y & y' & -> & -> & Hd).
    by exists (ax + Z.of_nat k), y, y'.
Qed.
End line_normalized.

Lemma line_points_facts ax ay bx by_ :
  coord ax -> coord ay -> coord bx -> coord by_ ->
  let pts := line_points ax ay bx by_ in
  let n := Z.max (Z.abs (bx - ax)) (Z.abs (by_ - ay)) in
  Z.of_nat (length pts) = n + 1
  /\ (pts !! 0%nat = Some (ax, ay) /\ last pts = Some (bx, by_)
      \/ pts !! 0%nat = Some (bx, by_) /\ last pts = Some (ax, ay))
  /\ (forall x y, (x, y) ∈ pts ->
        Z.min ax bx <= x <= Z.max ax bx /\ Z.min ay by_ <= y <= Z.max ay by_
        /\ 2 * Z.abs (cross ax ay bx by_ x y) <= n)
  /\ (forall (k : nat) p q,
        pts !! k = Some p -> pts !! Datatypes.S k = Some q ->
        Z.abs (q.1 - p.1) <= 1 /\ Z.abs (q.2 - p.2) <= 1 /\ p <> q).
Proof.
  intros Hax Hay Hbx Hby. cbv zeta. unfold line_points, line_with.
  pose proof Hax as Hax'. pose proof Hay as Hay'.
  pose proof Hbx as Hbx'. pose proof Hby as Hby'.
  unfold coord in Hax', Hay', Hbx', Hby'.
  rewrite !to_int_id by (unfold INT_MAX; lia).
  rewrite !int_abs_id by lia.
  destruct (Z.abs (ax - bx) <? Z.abs (ay - by_)) eqn:Hs;
    [apply Z.ltb_lt in Hs|apply Z.ltb_ge in Hs].
  - destruct (by_ <? ay) eqn:Hl; [apply Z.ltb_lt in Hl|apply Z.ltb_ge in Hl].
    + destruct (line_loop_points true by_ bx ay ax)
        as (Hlen & Hfst & Hlst & Hmem & Hadj); try done; try lia.
      set (pts := ls_out _) in *. unfold plotted in *.
      split; [lia|]. split; [by right|]. split.
      * intros x y Hp. destruct (Hmem _ Hp) as (x0 & y0 & [= -> ->] & Hm).
        unfold cross in *. lia.
      * intros k p q Hp Hq.
        destruct (Hadj k p q Hp Hq) as (x0 & y0 & y' & -> & -> & Hd).
        cbn [fst snd]. split; [lia|]. split; [lia|].
        intros [= _ ?]. lia.
    + destruct (line_loop_points true ay ax by_ bx)
        as (Hlen & Hfst & Hlst & Hmem & Hadj); try done; try lia.
      set (pts := ls_out _) in *. unfold plotted in *.
      split; [lia|]. split; [by left|]. split.
      * intros x y Hp. destruct (Hmem _ Hp) as (x0 & y0 & [= -> ->] & Hm).
        unfold cross in *. lia.
      * intros k p q Hp Hq.
        destruct (Hadj k p q Hp Hq) as (x0 & y0 & y' & -> & -> & Hd).
        cbn [fst snd]. split; [lia|]. split; [lia|].
        intros [= _ ?]. lia.
  - destruct (bx <? ax) eqn:Hl; [apply Z.ltb_lt in Hl|apply Z.ltb_ge in Hl].
    + destruct (line_loop_points false bx by_ ax ay)
        as (Hlen & Hfst & Hlst & Hmem & Hadj); try done; try lia.
      set (pts := ls_out _) in *. unfold plotted in *.
      split; [lia|]. split; [by right|]. split.
      * intros x y Hp. destruct (Hmem _ Hp) as (x0 & y0 & [= -> ->] & Hm).
        unfold cross in *. lia.
      * intros k p q Hp Hq.
        destruct (Hadj k p q Hp Hq) as (x0 & y0 & y' & -> & -> & Hd).
        cbn [fst snd]. split; [lia|]. split; [lia|].
        intros [= ? _]. lia.
    + destruct (line_loop_points false ax ay bx by_)
        as (Hlen & Hfst & Hlst & Hmem & Hadj); try done; try lia.
      set (pts := ls_out _) in *. unfold plotted in *.
      split; [lia|]. split; [by left|]. split.
      * intros x y Hp. destruct (Hmem _ Hp) as (x0 & y0 & [= -> ->] & Hm).
        unfold cross in *. lia.
      * intros k p q Hp Hq.
        destruct (Hadj k p q Hp Hq) as (x0 & y0 & y' & -> & -> & Hd).
        cbn [fst snd]. split; [lia|]. split; [lia|].
        intros [= ? _]. lia.
Qed.

(** X15: for coordinates of at most 2^28 in absolute value, [line] keeps
    the shape of the frame buffer and changes the cells it plots only: a
    plotted cell inside the image reads back as the colour, every coordinate
    pair that is not plotted reads as before; in particular every cell
    outside the bounding box of the end points, or more than half a pixel
    away from the straight line through them, reads as before. *)
Theorem line_paints_plotted_cells ax ay bx by_ fb c :
  sound_image fb -> length (bgra c) = 4%nat ->
  coord ax -> coord ay -> coord bx -> coord by_ ->
  sound_image (line ax ay bx by_ fb c)
  /\ same_shape fb (line ax ay bx by_ fb c)
  /\ forall x y,
       ((x, y) ∈ line_points ax ay bx by_ -> in_image x y fb ->
        get x y (line ax ay bx by_ fb c)
        = stored_color fb (take (Z.to_nat (bpp fb)) (bgra c)))
       /\ ((x, y) ∉ line_points ax ay bx by_ ->
           get x y (line ax ay bx by_ fb c) = get x y fb)
       /\ (~ (Z.min ax bx <= x <= Z.max ax bx
              /\ Z.min ay by_ <= y <= Z.max ay by_
              /\ 2 * Z.abs (cross ax ay bx by_ x y)
                 <= Z.max (Z.abs (bx - ax)) (Z.abs (by_ - ay))) ->
           get x y (line ax ay bx by_ fb c) = get x y fb).
Proof.
  intros Hs Hc Hax Hay Hbx Hby.
  destruct (line_points_facts ax ay bx by_ Hax Hay Hbx Hby)
    as (_ & _ & Hmem & _).
  unfold line. rewrite line_with_points.
  destruct (sound_image_fold_set (line_points ax ay bx by_) c fb Hs)
    as [Hs' Hsh].
  split; [exact Hs'|]. split; [exact Hsh|].
  intros x y. split; [|split].
  - intros Hin Himg. by apply fold_set_get_in.
  - intros Hnin. by apply fold_set_get_notin.
  - intros Hfar. apply fold_set_get_notin; try done.
    intros Hin. apply Hfar. by apply Hmem.
Qed.

Lemma line_paints_plotted_cells_witness :
  get 2 1 (line 0 0 5 2 ex_rgb_8x8 ex_color)
  = stored_color ex_rgb_8x8 (take 3 (bgra ex_color))
  /\ get 2 0 (line 0 0 5 2 ex_rgb_8x8 ex_color) = get 2 0 ex_rgb_8x8
  /\ get 6 2 (line 0 0 5 2 ex_rgb_8x8 ex_color) = get 6 2 ex_rgb_8x8.
Proof.
  destruct (line_paints_plotted_cells 0 0 5 2 ex_rgb_8x8 ex_color)
    as (_ & _ & Hget); try (unfold coord; lia).
  - repeat split; try reflexivity; vm_compute; discriminate.
  - reflexivity.
  - split; [|split].
    + destruct (Hget 2 1) as (Hin & _ & _). apply Hin.
      * apply (list_elem_of_lookup_2 _ 2%nat). reflexivity.
      * split; cbn; lia.
    + destruct (Hget 2 0) as (_ & Hout & _). apply Hout.
      vm_compute. intros Hin.
      repeat (apply elem_of_cons in Hin as [[=]|Hin]).
      by apply elem_of_nil in Hin.
    + destruct (Hget 6 2) as (_ & _ & Hfar). apply Hfar. lia.
Defined.

(** X16: for coordinates of at most 2^28 in absolute value, [line] plots
    [max(|bx-ax|, |by-ay|) + 1] points; the first and the last are the two
    end points [(ax,ay)] and [(bx,by)] (in one order or the other), and each
    point is followed by a different one that is at most one column and one
    row away: the plotted points form a path without gaps between the end
    points. *)
Theorem line_points_connect_endpoints ax ay bx by_ :
  coord ax -> coord ay -> coord bx -> coord by_ ->
  let pts := line_points ax ay bx by_ in
  Z.of_nat (length pts) = Z.max (Z.abs (bx - ax)) (Z.abs (by_ - ay)) + 1
  /\ (pts !! 0%nat = Some (ax, ay) /\ last pts = Some (bx, by_)
      \/ pts !! 0%nat = Some (bx, by_) /\ last pts = Some (ax, ay))
  /\ (forall (k : nat) p q,
        pts !! k = Some p -> pts !! Datatypes.S k = Some q ->
        Z.abs (q.1 - p.1) <= 1 /\ Z.abs (q.2 - p.2) <= 1 /\ p <> q).
Proof.
  intros Hax Hay Hbx Hby.
  destruct (line_points_facts ax ay bx by_ Hax Hay Hbx Hby)
    as (Hlen & Hends & _ & Hadj).
  done.
Qed.

Lemma line_points_connect_endpoints_witness :
  Z.of_nat (length (line_points 7 3 12 37)) = 35
  /\ (line_points 7 3 12 37 !! 0%nat = Some (7, 3)
      /\ last (line_points 7 3 12 37) = Some (12, 37)
      \/ line_points 7 3 12 37 !! 0%nat = Some (12, 37)
         /\ last (line_points 7 3 12 37) = Some (7, 3)).
Proof.
  destruct (line_points_connect_endpoints 7 3 12 37)
    as (Hlen & Hends & _); try (unfold coord; lia).
  split; [exact Hlen|exact Hends].
Defined.

(** X17: for coordinates of at most 2^28 in absolute value, every point
    [line] plots lies in the bounding box of the two end points, and its
    distance from the straight line through them, measured along the minor
    axis, is at most one half: [2 * |cross| <= max(|bx-ax|, |by-ay|)]. *)
Theorem line_points_near_segment ax ay bx by_ x y :
  coord ax -> coord ay -> coord bx -> coord by_ ->
  (x, y) ∈ line_points ax ay bx by_ ->
  Z.min ax bx <= x <= Z.max ax bx /\ Z.min ay by_ <= y <= Z.max ay by_
  /\ 2 * Z.abs (cross ax ay bx by_ x y)
     <= Z.max (Z.abs (bx - ax)) (Z.abs (by_ - ay)).
Proof.
  intros Hax Hay Hbx Hby Hin.
  destruct (line_points_facts ax ay bx by_ Hax Hay Hbx Hby)
    as (_ & _ & Hmem & _).
  by apply Hmem.
Qed.

Lemma line_points_near_segment_witness :
  (9, 14) ∈ line_points 7 3 12 37
  /\ 2 * Z.abs (cross 7 3 12 37 9 14) <= 34.
Proof.
  assert (Hin : (9, 14) ∈ line_points 7 3 12 37).
  { apply (list_elem_of_lookup_2 _ 11%nat). reflexivity. }
  split; [exact Hin|].
  apply (line_points_near_segment 7 3 12 37 9 14);
    try (unfold coord; lia). exact Hin.
Defined.

(** X18: a line between two cells of the image paints both of them: after
    [line], [get] returns the colour at [(ax,ay)] and at [(bx,by)]. *)
Theorem line_paints_endpoints ax ay bx by_ fb c :
  sound_image fb -> length (bgra c) = 4%nat ->
  coord ax -> coord ay -> coord bx -> coord by_ ->
  in_image ax ay fb -> in_image bx by_ fb ->
  get ax ay (line ax ay bx by_ fb c)
  = stored_color fb (take (Z.to_nat (bpp fb)) (bgra c))
  /\ get bx by_ (line ax ay bx by_ fb c)
     = stored_color fb (take (Z.to_nat (bpp fb)) (bgra c)).
Proof.
  intros Hs Hc Hax Hay Hbx Hby Ha Hb.
  destruct (line_points_facts ax ay bx by_ Hax Hay Hbx Hby)
    as (_ & Hends & _ & _).
  assert (Hin : (ax, ay) ∈ line_points ax ay bx by_
                /\ (bx, by_) ∈ line_points ax ay bx by_).
  { destruct Hends as [[Hf Hl]|[Hf Hl]]; rewrite last_lookup in Hl;
      split; by eapply list_elem_of_lookup_2. }
  destruct Hin as [Hina Hinb].
  unfold line. rewrite line_with_points.
  split; by apply fold_set_get_in.
Qed.

Lemma line_paints_endpoints_witness :
  get 5 2 (line 5 2 0 0 ex_rgb_8x8 ex_color)
  = stored_color ex_rgb_8x8 (take 3 (bgra ex_color))
  /\ get 0 0 (line 5 2 0 0 ex_rgb_8x8 ex_color)
     = stored_color ex_rgb_8x8 (take 3 (bgra ex_color)).
Proof.
  apply (line_paints_endpoints 5 2 0 0 ex_rgb_8x8 ex_color);
    try (unfold coord; lia); try reflexivity.
  - repeat split; try reflexivity; vm_compute; discriminate.
  - split; cbn; lia.
  - split; cbn; lia.
Defined.
